(** * PostgreSQL dump to DBML converter: embedding and verified properties

    A shallow embedding of the conversion pipeline
    (preprocessor, structural parser driver, type mapper, constraint
    handler, relationship builder) together with the properties stated for
    it.

    Conventions of the embedding.
    - Python [str] values are [string]s.  Character classes ([\s], [\w],
      [\d], [str.strip], [str.upper], [str.lower]) are the ASCII ones; code
      points above 127 are treated as ordinary symbols (not space, not
      word characters, unchanged by case conversion).
    - Python dictionaries with a fixed set of keys are records; a key that
      the code reads with [.get] is an [option] field (absent = [None]).
    - Table and column dictionaries are mutated in place by the transformer
      stage, so they live in a store and are referred to by location.
    - Instance attributes that accumulate logs ([self.warnings_generated],
      [self.dropped_constraints], ...) are threaded explicitly. *)

From Stdlib Require Import Ascii String List Bool Arith Lia.
From stdpp Require Import base option list strings gmap pretty.

Local Open Scope stdpp_scope.

(** ** Python string primitives *)

Module PyStr.

(** The double-quote character. *)
Definition dq : ascii := "034"%char.

Definition code (c : ascii) : nat := nat_of_ascii c.

(** [str.isspace] on ASCII: TAB..CR, FS..US and the blank. This is also the
    class [\s] of the [re] module for [str] patterns. *)
Definition is_space (c : ascii) : bool :=
  ((9 <=? code c) && (code c <=? 13)) || ((28 <=? code c) && (code c <=? 32)).

Definition is_digit (c : ascii) : bool := (48 <=? code c) && (code c <=? 57).
Definition is_upper (c : ascii) : bool := (65 <=? code c) && (code c <=? 90).
Definition is_lower (c : ascii) : bool := (97 <=? code c) && (code c <=? 122).
Definition is_alpha (c : ascii) : bool := is_upper c || is_lower c.

(** The class [\w]: letters, digits and the underscore. *)
Definition is_word (c : ascii) : bool :=
  is_alpha c || is_digit c || bool_decide (c = "_"%char).

Definition lower_char (c : ascii) : ascii :=
  if is_upper c then ascii_of_nat (code c + 32) else c.
Definition upper_char (c : ascii) : ascii :=
  if is_lower c then ascii_of_nat (code c - 32) else c.

Fixpoint map (f : ascii → ascii) (s : string) : string :=
  match s with
  | EmptyString => EmptyString
  | String c r => String (f c) (map f r)
  end.

(** [s.lower()] and [s.upper()]. *)
Definition lower : string → string := map lower_char.
Definition upper : string → string := map upper_char.

Definition is_empty (s : string) : bool :=
  match s with EmptyString => true | _ => false end.

(** [s.lstrip()], [s.rstrip()], [s.strip()]. *)
Fixpoint lstrip (s : string) : string :=
  match s with
  | EmptyString => EmptyString
  | String c r => if is_space c then lstrip r else s
  end.

Fixpoint rstrip (s : string) : string :=
  match s with
  | EmptyString => EmptyString
  | String c r =>
      let r' := rstrip r in
      if is_space c && is_empty r' then EmptyString else String c r'
  end.

Definition strip (s : string) : string := rstrip (lstrip s).

(** [s.startswith(p)]; on success also the rest of [s] after [p]. *)
Fixpoint strip_prefix (p s : string) : option string :=
  match p, s with
  | EmptyString, _ => Some s
  | String a p', String b s' => if bool_decide (a = b) then strip_prefix p' s' else None
  | String _ _, EmptyString => None
  end.

Definition startswith (s p : string) : bool := bool_decide (is_Some (strip_prefix p s)).

(** [sub in s]. *)
Fixpoint contains (sub s : string) : bool :=
  startswith s sub ||
  match s with
  | EmptyString => false
  | String _ r => contains sub r
  end.

(** [s.endswith(p)]. *)
Fixpoint endswith (s p : string) : bool :=
  bool_decide (s = p) ||
  match s with
  | EmptyString => false
  | String _ r => endswith r p
  end.

(** [s.replace(old, new)] for a non-empty [old]: occurrences are replaced
    left to right without overlap.  [skip] counts the characters of the
    occurrence just replaced that are still to be passed over. *)
Fixpoint replace_go (old new : string) (skip : nat) (s : string) : string :=
  match s with
  | EmptyString => EmptyString
  | String c r =>
      match skip with
      | S k => replace_go old new k r
      | O =>
          if startswith s old
          then new +:+ replace_go old new (String.length old - 1) r
          else String c (replace_go old new 0 r)
      end
  end.

Definition replace (s old new : string) : string := replace_go old new 0 s.

(** [s[:n]]. *)
Fixpoint take (n : nat) (s : string) : string :=
  match n, s with
  | S k, String c r => String c (take k r)
  | _, _ => EmptyString
  end.

(** Longest prefix whose characters satisfy [p], and the rest: the way a
    greedy [class+] or [class*] matches when what follows it in the pattern
    cannot start with a character of the class. *)
Fixpoint span (p : ascii → bool) (s : string) : string * string :=
  match s with
  | EmptyString => (EmptyString, EmptyString)
  | String c r =>
      if p c then let '(a, b) := span p r in (String c a, b)
      else (EmptyString, s)
  end.

(** Case-insensitive literal prefix (a literal under [re.IGNORECASE]);
    [p] is given in lower case. *)
Fixpoint strip_prefix_ci (p s : string) : option string :=
  match p, s with
  | EmptyString, _ => Some s
  | String a p', String b s' =>
      if bool_decide (a = lower_char b) then strip_prefix_ci p' s' else None
  | String _ _, EmptyString => None
  end.

(** f-string rendering of a value that may be [None]. *)
Definition fmt (o : option string) : string :=
  match o with Some s => s | None => "None" end.

End PyStr.

(** ** The [re] module: substitution and search for patterns that never match
    the empty string *)

Module Re.
Import PyStr.

(** A compiled pattern is a function that, given the character before the
    current position (for [\b]) and the text from the current position on,
    says whether the pattern matches there and, if so, returns a value built
    from the groups and the text after the match. *)
Definition matcher (A : Type) : Type := option ascii → string → option (A * string).

Definition consumed (s rest : string) : nat := String.length s - String.length rest.

(** [re.sub(pattern, repl, s)]: scan left to right; at a match emit the
    replacement and resume after it, otherwise copy one character. *)
Fixpoint sub_go (m : matcher string) (prev : option ascii) (skip : nat) (s : string) : string :=
  match s with
  | EmptyString => EmptyString
  | String c r =>
      match skip with
      | S k => sub_go m (Some c) k r
      | O =>
          match m prev s with
          | Some (rep, rest) => rep +:+ sub_go m (Some c) (consumed s rest - 1) r
          | None => String c (sub_go m (Some c) 0 r)
          end
      end
  end.

Definition sub (m : matcher string) (s : string) : string := sub_go m None 0 s.

(** [re.finditer(pattern, s)]: the successive non-overlapping matches. *)
Fixpoint finditer_go {A} (m : matcher A) (prev : option ascii) (skip : nat) (s : string) : list A :=
  match s with
  | EmptyString => []
  | String c r =>
      match skip with
      | S k => finditer_go m (Some c) k r
      | O =>
          match m prev s with
          | Some (a, rest) => a :: finditer_go m (Some c) (consumed s rest - 1) r
          | None => finditer_go m (Some c) 0 r
          end
      end
  end.

Definition finditer {A} (m : matcher A) (s : string) : list A := finditer_go m None 0 s.

(** [re.search(pattern, s)]: the first match, if any. *)
Definition search {A} (m : matcher A) (s : string) : option A := head (finditer m s).

(** [\b] before a word character: the previous character, if any, is not a
    word character. *)
Definition at_word_start (prev : option ascii) : bool :=
  match prev with
  | Some c => negb (is_word c)
  | None => true
  end.

(** [\b] after a word character: the next character, if any, is not a word
    character. *)
Definition at_word_end (rest : string) : bool :=
  match rest with
  | String c _ => negb (is_word c)
  | EmptyString => true
  end.

End Re.

(** ** Data model: the dictionaries exchanged between the stages *)

(** Identity of a mutable dictionary (a table or a column). *)
Definition loc := nat.

(** A column dictionary.  Keys the modelled code never touches
    ([default_value], [constraints], [original_definition]) are left out. *)
Module Column.
Record t := mk {
  column_name : string;
  data_type : string;
  original_type : option string;
  is_nullable : option bool;
  is_primary_key : option bool;
  is_unique : option bool
}.

Definition set_data_type (v : string) (c : t) : t :=
  mk (column_name c) v (original_type c) (is_nullable c) (is_primary_key c) (is_unique c).
Definition set_original_type (v : string) (c : t) : t :=
  mk (column_name c) (data_type c) (Some v) (is_nullable c) (is_primary_key c) (is_unique c).
Definition set_is_nullable (v : bool) (c : t) : t :=
  mk (column_name c) (data_type c) (original_type c) (Some v) (is_primary_key c) (is_unique c).
Definition set_is_primary_key (v : bool) (c : t) : t :=
  mk (column_name c) (data_type c) (original_type c) (is_nullable c) (Some v) (is_unique c).
Definition set_is_unique (v : bool) (c : t) : t :=
  mk (column_name c) (data_type c) (original_type c) (is_nullable c) (is_primary_key c) (Some v).
End Column.

(** A constraint dictionary.  For [constraint_name] and [table_name] the code
    distinguishes an absent key ([None]) from a key holding Python's [None]
    ([Some None]); [columns] absent and [columns] empty behave alike. *)
Module Constraint.
Record t := mk {
  constraint_name : option (option string);
  constraint_type : option string;
  table_name : option (option string);
  columns : list string;
  definition : option string;
  check_expression : option string;
  source_table : option string;
  referenced_table : option string;
  referenced_columns : list string;
  on_delete_action : option string;
  on_update_action : option string
}.

Definition set_definition (v : string) (c : t) : t :=
  mk (constraint_name c) (constraint_type c) (table_name c) (columns c) (Some v)
     (check_expression c) (source_table c) (referenced_table c) (referenced_columns c)
     (on_delete_action c) (on_update_action c).
Definition set_source_table (v : string) (c : t) : t :=
  mk (constraint_name c) (constraint_type c) (table_name c) (columns c) (definition c)
     (check_expression c) (Some v) (referenced_table c) (referenced_columns c)
     (on_delete_action c) (on_update_action c).
End Constraint.

(** A table dictionary; [C] is the way its columns are held: by location in
    the transformer stage (which mutates them), by value for readers. *)
Module Table.
Record t (C : Type) := mk {
  table_name : string;
  columns : list C;
  constraints : list Constraint.t
}.
Arguments mk {C} _ _ _.
Arguments table_name {C} _.
Arguments columns {C} _.
Arguments constraints {C} _.

Definition set_constraints {C} (v : list Constraint.t) (T : t C) : t C :=
  mk (table_name T) (columns T) v.
End Table.

(** The store of mutable table and column dictionaries. *)
Module Store.
Record t := mk {
  tbls : gmap loc (Table.t loc);
  cols : gmap loc Column.t
}.

Definition set_tbl (l : loc) (T : Table.t loc) (σ : t) : t := mk (<[l := T]> (tbls σ)) (cols σ).
Definition set_col (l : loc) (c : Column.t) (σ : t) : t := mk (tbls σ) (<[l := c]> (cols σ)).
End Store.

(** Log entries. *)
Module Log.
Record transformation := mk_transformation {
  tr_table : string;
  tr_column : string;
  tr_original_type : string;
  tr_transformed_type : string;
  tr_transformation_reason : string
}.

Record drop_record := mk_drop {
  dr_constraint_name : option string;
  dr_table_name : option string;
  dr_constraint_type : string;
  dr_reason : string;
  dr_metadata : list (string * string);
  dr_action : string
}.

Record modification_record := mk_modification {
  mr_constraint_name : option string;
  mr_table_name : option string;
  mr_modification_type : string;
  mr_description : string;
  mr_action : string
}.

Record warning := mk_warning {
  w_type : string;
  w_message : string
}.
End Log.

(** The top-level schema dictionary.  It is copied ([dict.copy]) by each
    transformer stage before keys are assigned, so it is a value; its
    [tables] entry refers to the shared table dictionaries. *)
Module SchemaDict.
Record t := mk {
  tables : list loc;
  constraints : option (list Constraint.t);
  enums : list string;
  type_transformations : option (list Log.transformation);
  type_warnings : option (list string);
  dropped_constraints : option (list Log.drop_record);
  modified_constraints : option (list Log.modification_record);
  constraint_warnings : option (list Log.warning)
}.
End SchemaDict.

(** ** Type mapper ([src/transformer/type_mapper.py]) *)

Module TypeMapper.
Import PyStr.

(** [dict.get] on a dictionary literal. *)
Fixpoint dict_get (d : list (string * string)) (k : string) : option string :=
  match d with
  | [] => None
  | (k', v) :: d' => if bool_decide (k' = k) then Some v else dict_get d' k
  end.

(** [self.type_map]. *)
Definition type_map : list (string * string) :=
  [ ("integer", "int4"); ("int", "int4"); ("int4", "int4");
    ("bigint", "int8"); ("int8", "int8");
    ("smallint", "int2"); ("int2", "int2");
    ("boolean", "bool"); ("bool", "bool");
    ("text", "text"); ("varchar", "varchar");
    ("char", "bpchar"); ("bpchar", "bpchar");
    ("date", "date"); ("timestamp", "timestamp"); ("timestamptz", "timestamptz");
    ("time", "time"); ("timetz", "timetz"); ("interval", "interval");
    ("json", "json"); ("jsonb", "jsonb"); ("uuid", "uuid");
    ("numeric", "numeric"); ("decimal", "numeric");
    ("real", "float4"); ("float4", "float4"); ("float8", "float8");
    ("float", "float8"); ("double", "float8");
    ("serial", "int4"); ("bigserial", "int8"); ("smallserial", "int2");
    ("inet", "inet"); ("cidr", "cidr"); ("macaddr", "macaddr"); ("macaddr8", "macaddr8");
    ("point", "point"); ("line", "line"); ("lseg", "lseg"); ("box", "box");
    ("path", "path"); ("polygon", "polygon"); ("circle", "circle");
    ("bytea", "bytea"); ("money", "money");
    ("int4range", "int4range"); ("int8range", "int8range"); ("numrange", "numrange");
    ("tsrange", "tsrange"); ("tstzrange", "tstzrange"); ("daterange", "daterange");
    ("tsvector", "tsvector"); ("tsquery", "tsquery"); ("xml", "xml"); ("pg_lsn", "pg_lsn");
    ("bit", "bit"); ("varbit", "varbit");
    ("int4multirange", "text"); ("int8multirange", "text"); ("nummultirange", "text");
    ("tsmultirange", "text"); ("datemultirange", "text");
    ("hstore", "text"); ("ltree", "text"); ("cube", "text"); ("isbn", "text"); ("issn", "text") ].

(** [semantic_loss_types] of [_transform_single_type]. *)
Definition semantic_loss_types : list (string * string) :=
  [ ("int4multirange", "PostgreSQL multirange types not supported in DBML");
    ("int8multirange", "PostgreSQL multirange types not supported in DBML");
    ("nummultirange", "PostgreSQL multirange types not supported in DBML");
    ("tsmultirange", "PostgreSQL multirange types not supported in DBML");
    ("datemultirange", "PostgreSQL multirange types not supported in DBML");
    ("hstore", "PostgreSQL hstore extension type causes semantic loss in DBML");
    ("ltree", "PostgreSQL ltree extension type causes semantic loss in DBML");
    ("cube", "PostgreSQL cube extension type causes semantic loss in DBML");
    ("isbn", "PostgreSQL ISBN extension type causes semantic loss in DBML");
    ("issn", "PostgreSQL ISSN extension type causes semantic loss in DBML") ].

Definition is_ident_start (c : ascii) : bool := is_alpha c || bool_decide (c = "_"%char).
Definition is_ident_char (c : ascii) : bool := is_word c.
Definition not_rparen (c : ascii) : bool := negb (bool_decide (c = ")"%char)).

(** The [re.match] of [_extract_type_components], anchored at the start of
    [s]: group 1 is an identifier (a letter or underscore, then letters,
    digits, underscores), then optional blanks, an opening parenthesis,
    group 2 (one or more characters other than the closing parenthesis) and
    the closing parenthesis.  Each greedy repetition is followed by
    something outside its class, so the longest run is the only candidate. *)
Definition match_type_params (s : string) : option (string * string) :=
  match s with
  | String c r =>
      if is_ident_start c then
        let '(ident, r1) := span is_ident_char r in
        let '(_, r2) := span is_space r1 in
        match r2 with
        | String "("%char r3 =>
            let '(params, r4) := span not_rparen r3 in
            match params, r4 with
            | String _ _, String ")"%char _ => Some (String c ident, params)
            | _, _ => None
            end
        | _ => None
        end
      else None
  | EmptyString => None
  end.

(** [_is_array_type]. *)
Definition _is_array_type (pg_type : string) : bool := contains "[]" pg_type.

(** [_extract_type_components]. *)
Definition _extract_type_components (pg_type : string) : string * option string :=
  let is_array := contains "[]" pg_type in
  let pg_type := if is_array then strip (replace pg_type "[]" EmptyString) else pg_type in
  let '(base_type, params) :=
    match match_type_params pg_type with
    | Some (g1, g2) => (g1, Some g2)
    | None => (strip pg_type, None)
    end in
  let base_type := if is_array then base_type +:+ "[]" else base_type in
  (base_type, params).

(** [_convert_native_array_type]. *)
Definition _convert_native_array_type (pg_type : string) : string :=
  let element_type := strip (replace pg_type "[]" EmptyString) in
  let mapped_element := default element_type (dict_get type_map (lower element_type)) in
  String dq (mapped_element +:+ "[]" +:+ String dq EmptyString).

(** [_handle_array_type]; [decisions] is the decisions dictionary. *)
Definition _handle_array_type (pg_type : string) (decisions : gmap string string)
    (table_name column_name : string) : string * list string :=
  let strategy := default "native" (decisions !! "ARRAY_TYPE") in
  if bool_decide (strategy = "native") then
    (_convert_native_array_type pg_type, [])
  else if bool_decide (strategy = "text_fallback") then
    ("text", ["Array type '" +:+ pg_type +:+ "' flattened to text - array semantics lost"])
  else
    (_convert_native_array_type pg_type, []).

(** [params and dbml_type in ['varchar', 'char', 'numeric', 'decimal']]. *)
Definition keeps_params (dbml_type : string) : bool :=
  bool_decide (dbml_type ∈ ["varchar"; "char"; "numeric"; "decimal"]).

Definition truthy (o : option string) : bool :=
  match o with Some (String _ _) => true | _ => false end.

(** [_transform_single_type]; [enum_types] is the set of lower-cased enum
    names ([None] and the empty set behave alike). *)
Definition _transform_single_type (pg_type : string) (decisions : gmap string string)
    (table_name column_name : string) (enum_types : gset string) : string * list string :=
  let '(base_type, params) := _extract_type_components pg_type in
  if bool_decide (lower base_type ∈ enum_types) then (base_type, [])
  else if _is_array_type pg_type then
    _handle_array_type pg_type decisions table_name column_name
  else
    let '(base_type, params) := _extract_type_components pg_type in
    match dict_get type_map (lower base_type) with
    | Some dbml_type =>
        let dbml_type :=
          if truthy params && keeps_params dbml_type
          then dbml_type +:+ "(" +:+ default EmptyString params +:+ ")"
          else dbml_type in
        let warnings :=
          match dict_get semantic_loss_types (lower base_type) with
          | Some why => ["Type '" +:+ pg_type +:+ "' converted to 'text' - " +:+ why]
          | None => []
          end in
        (dbml_type, warnings)
    | None => ("text", ["Unknown type '" +:+ pg_type +:+ "' converted to 'text'"])
    end.

(** The mapper's accumulating attributes. *)
Record state := mk_state {
  transformations_applied : list Log.transformation;
  warnings_generated : list string
}.

(** [_get_transformation_reason]. *)
Definition _get_transformation_reason (original transformed : string) : string :=
  if contains "[]" original then "Array type syntax incompatibility"
  else if bool_decide (lower original ∈ ["inet"; "cidr"; "macaddr"; "tsvector"; "xml"])
  then "PostgreSQL-specific type not supported in DBML"
  else if contains "with time zone" original || contains "without time zone" original
  then "Multi-word type converted to alias"
  else "DBML compatibility".

(** [_log_transformation]. *)
Definition _log_transformation (table_name column_name original_type transformed_type : string)
    (st : state) : state :=
  mk_state
    (transformations_applied st ++
       [Log.mk_transformation table_name column_name original_type transformed_type
          (_get_transformation_reason original_type transformed_type)])
    (warnings_generated st).

(** Body of the inner loop of [transform_types] for the column at [c]. *)
Definition transform_column (decisions : gmap string string) (enum_types : gset string)
    (table_name : string) (acc : state * Store.t) (c : loc) : state * Store.t :=
  let '(st, σ) := acc in
  match Store.cols σ !! c with
  | None => acc
  | Some column =>
      let original_type := Column.data_type column in
      let '(transformed_type, warnings) :=
        _transform_single_type original_type decisions table_name
          (Column.column_name column) enum_types in
      let column := Column.set_data_type transformed_type column in
      let '(column, st) :=
        if bool_decide (original_type ≠ transformed_type)
        then (Column.set_original_type original_type column,
              _log_transformation table_name (Column.column_name column)
                original_type transformed_type st)
        else (column, st) in
      (mk_state (transformations_applied st) (warnings_generated st ++ warnings),
       Store.set_col c column σ)
  end.

(** Body of the outer loop of [transform_types] for the table at [t]. *)
Definition transform_table (decisions : gmap string string) (enum_types : gset string)
    (acc : state * Store.t) (t : loc) : state * Store.t :=
  match Store.tbls acc.2 !! t with
  | None => acc
  | Some table =>
      foldl (transform_column decisions enum_types (Table.table_name table)) acc
        (Table.columns table)
  end.

(** [transform_types]: returns the new top-level dictionary; the tables
    and columns are updated in the store. *)
Definition transform_types (schema : SchemaDict.t) (decisions : option (gmap string string))
    (st : state) (σ : Store.t) : SchemaDict.t * state * Store.t :=
  let decisions := default {[ "ARRAY_TYPE" := "native" ]} decisions in
  let enum_types : gset string := list_to_set (lower <$> SchemaDict.enums schema) in
  let transformed_schema := schema in
  let '(st, σ) :=
    foldl (transform_table decisions enum_types) (st, σ) (SchemaDict.tables transformed_schema) in
  let transformed_schema :=
    SchemaDict.mk (SchemaDict.tables transformed_schema)
      (SchemaDict.constraints transformed_schema)
      (SchemaDict.enums transformed_schema)
      (Some (transformations_applied st))
      (Some (warnings_generated st))
      (SchemaDict.dropped_constraints transformed_schema)
      (SchemaDict.modified_constraints transformed_schema)
      (SchemaDict.constraint_warnings transformed_schema) in
  (transformed_schema, st, σ).

End TypeMapper.

(** ** Constraint handler ([src/transformer/constraint_handler.py]) *)

Module ConstraintHandler.
Import PyStr.

(** The handler's accumulating attributes. *)
Record state := mk_state {
  dropped_constraints : list Log.drop_record;
  modified_constraints : list Log.modification_record;
  warnings_generated : list Log.warning
}.

(** [__init__]. *)
Definition init : state := mk_state [] [] [].

(** [_generate_warning]. *)
Definition _generate_warning (message : string) (h : state) : state :=
  mk_state (dropped_constraints h) (modified_constraints h)
    (warnings_generated h ++ [Log.mk_warning "CONSTRAINT_WARNING" message]).

(** [_log_constraint_drop]. *)
Definition _log_constraint_drop (constraint_name table_name : option string)
    (constraint_type reason : string) (metadata : list (string * string)) (h : state) : state :=
  let drop_record :=
    Log.mk_drop constraint_name table_name constraint_type reason metadata "DROPPED" in
  let h := mk_state (dropped_constraints h ++ [drop_record]) (modified_constraints h)
             (warnings_generated h) in
  _generate_warning
    ("Dropped " +:+ constraint_type +:+ " constraint '" +:+ fmt constraint_name +:+
     "' on table '" +:+ fmt table_name +:+ "': " +:+ reason) h.

(** [_log_constraint_modification]. *)
Definition _log_constraint_modification (constraint_name table_name : option string)
    (modification_type description : string) (h : state) : state :=
  let modification_record :=
    Log.mk_modification constraint_name table_name modification_type description "MODIFIED" in
  let h := mk_state (dropped_constraints h) (modified_constraints h ++ [modification_record])
             (warnings_generated h) in
  _generate_warning
    ("Modified constraint '" +:+ fmt constraint_name +:+ "' on table '" +:+
     fmt table_name +:+ "': " +:+ description) h.

(** [constraint.get('constraint_name', 'unnamed')]. *)
Definition get_constraint_name (constraint : Constraint.t) : option string :=
  default (Some "unnamed") (Constraint.constraint_name constraint).

(** [constraint.get('definition', '')]. *)
Definition get_definition (constraint : Constraint.t) : string :=
  default EmptyString (Constraint.definition constraint).

(** The pattern of [_remove_deferrable_from_definition], case-insensitive:
    one or more blanks, DEFERRABLE, optionally (blanks, INITIALLY, blanks,
    DEFERRED or IMMEDIATE), then any blanks.  The replacement is one blank. *)
Definition initially_clause (s : string) : option string :=
  let '(ws1, r1) := span is_space s in
  if is_empty ws1 then None else
  match strip_prefix_ci "initially" r1 with
  | None => None
  | Some r2 =>
      let '(ws2, r3) := span is_space r2 in
      if is_empty ws2 then None else
      match strip_prefix_ci "deferred" r3 with
      | Some r4 => Some r4
      | None => strip_prefix_ci "immediate" r3
      end
  end.

Definition deferrable_matcher : Re.matcher string := λ _ s,
  let '(ws, r1) := span is_space s in
  if is_empty ws then None else
  match strip_prefix_ci "deferrable" r1 with
  | None => None
  | Some r2 =>
      let r3 := default r2 (initially_clause r2) in
      Some (" ", (span is_space r3).2)
  end.

(** [_remove_deferrable_from_definition]. *)
Definition _remove_deferrable_from_definition (definition : string) : string :=
  strip (Re.sub deferrable_matcher definition).

(** [_process_foreign_key_constraint]. *)
Definition _process_foreign_key_constraint (constraint : Constraint.t)
    (table_name : option string) (h : state) : Constraint.t * state :=
  let definition := get_definition constraint in
  let constraint_name := get_constraint_name constraint in
  let '(constraint, h) :=
    if contains "DEFERRABLE" (upper definition) then
      let h := _log_constraint_modification constraint_name table_name
                 "FOREIGN_KEY_DEFERRABLE"
                 "Removed DEFERRABLE option - not supported in DBML" h in
      (Constraint.set_definition (_remove_deferrable_from_definition definition) constraint, h)
    else (constraint, h) in
  let source_columns := Constraint.columns constraint in
  let h :=
    if bool_decide (1 < length source_columns) then
      _generate_warning
        ("Composite foreign key '" +:+ fmt constraint_name +:+ "' on table '" +:+
         fmt table_name +:+ "' - " +:+
         "verify import compatibility (known parser issues exist)") h
    else h in
  (constraint, h).

(** [_drop_check_constraint]. *)
Definition _drop_check_constraint (constraint : Constraint.t) (table_name : option string)
    (h : state) : option Constraint.t * state :=
  let constraint_name := get_constraint_name constraint in
  let check_expression :=
    default (get_definition constraint) (Constraint.check_expression constraint) in
  (None,
   _log_constraint_drop constraint_name table_name "CHECK"
     "CHECK constraints not supported in DBML (parser errors)"
     [ ("check_expression", check_expression);
       ("impact", "Business logic validation lost");
       ("workaround", "Implement validation in application layer");
       ("reference", "Incompatibility Analysis Line 38") ] h).

(** [_drop_unknown_constraint]. *)
Definition _drop_unknown_constraint (constraint : Constraint.t) (table_name : option string)
    (h : state) : option Constraint.t * state :=
  let constraint_name := get_constraint_name constraint in
  let definition := get_definition constraint in
  let definition_upper := upper definition in
  let '(constraint_type, reason, impact) :=
    if startswith definition_upper "EXCLUDE"
    then ("EXCLUDE", "EXCLUDE constraints not supported in DBML",
          "Spatial/range exclusion logic completely lost")
    else ("UNKNOWN", "Unknown constraint type not supported in DBML",
          "Constraint logic lost") in
  (None,
   _log_constraint_drop constraint_name table_name constraint_type reason
     [ ("definition", definition);
       ("impact", impact);
       ("workaround", "Implement logic in application layer") ] h).

(** [_process_single_constraint]: [None] when the constraint is dropped. *)
Definition _process_single_constraint (constraint : Constraint.t) (table_name : option string)
    (h : state) : option Constraint.t * state :=
  let constraint_type := Constraint.constraint_type constraint in
  if bool_decide (constraint_type = Some "p") then (Some constraint, h)
  else if bool_decide (constraint_type = Some "u") then (Some constraint, h)
  else if bool_decide (constraint_type = Some "f") then
    let '(c, h) := _process_foreign_key_constraint constraint table_name h in (Some c, h)
  else if bool_decide (constraint_type = Some "c") then
    _drop_check_constraint constraint table_name h
  else _drop_unknown_constraint constraint table_name h.

(** [_process_table_constraints]. *)
Fixpoint _process_table_constraints (constraints : list Constraint.t) (table_name : string)
    (h : state) : list Constraint.t * state :=
  match constraints with
  | [] => ([], h)
  | constraint :: rest =>
      let '(result, h) := _process_single_constraint constraint (Some table_name) h in
      let '(processed, h) := _process_table_constraints rest table_name h in
      (match result with Some c => c :: processed | None => processed end, h)
  end.

(** [_process_standalone_constraints]. *)
Fixpoint _process_standalone_constraints (constraints : list Constraint.t)
    (h : state) : list Constraint.t * state :=
  match constraints with
  | [] => ([], h)
  | constraint :: rest =>
      let table_name := default (Some "unknown") (Constraint.table_name constraint) in
      let '(result, h) := _process_single_constraint constraint table_name h in
      let '(processed, h) := _process_standalone_constraints rest h in
      (match result with Some c => c :: processed | None => processed end, h)
  end.

(** [_mark_columns_as_primary_key] and [_mark_columns_as_unique]: the
    update of one column dictionary. *)
Definition mark_primary_key (column_names : list string) (σ : Store.t) (c : loc) : Store.t :=
  match Store.cols σ !! c with
  | None => σ
  | Some column =>
      if bool_decide (Column.column_name column ∈ column_names) then
        let column := Column.set_is_primary_key true column in
        let column := Column.set_is_nullable false column in
        let column :=
          if bool_decide (length column_names = 1)
          then Column.set_is_unique true column else column in
        Store.set_col c column σ
      else σ
  end.

Definition mark_unique (column_names : list string) (σ : Store.t) (c : loc) : Store.t :=
  match Store.cols σ !! c with
  | None => σ
  | Some column =>
      if bool_decide (Column.column_name column ∈ column_names)
         && bool_decide (length column_names = 1)
      then Store.set_col c (Column.set_is_unique true column) σ
      else σ
  end.

(** The loop over the tables of the schema shared by the two markers. *)
Definition mark_columns (mark : list string → Store.t → loc → Store.t)
    (tables : list loc) (table_name : option string) (column_names : list string)
    (σ : Store.t) : Store.t :=
  foldl (λ σ t,
           match Store.tbls σ !! t with
           | None => σ
           | Some table =>
               if bool_decide (Some (Table.table_name table) = table_name)
               then foldl (mark column_names) σ (Table.columns table)
               else σ
           end) σ tables.

Definition _mark_columns_as_primary_key := mark_columns mark_primary_key.
Definition _mark_columns_as_unique := mark_columns mark_unique.

(** [constraint.get('table_name') or constraint.get('source_table')]. *)
Definition resolved_table_name (constraint : Constraint.t) : option string :=
  match Constraint.table_name constraint with
  | Some (Some (String a r)) => Some (String a r)
  | _ => Constraint.source_table constraint
  end.

(** First loop of [_apply_constraints_to_columns] for the table at [t]:
    every constraint of the table gets its [source_table] key and is
    collected. *)
Definition tag_table_constraints (acc : list Constraint.t * Store.t) (t : loc)
    : list Constraint.t * Store.t :=
  let '(all_constraints, σ) := acc in
  match Store.tbls σ !! t with
  | None => acc
  | Some table =>
      let tagged := Constraint.set_source_table (Table.table_name table)
                      <$> Table.constraints table in
      (all_constraints ++ tagged, Store.set_tbl t (Table.set_constraints tagged table) σ)
  end.

(** Second loop of [_apply_constraints_to_columns] for one constraint. *)
Definition apply_constraint (tables : list loc) (σ : Store.t) (constraint : Constraint.t)
    : Store.t :=
  let constraint_type := Constraint.constraint_type constraint in
  let table_name := resolved_table_name constraint in
  let columns := Constraint.columns constraint in
  if bool_decide (constraint_type = Some "p") && negb (bool_decide (columns = [])) then
    _mark_columns_as_primary_key tables table_name columns σ
  else if bool_decide (constraint_type = Some "u") && negb (bool_decide (columns = [])) then
    _mark_columns_as_unique tables table_name columns σ
  else σ.

(** [_apply_constraints_to_columns]. *)
Definition _apply_constraints_to_columns (schema : SchemaDict.t) (σ : Store.t) : Store.t :=
  let '(all_constraints, σ) :=
    foldl tag_table_constraints ([], σ) (SchemaDict.tables schema) in
  let standalone_constraints := default [] (SchemaDict.constraints schema) in
  let all_constraints := all_constraints ++ standalone_constraints in
  foldl (apply_constraint (SchemaDict.tables schema)) σ all_constraints.

(** First loop of [process_constraints] for the table at [t]. *)
Definition process_table (acc : state * Store.t) (t : loc) : state * Store.t :=
  let '(h, σ) := acc in
  match Store.tbls σ !! t with
  | None => acc
  | Some table =>
      let '(processed, h) :=
        _process_table_constraints (Table.constraints table) (Table.table_name table) h in
      (h, Store.set_tbl t (Table.set_constraints processed table) σ)
  end.

(** [process_constraints]. *)
Definition process_constraints (schema : SchemaDict.t) (h : state) (σ : Store.t)
    : SchemaDict.t * state * Store.t :=
  let processed_schema := schema in
  let '(h, σ) := foldl process_table (h, σ) (SchemaDict.tables processed_schema) in
  let '(standalone, h) :=
    match SchemaDict.constraints processed_schema with
    | Some constraints =>
        let '(processed, h) := _process_standalone_constraints constraints h in
        (Some processed, h)
    | None => (None, h)
    end in
  let processed_schema :=
    SchemaDict.mk (SchemaDict.tables processed_schema) standalone
      (SchemaDict.enums processed_schema)
      (SchemaDict.type_transformations processed_schema)
      (SchemaDict.type_warnings processed_schema)
      (SchemaDict.dropped_constraints processed_schema)
      (SchemaDict.modified_constraints processed_schema)
      (SchemaDict.constraint_warnings processed_schema) in
  let σ := _apply_constraints_to_columns processed_schema σ in
  let processed_schema :=
    SchemaDict.mk (SchemaDict.tables processed_schema)
      (SchemaDict.constraints processed_schema)
      (SchemaDict.enums processed_schema)
      (SchemaDict.type_transformations processed_schema)
      (SchemaDict.type_warnings processed_schema)
      (Some (dropped_constraints h))
      (Some (modified_constraints h))
      (Some (warnings_generated h)) in
  (processed_schema, h, σ).

End ConstraintHandler.

(** ** Relationship builder ([src/generator/relationship_builder.py]) *)

Module RelationshipBuilder.
Import PyStr.

(** A candidate relationship, as registered by the parser. *)
Record relationship := mk_relationship {
  source_table : string;
  source_columns : list string;
  target_table : string;
  target_columns : list string;
  constraint_name : option string;
  on_delete_action : option string;
  on_update_action : option string
}.

(** A built relationship. *)
Record built := mk_built {
  b_source_table : string;
  b_source_columns : list string;
  b_target_table : string;
  b_target_columns : list string;
  b_relationship_type : string;
  b_constraint_name : option string;
  b_on_delete_action : option string;
  b_on_update_action : option string;
  b_is_composite : bool;
  b_is_self_referencing : bool
}.

Record skip_record := mk_skip {
  sk_relationship : relationship;
  sk_reason : string;
  sk_skip_type : string;
  sk_source_table : string;
  sk_target_table : string
}.

(** The builder's attributes. *)
Record state := mk_state {
  built_relationships : list built;
  skipped_relationships : list skip_record;
  relationship_warnings : list Log.warning
}.

(** An entry of the table lookup. *)
Record table_info := mk_info {
  table : Table.t Column.t;
  columns : gmap string Column.t
}.

(** [_create_table_lookup]: later tables (columns) of the same name replace
    earlier ones. *)
Definition column_dict (cols : list Column.t) : gmap string Column.t :=
  foldl (λ d col, <[Column.column_name col := col]> d) ∅ cols.

Definition _create_table_lookup (tables : list (Table.t Column.t)) : gmap string table_info :=
  foldl (λ lookup t,
           <[Table.table_name t := mk_info t (column_dict (Table.columns t))]> lookup)
        ∅ tables.

(** [_generate_warning]. *)
Definition _generate_warning (message : string) (st : state) : state :=
  mk_state (built_relationships st) (skipped_relationships st)
    (relationship_warnings st ++ [Log.mk_warning "RELATIONSHIP_WARNING" message]).

(** [_skip_relationship]. *)
Definition _skip_relationship (r : relationship) (reason skip_type : string) (st : state)
    : state :=
  let skip_record := mk_skip r reason skip_type (source_table r) (target_table r) in
  let st := mk_state (built_relationships st) (skipped_relationships st ++ [skip_record])
              (relationship_warnings st) in
  _generate_warning
    ("Skipped relationship " +:+ source_table r +:+ " -> " +:+ target_table r +:+
     ": " +:+ reason) st.

(** [set(constraint.get('columns', []))] and friends. *)
Definition column_set (cols : list string) : gset string := list_to_set cols.

(** [_columns_are_unique]. *)
Definition _columns_are_unique (cols : list string) (info : table_info) : bool :=
  let tbl := table info in
  let pk_columns : gset string :=
    foldl (λ acc c,
             if bool_decide (Constraint.constraint_type c = Some "p")
             then acc ∪ column_set (Constraint.columns c) else acc)
          ∅ (Table.constraints tbl) in
  if bool_decide (column_set cols = pk_columns) then true
  else if existsb (λ c, bool_decide (Constraint.constraint_type c = Some "u")
                        && bool_decide (column_set cols = column_set (Constraint.columns c)))
                  (Table.constraints tbl) then true
  else match cols with
       | [column_name] =>
           match columns info !! column_name with
           | Some column_info =>
               bool_decide (Column.is_unique column_info = Some true)
               || bool_decide (Column.is_primary_key column_info = Some true)
           | None => false
           end
       | _ => false
       end.

(** [_determine_relationship_type]. *)
Definition _determine_relationship_type (r : relationship)
    (source_table_info target_table_info : table_info) (st : state) : string * state :=
  let source_is_unique := _columns_are_unique (source_columns r) source_table_info in
  let target_is_unique := _columns_are_unique (target_columns r) target_table_info in
  if source_is_unique && target_is_unique then ("one-to-one", st)
  else if target_is_unique then ("many-to-one", st)
  else
    ("many-to-one",
     _generate_warning
       ("Relationship " +:+ source_table r +:+ " -> " +:+ target_table r +:+ " " +:+
        "references non-unique columns - unusual foreign key") st).

(** [repr] of a list of names (names without quotes, backslashes or
    control characters). *)
Definition repr_str (s : string) : string := "'" +:+ s +:+ "'".
Fixpoint join (sep : string) (l : list string) : string :=
  match l with
  | [] => EmptyString
  | [x] => x
  | x :: l' => x +:+ sep +:+ join sep l'
  end.
Definition repr_list (l : list string) : string := "[" +:+ join ", " (repr_str <$> l) +:+ "]".

(** [_build_single_relationship]: [None] when the candidate is skipped. *)
Definition _build_single_relationship (r : relationship)
    (table_lookup : gmap string table_info) (st : state) : option built * state :=
  match table_lookup !! source_table r with
  | None =>
      (None, _skip_relationship r
               ("Source table '" +:+ source_table r +:+ "' not found in schema")
               "MISSING_SOURCE_TABLE" st)
  | Some source_table_info =>
  match table_lookup !! target_table r with
  | None =>
      (None, _skip_relationship r
               ("Target table '" +:+ target_table r +:+ "' not found in schema")
               "MISSING_TARGET_TABLE" st)
  | Some target_table_info =>
      let missing_source_columns :=
        filter (λ col, columns source_table_info !! col = None) (source_columns r) in
      let missing_target_columns :=
        filter (λ col, columns target_table_info !! col = None) (target_columns r) in
      if negb (bool_decide (missing_source_columns = [])) then
        (None, _skip_relationship r
                 ("Source columns not found: " +:+ repr_list missing_source_columns)
                 "MISSING_SOURCE_COLUMNS" st)
      else if negb (bool_decide (missing_target_columns = [])) then
        (None, _skip_relationship r
                 ("Target columns not found: " +:+ repr_list missing_target_columns)
                 "MISSING_TARGET_COLUMNS" st)
      else if negb (bool_decide (length (source_columns r) = length (target_columns r))) then
        (None, _skip_relationship r
                 ("Column count mismatch: " +:+ pretty (length (source_columns r)) +:+
                  " source, " +:+ pretty (length (target_columns r)) +:+ " target")
                 "COLUMN_COUNT_MISMATCH" st)
      else
        let '(rel_type, st) :=
          _determine_relationship_type r source_table_info target_table_info st in
        let built_rel :=
          mk_built (source_table r) (source_columns r) (target_table r) (target_columns r)
            rel_type (constraint_name r) (on_delete_action r) (on_update_action r)
            (bool_decide (1 < length (source_columns r)))
            (bool_decide (source_table r = target_table r)) in
        let st :=
          if b_is_composite built_rel then
            _generate_warning
              ("Composite relationship " +:+ source_table r +:+ " -> " +:+ target_table r +:+
               " may cause parser issues") st
          else st in
        let st :=
          if b_is_self_referencing built_rel then
            _generate_warning
              ("Self-referencing relationship on " +:+ source_table r +:+
               " - verify diagram clarity") st
          else st in
        (Some built_rel, st)
  end
  end.

(** [_create_relationship_signature]. *)
Definition signature : Type := string * list string * string * list string.
Definition _create_relationship_signature (b : built) : signature :=
  (b_source_table b, b_source_columns b, b_target_table b, b_target_columns b).

(** Loop of [_deduplicate_relationships]. *)
Fixpoint dedup_go (rels : list built) (seen : gset signature) (deduplicated : list built)
    (st : state) : list built * state :=
  match rels with
  | [] => (deduplicated, st)
  | rel :: rest =>
      let sig := _create_relationship_signature rel in
      if bool_decide (sig ∉ seen)
      then dedup_go rest ({[sig]} ∪ seen) (deduplicated ++ [rel]) st
      else dedup_go rest seen deduplicated
             (_generate_warning
                ("Duplicate relationship " +:+ b_source_table rel +:+ " -> " +:+
                 b_target_table rel +:+ " removed") st)
  end.

(** [_deduplicate_relationships]. *)
Definition _deduplicate_relationships (st : state) : state :=
  let '(deduplicated, st) := dedup_go (built_relationships st) ∅ [] st in
  mk_state deduplicated (skipped_relationships st) (relationship_warnings st).

(** Loop of [build_relationships]. *)
Definition build_step (table_lookup : gmap string table_info) (st : state) (r : relationship)
    : state :=
  let '(built_rel, st) := _build_single_relationship r table_lookup st in
  match built_rel with
  | Some b => mk_state (built_relationships st ++ [b]) (skipped_relationships st)
                (relationship_warnings st)
  | None => st
  end.

(** [build_relationships]: the returned list and the builder afterwards. *)
Definition build_relationships (relationships : list relationship)
    (tables : list (Table.t Column.t)) (st : state) : list built * state :=
  let st := mk_state [] [] [] in
  let table_lookup := _create_table_lookup tables in
  let st := foldl (build_step table_lookup) st relationships in
  let st := _deduplicate_relationships st in
  (built_relationships st, st).

End RelationshipBuilder.

(** ** Preprocessor ([src/preprocessor/sql_cleaner.py]) *)

Module SQLCleaner.
Import PyStr.

Record removal := mk_removal {
  rm_line_number : nat;
  rm_statement_type : string;
  rm_content : string;
  rm_reason : string
}.

(** The cleaner's attributes. *)
Record state := mk_state {
  removed_statements : list removal;
  line_mapping : gmap nat nat
}.

(** [_should_remove_line]. *)
Definition _should_remove_line (line : string) : bool :=
  let line_stripped := strip line in
  if is_empty line_stripped || startswith line_stripped "--" then false
  else if startswith line_stripped "\" then true
  else if startswith (upper line_stripped) "SET " then true
  else if startswith (upper line_stripped) "SELECT " then true
  else if startswith (upper line_stripped) "COMMENT ON " then true
  else if startswith (upper line_stripped) "COPY " || bool_decide (line_stripped = "\.")
  then true
  else if startswith (upper line_stripped) "GRANT "
          || startswith (upper line_stripped) "REVOKE " then true
  else if contains "OWNER TO" (upper line_stripped) then true
  else if contains "OWNED BY" (upper line_stripped) then true
  else if startswith (upper line_stripped) "ALTER TABLE ONLY "
          && contains "SET DEFAULT" (upper line_stripped) then true
  else false.

(** The negative-default pattern, case-insensitive: DEFAULT, one or more
    blanks, then group 1: a minus sign and one or more digits.  The
    replacement is [DEFAULT '<group 1>']. *)
Definition negative_default_matcher : Re.matcher string := λ _ s,
  match strip_prefix_ci "default" s with
  | None => None
  | Some r1 =>
      let '(ws, r2) := span is_space r1 in
      if is_empty ws then None else
      match r2 with
      | String "-"%char r3 =>
          let '(digits, r4) := span is_digit r3 in
          if is_empty digits then None
          else Some ("DEFAULT '-" +:+ digits +:+ "'", r4)
      | _ => None
      end
  end.

(** [type_replacements], in insertion order. *)
Definition type_replacements : list (string * string) :=
  [ ("timestamp with time zone", "timestamptz");
    ("timestamp without time zone", "timestamp");
    ("time with time zone", "timetz");
    ("time without time zone", "time");
    ("double precision", "float8");
    ("character varying", "varchar") ].

(** A literal between two word boundaries, case-insensitive. *)
Definition word_matcher (old_type new_type : string) : Re.matcher string := λ prev s,
  if Re.at_word_start prev then
    match strip_prefix_ci old_type s with
    | Some rest => if Re.at_word_end rest then Some (new_type, rest) else None
    | None => None
    end
  else None.

(** The array pattern: a word boundary, group 1: one or more word
    characters, then the two brackets.  The replacement is group 1, a
    blank and the brackets, inside double quotes. *)
Definition array_matcher : Re.matcher string := λ prev s,
  if Re.at_word_start prev then
    let '(word, r1) := span is_word s in
    if is_empty word then None else
    match strip_prefix "[]" r1 with
    | Some r2 => Some (String dq (word +:+ " []" +:+ String dq EmptyString), r2)
    | None => None
    end
  else None.

(** [_clean_line]. *)
Definition _clean_line (line : string) (line_number : nat) : string :=
  let cleaned := line in
  let cleaned := Re.sub negative_default_matcher cleaned in
  let cleaned :=
    if contains "gen_random_uuid()" cleaned
    then replace cleaned "gen_random_uuid()" "`uuid_generate_v4()`"
    else cleaned in
  let cleaned :=
    foldl (λ cleaned '(old_type, new_type), Re.sub (word_matcher old_type new_type) cleaned)
      cleaned type_replacements in
  let cleaned := Re.sub array_matcher cleaned in
  cleaned.

(** Text after the first occurrence of [pat] in [s]. *)
Fixpoint find_after (pat s : string) : option string :=
  match strip_prefix pat s with
  | Some rest => Some rest
  | None =>
      match s with
      | EmptyString => None
      | String _ r => find_after pat r
      end
  end.

(** Dollar-quoted text: two dollar signs, as little as possible of
    anything (line breaks included), two dollar signs. *)
Definition dollar_matcher : Re.matcher string := λ _ s,
  match strip_prefix "$$" s with
  | Some r =>
      match find_after "$$" r with
      | Some rest => Some (EmptyString, rest)
      | None => None
      end
  | None => None
  end.

Definition not_semicolon (c : ascii) : bool := negb (bool_decide (c = ";"%char)).
Definition not_rparen (c : ascii) : bool := negb (bool_decide (c = ")"%char)).

(** One or more blanks. *)
Definition blanks1 (s : string) : option string :=
  let '(ws, r) := span is_space s in
  if is_empty ws then None else Some r.

(** CREATE, blanks, optionally (OR, blanks, REPLACE, blanks), FUNCTION or
    PROCEDURE, blanks, then as little as possible up to a semicolon;
    case-insensitive, line breaks included. *)
Definition or_replace_clause (s : string) : option string :=
  r1 ← strip_prefix_ci "or" s;
  r2 ← blanks1 r1;
  r3 ← strip_prefix_ci "replace" r2;
  blanks1 r3.

Definition function_matcher : Re.matcher string := λ _ s,
  r1 ← strip_prefix_ci "create" s;
  r2 ← blanks1 r1;
  let r3 := default r2 (or_replace_clause r2) in
  r4 ← match strip_prefix_ci "function" r3 with
       | Some r => Some r
       | None => strip_prefix_ci "procedure" r3
       end;
  r5 ← blanks1 r4;
  match (span not_semicolon r5).2 with
  | String _ rest => Some (EmptyString, rest)
  | EmptyString => None
  end.

(** CHECK, optional blanks, an opening parenthesis, a stretch without
    closing parenthesis that contains a further opening parenthesis, a
    closing parenthesis, a stretch without closing parenthesis, a closing
    parenthesis; case-insensitive. *)
Definition check_matcher : Re.matcher string := λ _ s,
  r1 ← strip_prefix_ci "check" s;
  match (span is_space r1).2 with
  | String "("%char r2 =>
      let '(inner, r3) := span not_rparen r2 in
      if contains "(" inner then
        match r3 with
        | String _ r4 =>
            match (span not_rparen r4).2 with
            | String _ rest => Some (EmptyString, rest)
            | EmptyString => None
            end
        | EmptyString => None
        end
      else None
  | _ => None
  end.

(** [_remove_multiline_statements]. *)
Definition _remove_multiline_statements (content : string) : string :=
  let content := Re.sub dollar_matcher content in
  let content := Re.sub function_matcher content in
  let content := Re.sub check_matcher content in
  content.

(** [_identify_statement_type]. *)
Definition _identify_statement_type (line : string) : string :=
  let line_stripped := strip line in
  let line_upper := upper line_stripped in
  if startswith line_stripped "\" then "PSQL_COMMAND"
  else if startswith line_upper "SET " then "SET"
  else if startswith line_upper "SELECT " then "SELECT"
  else if startswith line_upper "COMMENT ON " then "COMMENT"
  else if startswith line_upper "COPY " || bool_decide (line_stripped = "\.") then "COPY"
  else if startswith line_upper "GRANT " || startswith line_upper "REVOKE " then "PERMISSION"
  else if contains "OWNER TO" line_upper then "OWNERSHIP"
  else if contains "OWNED BY" line_upper then "SEQUENCE_OWNERSHIP"
  else if startswith line_upper "ALTER TABLE ONLY " && contains "SET DEFAULT" line_upper
  then "COLUMN_DEFAULT"
  else "UNKNOWN".

(** [_get_removal_reason]. *)
Definition _get_removal_reason (statement_type : string) : string :=
  default "Unknown incompatibility"
    (TypeMapper.dict_get
       [ ("PSQL_COMMAND", "PostgreSQL client commands not supported in DBML");
         ("SET", "Configuration statements not supported in DBML");
         ("SELECT", "Query statements not supported in DBML");
         ("COMMENT", "Comment statements cause parser errors");
         ("COPY", "Data import statements not supported");
         ("PERMISSION", "Permission statements not represented in DBML");
         ("OWNERSHIP", "Ownership statements not represented in DBML");
         ("SEQUENCE_OWNERSHIP", "Sequence ownership not represented in DBML");
         ("COLUMN_DEFAULT", "Column defaults handled in CREATE TABLE");
         ("UNKNOWN", "Statement incompatible with DBML parser") ]
       statement_type).

(** [_log_removal]. *)
Definition _log_removal (line : string) (line_number : nat) (st : state) : state :=
  let statement_type := _identify_statement_type line in
  mk_state
    (removed_statements st ++
       [mk_removal line_number statement_type (take 100 (strip line))
          (_get_removal_reason statement_type)])
    (line_mapping st).

(** [s.split('\n')] and ['\n'.join(lines)]. *)
Definition nl : ascii := "010"%char.

Fixpoint split_lines (s : string) : list string :=
  match s with
  | EmptyString => [EmptyString]
  | String c r =>
      if bool_decide (c = nl) then EmptyString :: split_lines r
      else match split_lines r with
           | l :: ls => String c l :: ls
           | [] => [String c EmptyString]
           end
  end.

Fixpoint join_lines (lines : list string) : string :=
  match lines with
  | [] => EmptyString
  | [l] => l
  | l :: ls => l +:+ String nl (join_lines ls)
  end.

(** Loop of [clean_dump]; [i] is the index of [line] in the input. *)
Fixpoint clean_lines (lines : list string) (i : nat) (cleaned_lines : list string)
    (st : state) : list string * state :=
  match lines with
  | [] => (cleaned_lines, st)
  | line :: rest =>
      let original_line := i + 1 in
      if negb (_should_remove_line line) then
        let st := mk_state (removed_statements st)
                    (<[length cleaned_lines + 1 := original_line]> (line_mapping st)) in
        clean_lines rest (S i) (cleaned_lines ++ [_clean_line line original_line]) st
      else
        clean_lines rest (S i) cleaned_lines (_log_removal line original_line st)
  end.

(** [clean_dump]. *)
Definition clean_dump (sql_content : string) (st : state) : string * state :=
  let lines := split_lines sql_content in
  let '(cleaned_lines, st) := clean_lines lines 0 [] st in
  let cleaned_content := join_lines cleaned_lines in
  let cleaned_content := _remove_multiline_statements cleaned_content in
  (cleaned_content, st).

End SQLCleaner.

(** ** Structural parser: statement dispatch and error isolation
    ([src/parser/sql_parser.py]) *)

Module SQLParser.
Import PyStr.

(** Outcome of a call that may raise; the exception is kept as its
    [str(e)]. *)
Inductive result (A : Type) : Type :=
| Ok (a : A)
| Raise (e : string).
Arguments Ok {A} _.
Arguments Raise {A} _.

(** An entry of [parsing_errors]. *)
Record error_record := mk_error {
  error : string;
  statement : option string;
  context : string
}.

Definition not_semicolon (c : ascii) : bool := negb (bool_decide (c = ";"%char)).

(** The pattern of [_extract_create_table_statements], case-insensitive,
    line breaks included: CREATE, blanks, TABLE, blanks, one or more
    characters other than the semicolon, a semicolon.  The blanks after
    TABLE may give back their last character to the following class, so
    what is needed after TABLE is one blank, one more character that is not
    a semicolon, and a semicolon further on.  The value is the matched
    text. *)
Definition create_table_matcher : Re.matcher string := λ _ s,
  r1 ← strip_prefix_ci "create" s;
  let '(ws1, r2) := span is_space r1 in
  if is_empty ws1 then None else
  r3 ← strip_prefix_ci "table" r2;
  match r3 with
  | String w r4 =>
      if is_space w then
        let '(body, r5) := span not_semicolon r4 in
        match body, r5 with
        | String _ _, String _ rest => Some (take (Re.consumed s rest) s, rest)
        | _, _ => None
        end
      else None
  | EmptyString => None
  end.

Section Parser.
(** The tokenizer's statement objects with their text, the element types
    of the six result lists, the tokenizer and the five statement
    parsers.  The parsers work on the result lists and may raise after
    having changed them. *)
Variables statement_obj table_info relationship constraint_info
          index_info sequence_info enum_info : Type.
Variable str : statement_obj → string.

Record accumulators := mk_acc {
  tables : list table_info;
  relationships : list relationship;
  constraints : list constraint_info;
  indexes : list index_info;
  sequences : list sequence_info;
  enums : list enum_info
}.

(** The parser's attributes. *)
Record state := mk_state {
  acc : accumulators;
  parsing_errors : list error_record
}.

(** The dictionary returned by [parse_sql_dump]. *)
Record result_dict := mk_dict {
  d_tables : list table_info;
  d_relationships : list relationship;
  d_constraints : list constraint_info;
  d_indexes : list index_info;
  d_sequences : list sequence_info;
  d_enums : list enum_info;
  d_parsing_errors : list error_record
}.

Definition parser_fn : Type := statement_obj → accumulators → result unit * accumulators.

Variable sqlparse_parse : string → result (list statement_obj).
Variables _parse_create_table _parse_alter_table _parse_create_index
          _parse_create_sequence _parse_create_enum : parser_fn.

(** Computations over the parser's attributes that may raise. *)
Definition M (A : Type) : Type := state → result A * state.

Definition ret {A} (a : A) : M A := λ st, (Ok a, st).

Definition bind {A B} (m : M A) (k : A → M B) : M B := λ st,
  match m st with
  | (Ok a, st') => k a st'
  | (Raise e, st') => (Raise e, st')
  end.

(** [try: body except Exception as e: handler(e)]. *)
Definition try_except (body : M unit) (handler : string → M unit) : M unit := λ st,
  match body st with
  | (Ok a, st') => (Ok a, st')
  | (Raise e, st') => handler e st'
  end.

Definition lift {A} (r : result A) : M A := λ st, (r, st).

Definition call (f : accumulators → result unit * accumulators) : M unit := λ st,
  let '(r, a) := f (acc st) in (r, mk_state a (parsing_errors st)).

(** [self.parsing_errors.append(record)]. *)
Definition record_error (r : error_record) : M unit := λ st,
  (Ok tt, mk_state (acc st) (parsing_errors st ++ [r])).

(** [for x in l: body(x)]. *)
Fixpoint for_each {A} (l : list A) (body : A → M unit) : M unit :=
  match l with
  | [] => ret tt
  | x :: l' => bind (body x) (λ _, for_each l' body)
  end.

(** Body of the loop of [_extract_create_table_statements]. *)
Definition extract_one (table_statement : string) : M unit :=
  try_except
    (bind (lift (sqlparse_parse table_statement)) (λ statements,
       match statements with
       | s :: _ => call (_parse_create_table s)
       | [] => ret tt
       end))
    (λ e, record_error
            (mk_error e (Some (take 200 table_statement)) "CREATE TABLE parsing failed")).

(** [_extract_create_table_statements]. *)
Definition _extract_create_table_statements (sql_content : string) : M unit :=
  for_each (Re.finditer create_table_matcher sql_content) extract_one.

(** The dispatch inside the [try] of [_parse_statement]. *)
Definition dispatch (statement : statement_obj) (statement_upper : string) : M unit :=
  if startswith statement_upper "CREATE TABLE" then ret tt
  else if startswith statement_upper "ALTER TABLE" || contains "ALTER TABLE" statement_upper
  then call (_parse_alter_table statement)
  else if startswith statement_upper "CREATE INDEX" then call (_parse_create_index statement)
  else if startswith statement_upper "CREATE SEQUENCE"
  then call (_parse_create_sequence statement)
  else if contains "CREATE TYPE" statement_upper && contains "ENUM" statement_upper
  then call (_parse_create_enum statement)
  else ret tt.

(** [_parse_statement]. *)
Definition _parse_statement (statement : statement_obj) : M unit :=
  let statement_str := strip (str statement) in
  if is_empty statement_str then ret tt
  else
    let statement_upper := upper statement_str in
    try_except (dispatch statement statement_upper)
      (λ e, record_error
              (mk_error e (Some (take 200 statement_str)) "Statement parsing failed")).

Definition to_dict (st : state) : result_dict :=
  mk_dict (tables (acc st)) (relationships (acc st)) (constraints (acc st))
    (indexes (acc st)) (sequences (acc st)) (enums (acc st)) (parsing_errors st).

(** [parse_sql_dump]. *)
Definition parse_sql_dump (sql_content : string) : M result_dict :=
  bind
    (try_except
       (bind (_extract_create_table_statements sql_content) (λ _,
        bind (lift (sqlparse_parse sql_content)) (λ statements,
        for_each statements _parse_statement)))
       (λ e, record_error (mk_error e None "SQL parsing failed")))
    (λ _ st, (Ok (to_dict st), st)).

End Parser.

Arguments mk_acc {_ _ _ _ _ _}.
Arguments tables {_ _ _ _ _ _}.
Arguments relationships {_ _ _ _ _ _}.
Arguments constraints {_ _ _ _ _ _}.
Arguments indexes {_ _ _ _ _ _}.
Arguments sequences {_ _ _ _ _ _}.
Arguments enums {_ _ _ _ _ _}.
Arguments mk_state {_ _ _ _ _ _}.
Arguments acc {_ _ _ _ _ _}.
Arguments parsing_errors {_ _ _ _ _ _}.
Arguments mk_dict {_ _ _ _ _ _}.
Arguments d_tables {_ _ _ _ _ _}.
Arguments d_relationships {_ _ _ _ _ _}.
Arguments d_constraints {_ _ _ _ _ _}.
Arguments d_indexes {_ _ _ _ _ _}.
Arguments d_sequences {_ _ _ _ _ _}.
Arguments d_enums {_ _ _ _ _ _}.
Arguments d_parsing_errors {_ _ _ _ _ _}.
Arguments ret {_ _ _ _ _ _ _}.
Arguments bind {_ _ _ _ _ _ _ _}.
Arguments try_except {_ _ _ _ _ _}.
Arguments lift {_ _ _ _ _ _ _}.
Arguments call {_ _ _ _ _ _}.
Arguments record_error {_ _ _ _ _ _}.
Arguments for_each {_ _ _ _ _ _ _}.
Arguments extract_one {_ _ _ _ _ _ _}.
Arguments _extract_create_table_statements {_ _ _ _ _ _ _}.
Arguments dispatch {_ _ _ _ _ _ _}.
Arguments _parse_statement {_ _ _ _ _ _ _}.
Arguments to_dict {_ _ _ _ _ _}.
Arguments parse_sql_dump {_ _ _ _ _ _ _}.
End SQLParser.

(** ** Structural parser: column definitions
    ([src/parser/sql_parser.py]) *)

Module SQLParserText.
Import PyStr.

(** A column dictionary as the parser builds it. *)
Record column_info := mk_column {
  column_name : string;
  data_type : string;
  is_nullable : bool;
  default_value : option string;
  constraints : list string;
  original_definition : string
}.

(** A table dictionary of [self.tables]; [C] is the type of its constraint
    entries.  Each dictionary is created by [_parse_create_table] and
    appended once, so the list holds no dictionary twice and the tables
    are kept by value. *)
Record table_info (C : Type) := mk_table {
  name : string;
  table_name : string;
  columns : list column_info;
  table_constraints : list C;
  original_statement : string
}.
Arguments mk_table {C} _ _ _ _ _.
Arguments name {C} _.
Arguments table_name {C} _.
Arguments columns {C} _.
Arguments table_constraints {C} _.
Arguments original_statement {C} _.

(** The state of the loop of [_split_column_definitions_simple] after the
    characters of [s]. *)
Fixpoint split_simple_go (s : string) (parts : list string) (current_part : string)
    (paren_depth : Z) : list string * string * Z :=
  match s with
  | EmptyString => (parts, current_part, paren_depth)
  | String char rest =>
      if bool_decide (char = "("%char) then
        split_simple_go rest parts (current_part +:+ String char EmptyString)
          (paren_depth + 1)
      else if bool_decide (char = ")"%char) then
        split_simple_go rest parts (current_part +:+ String char EmptyString)
          (paren_depth - 1)
      else if bool_decide (char = ","%char) && bool_decide (paren_depth = 0%Z) then
        split_simple_go rest (parts ++ [current_part]) EmptyString paren_depth
      else
        split_simple_go rest parts (current_part +:+ String char EmptyString) paren_depth
  end.

(** [_split_column_definitions_simple]. *)
Definition _split_column_definitions_simple (columns_section : string) : list string :=
  let '(parts, current_part, _) := split_simple_go columns_section [] EmptyString 0 in
  if negb (is_empty (strip current_part)) then parts ++ [current_part] else parts.

(** The line break as a string. *)
Definition nl_str : string := String "010"%char EmptyString.

(** [s.startswith(prefixes)] for a tuple of prefixes. *)
Definition startswith_any (s : string) (prefixes : list string) : bool :=
  existsb (startswith s) prefixes.

Definition constraint_keywords : list string :=
  ["CONSTRAINT"; "PRIMARY KEY"; "FOREIGN KEY"; "UNIQUE"; "CHECK"; "EXCLUDE"].

(** The loop over the lines of a multi-line definition: the first line,
    stripped, that looks like a column definition. *)
Fixpoint actual_column_line (lines : list string) : option string :=
  match lines with
  | [] => None
  | line :: rest =>
      let line_stripped := strip line in
      if negb (is_empty line_stripped)
         && negb (startswith line_stripped "--")
         && negb (startswith line_stripped "/*")
         && negb (startswith_any (upper line_stripped) constraint_keywords)
         && negb (contains " WITH " (upper line_stripped))
      then Some line_stripped
      else actual_column_line rest
  end.

(** [s.split()]: the maximal runs of characters that are not blanks;
    [current] is the run being read. *)
Fixpoint split_blank_go (s : string) (current : string) : list string :=
  match s with
  | EmptyString => if is_empty current then [] else [current]
  | String c r =>
      if is_space c then
        if is_empty current then split_blank_go r EmptyString
        else current :: split_blank_go r EmptyString
      else split_blank_go r (current +:+ String c EmptyString)
  end.

Definition split_blank (s : string) : list string := split_blank_go s EmptyString.

Definition not_space (c : ascii) : bool := negb (is_space c).

(** [s.split(None, 1)]: the first run of characters that are not blanks
    and, if more follows, the rest from its first such character on. *)
Definition split_blank_1 (s : string) : list string :=
  let s1 := lstrip s in
  if is_empty s1 then []
  else
    let '(first, r) := span not_space s1 in
    let r1 := lstrip r in
    if is_empty r1 then [first] else [first; r1].

(** [s.find(dq, 1)] on the text [r] after the first character of [s]: what
    precedes the first double quote of [r] and what follows it. *)
Fixpoint find_quote (r : string) : option (string * string) :=
  match r with
  | EmptyString => None
  | String c r' =>
      if bool_decide (c = dq) then Some (EmptyString, r')
      else match find_quote r' with
           | Some (a, b) => Some (String c a, b)
           | None => None
           end
  end.

Definition not_rparen (c : ascii) : bool := negb (bool_decide (c = ")"%char)).

(** The [re.match] on the data type, anchored at its start: group 1 is one
    or more word characters, then an opening parenthesis, group 2 (one or
    more characters other than the closing parenthesis) and the closing
    parenthesis. *)
Definition match_type_call (s : string) : option (string * string) :=
  let '(base_type, r1) := span is_word s in
  if is_empty base_type then None
  else
    match r1 with
    | String "("%char r2 =>
        let '(type_params, r3) := span not_rparen r2 in
        match type_params, r3 with
        | String _ _, String ")"%char _ => Some (base_type, type_params)
        | _, _ => None
        end
    | _ => None
    end.

Definition not_comma_blank (c : ascii) : bool :=
  negb (bool_decide (c = ","%char) || is_space c).

(** The default pattern, case-insensitive: DEFAULT, one or more blanks, then
    group 1: one or more characters other than comma and blank, and an
    optional parenthesised tail.  The run of group 1 is greedy and ends
    before a comma, a blank or the end of the text, where no parenthesis
    can follow, so the tail is always empty.  The value is group 1. *)
Definition default_matcher : Re.matcher string := λ _ s,
  r1 ← strip_prefix_ci "default" s;
  let '(ws, r2) := span is_space r1 in
  if is_empty ws then None
  else
    let '(value, r3) := span not_comma_blank r2 in
    if is_empty value then None else Some (value, r3).

Definition partition_keywords : list string :=
  ["FOR VALUES"; "VALUES FROM"; "VALUES IN"; "TO ("].

(** The column name and the text after it. *)
Definition name_and_remaining (column_def : string) : option (string * string) :=
  if startswith column_def (String dq EmptyString) then
    match column_def with
    | String _ r =>
        match find_quote r with
        | Some (column_name, after) => Some (column_name, strip after)
        | None => None
        end
    | EmptyString => None
    end
  else
    match split_blank_1 column_def with
    | [column_name; remaining] => Some (column_name, remaining)
    | _ => None
    end.

(** [_parse_column_definition]. *)
Definition _parse_column_definition (column_def : string) : option column_info :=
  let column_def := strip column_def in
  column_def ←
    (if contains nl_str column_def
     then actual_column_line (SQLCleaner.split_lines column_def)
     else Some column_def);
  if is_empty column_def || startswith column_def "--" || startswith column_def "/*"
  then None
  else if existsb (λ keyword, contains keyword (upper column_def)) partition_keywords
  then None
  else
    '(column_name, remaining) ← name_and_remaining column_def;
    match split_blank remaining with
    | [] => None
    | data_type :: _ =>
        let data_type :=
          if contains "(" data_type && contains ")" data_type
          then match match_type_call data_type with
               | Some (base_type, type_params) =>
                   base_type +:+ "(" +:+ type_params +:+ ")"
               | None => data_type
               end
          else data_type in
        let column_def_upper := upper column_def in
        let is_nullable := negb (contains "NOT NULL" column_def_upper) in
        let constraints :=
          (if contains "NOT NULL" column_def_upper then ["NOT NULL"] else [])
          ++ (if contains "PRIMARY KEY" column_def_upper then ["PRIMARY KEY"] else [])
          ++ (if contains "UNIQUE" column_def_upper then ["UNIQUE"] else []) in
        Some (mk_column column_name data_type is_nullable
                (Re.search default_matcher column_def) constraints (strip column_def))
    end.

Definition not_comma_semicolon (c : ascii) : bool :=
  negb (bool_decide (c = ","%char) || bool_decide (c = ";"%char)).

(** The last character of a non-empty text, as a text. *)
Fixpoint last_of (s : string) : string :=
  match s with
  | EmptyString => EmptyString
  | String c EmptyString => s
  | String _ r => last_of r
  end.

(** The pattern of [_parse_add_column], case-insensitive: ADD, blanks,
    COLUMN, blanks, then group 1: one or more characters other than comma
    and semicolon.  Blanks belong to the class of group 1: when nothing
    else follows the blanks after COLUMN, they give back their last
    character to the group, if they are two or more.  The value is
    group 1. *)
Definition add_column_matcher : Re.matcher string := λ _ s,
  r1 ← strip_prefix_ci "add" s;
  let '(ws1, r2) := span is_space r1 in
  if is_empty ws1 then None
  else
    r3 ← strip_prefix_ci "column" r2;
    let '(ws2, r4) := span is_space r3 in
    if is_empty ws2 then None
    else
      let '(group, r5) := span not_comma_semicolon r4 in
      if negb (is_empty group) then Some (group, r5)
      else if bool_decide (2 ≤ String.length ws2) then Some (last_of ws2, r4)
      else None.

(** The loop of [_parse_add_column] over [self.tables]: the first table of
    that name gets the column, unless it has one of that name. *)
Fixpoint add_to_table {C} (tables : list (table_info C)) (tn : string)
    (parsed_column : column_info) : list (table_info C) :=
  match tables with
  | [] => []
  | table :: rest =>
      if bool_decide (table_name table = tn) then
        let existing_columns := column_name <$> columns table in
        (if bool_decide (column_name parsed_column ∉ existing_columns)
         then mk_table (name table) (table_name table) (columns table ++ [parsed_column])
                (table_constraints table) (original_statement table)
         else table) :: rest
      else table :: add_to_table rest tn parsed_column
  end.

(** [_parse_add_column]; [tables] is [self.tables]. *)
Definition _parse_add_column {C} (statement tn : string) (tables : list (table_info C))
    : list (table_info C) :=
  match Re.search add_column_matcher statement with
  | None => tables
  | Some group =>
      let column_def := strip group in
      match _parse_column_definition column_def with
      | Some parsed_column => add_to_table tables tn parsed_column
      | None => tables
      end
  end.

End SQLParserText.

(** ** Structural parser: constraints and table names
    ([src/parser/sql_parser.py]) *)

Module SQLParserConstraints.
Import PyStr.

(** A relationship dictionary as the parser records it. *)
Record relationship := mk_relationship {
  source_table : string;
  source_columns : list string;
  target_table : string;
  target_columns : list string;
  relationship_type : string;
  on_delete_action : option string;
  on_update_action : option string;
  constraint_name : option string
}.

(** [s.split(sep)] for a separator of one character. *)
Fixpoint split_char (sep : ascii) (s : string) : list string :=
  match s with
  | EmptyString => [EmptyString]
  | String c r =>
      if bool_decide (c = sep) then EmptyString :: split_char sep r
      else match split_char sep r with
           | l :: ls => String c l :: ls
           | [] => [String c EmptyString]
           end
  end.

(** [s.strip(dq)]: the double quotes at both ends are removed. *)
Fixpoint lstrip_quotes (s : string) : string :=
  match s with
  | EmptyString => EmptyString
  | String c r => if bool_decide (c = dq) then lstrip_quotes r else s
  end.

Fixpoint rstrip_quotes (s : string) : string :=
  match s with
  | EmptyString => EmptyString
  | String c r =>
      let r' := rstrip_quotes r in
      if bool_decide (c = dq) && is_empty r' then EmptyString else String c r'
  end.

Definition strip_quotes (s : string) : string := rstrip_quotes (lstrip_quotes s).

(** The list comprehension over the columns of a group:
    [col.strip().strip(dq)] for each [col] of [group.split(',')]. *)
Definition column_list (group : string) : list string :=
  (λ col, strip_quotes (strip col)) <$> split_char "," group.

(** [s.split('.')[-1]]. *)
Definition last_segment (s : string) : string :=
  default EmptyString (last (split_char "." s)).

Definition not_rparen (c : ascii) : bool := negb (bool_decide (c = ")"%char)).

(** One or more blanks; zero or more blanks. *)
Definition blanks1 (s : string) : option string :=
  let '(ws, r) := span is_space s in
  if is_empty ws then None else Some r.

Definition blanks0 (s : string) : string := (span is_space s).2.

(** An opening parenthesis, a group of one or more characters other than
    the closing parenthesis, and the closing parenthesis. *)
Definition paren_group (s : string) : option (string * string) :=
  match s with
  | String "("%char r =>
      let '(group, r1) := span not_rparen r in
      match group, r1 with
      | String _ _, String ")"%char rest => Some (group, rest)
      | _, _ => None
      end
  | _ => None
  end.

(** PRIMARY, blanks, KEY, optional blanks and the parenthesised group;
    case-insensitive.  The value is the group. *)
Definition primary_key_matcher : Re.matcher string := λ _ s,
  r1 ← strip_prefix_ci "primary" s;
  r2 ← blanks1 r1;
  r3 ← strip_prefix_ci "key" r2;
  paren_group (blanks0 r3).

(** UNIQUE, optional blanks and the parenthesised group. *)
Definition unique_matcher : Re.matcher string := λ _ s,
  r1 ← strip_prefix_ci "unique" s;
  paren_group (blanks0 r1).

(** The class of a table reference: double quote, word character, dot. *)
Definition is_table_char (c : ascii) : bool :=
  bool_decide (c = dq) || is_word c || bool_decide (c = "."%char).

(** The class of a constraint name: double quote, word character. *)
Definition is_name_char (c : ascii) : bool := bool_decide (c = dq) || is_word c.

(** FOREIGN, blanks, KEY, optional blanks, group 1 in parentheses, blanks,
    REFERENCES, blanks, group 2 (one or more characters of a table
    reference), optional blanks, group 3 in parentheses; case-insensitive.
    The value holds the three groups. *)
Definition foreign_key_matcher : Re.matcher (string * string * string) := λ _ s,
  r1 ← strip_prefix_ci "foreign" s;
  r2 ← blanks1 r1;
  r3 ← strip_prefix_ci "key" r2;
  '(g1, r4) ← paren_group (blanks0 r3);
  r5 ← blanks1 r4;
  r6 ← strip_prefix_ci "references" r5;
  r7 ← blanks1 r6;
  let '(g2, r8) := span is_table_char r7 in
  if is_empty g2 then None
  else
    '(g3, r9) ← paren_group (blanks0 r8);
    Some ((g1, g2, g3), r9).

(** Two words with blanks between them, case-insensitive. *)
Definition two_words (w1 w2 : string) (s : string) : option string :=
  r1 ← strip_prefix_ci w1 s;
  r2 ← blanks1 r1;
  strip_prefix_ci w2 r2.

(** The alternatives of an action, tried in their order: CASCADE, RESTRICT,
    SET NULL, SET DEFAULT, NO ACTION.  The value is the text after the
    action. *)
Definition action_rest (s : string) : option string :=
  match strip_prefix_ci "cascade" s with
  | Some r => Some r
  | None =>
      match strip_prefix_ci "restrict" s with
      | Some r => Some r
      | None =>
          match two_words "set" "null" s with
          | Some r => Some r
          | None =>
              match two_words "set" "default" s with
              | Some r => Some r
              | None => two_words "no" "action" s
              end
          end
      end
  end.

(** ON, blanks, the event (DELETE or UPDATE), blanks, group 1: the action;
    case-insensitive.  The value is group 1 as it stands in the text. *)
Definition on_event_matcher (event : string) : Re.matcher string := λ _ s,
  r1 ← strip_prefix_ci "on" s;
  r2 ← blanks1 r1;
  r3 ← strip_prefix_ci event r2;
  r4 ← blanks1 r3;
  rest ← action_rest r4;
  Some (take (Re.consumed r4 rest) r4, rest).

(** [_parse_foreign_key_constraint]; [relationships] is
    [self.relationships]. *)
Definition _parse_foreign_key_constraint (constraint_body table_name : string)
    (constraint_name : option string) (relationships : list relationship)
    : option Constraint.t * list relationship :=
  match Re.search foreign_key_matcher constraint_body with
  | None => (None, relationships)
  | Some (g1, g2, g3) =>
      let source_columns := column_list g1 in
      let target_table := strip_quotes g2 in
      let target_columns := column_list g3 in
      let target_table :=
        if contains "." target_table then last_segment target_table else target_table in
      let on_delete_action :=
        upper <$> Re.search (on_event_matcher "delete") constraint_body in
      let on_update_action :=
        upper <$> Re.search (on_event_matcher "update") constraint_body in
      let constraint_info :=
        Constraint.mk (Some constraint_name) (Some "f") (Some (Some table_name))
          source_columns (Some constraint_body) None None (Some target_table)
          target_columns on_delete_action on_update_action in
      let relationship :=
        mk_relationship table_name source_columns target_table target_columns
          "many-to-one" on_delete_action on_update_action constraint_name in
      (Some constraint_info, relationships ++ [relationship])
  end.

(** [_parse_constraint_body]. *)
Definition _parse_constraint_body (constraint_body table_name : string)
    (constraint_name : option string) (relationships : list relationship)
    : option Constraint.t * list relationship :=
  let constraint_body := strip constraint_body in
  let constraint_upper := upper constraint_body in
  if startswith constraint_upper "PRIMARY KEY" then
    let columns :=
      match Re.search primary_key_matcher constraint_body with
      | Some group => column_list group
      | None => []
      end in
    (Some (Constraint.mk (Some constraint_name) (Some "p") (Some (Some table_name))
             columns (Some constraint_body) None None None [] None None),
     relationships)
  else if startswith constraint_upper "FOREIGN KEY" then
    _parse_foreign_key_constraint constraint_body table_name constraint_name relationships
  else if startswith constraint_upper "UNIQUE" then
    let columns :=
      match Re.search unique_matcher constraint_body with
      | Some group => column_list group
      | None => []
      end in
    (Some (Constraint.mk (Some constraint_name) (Some "u") (Some (Some table_name))
             columns (Some constraint_body) None None None [] None None),
     relationships)
  else if startswith constraint_upper "CHECK" then
    (Some (Constraint.mk (Some constraint_name) (Some "c") (Some (Some table_name))
             [] (Some constraint_body) (Some constraint_body) None None [] None None),
     relationships)
  else (None, relationships).

(** The [re.match] of [_parse_table_constraint], anchored at the start:
    CONSTRAINT, blanks, group 1 (one or more characters of a name), blanks,
    group 2 (the rest of the text, line breaks included);
    case-insensitive. *)
Definition match_named_constraint (s : string) : option (string * string) :=
  r1 ← strip_prefix_ci "constraint" s;
  r2 ← blanks1 r1;
  let '(g1, r3) := span is_name_char r2 in
  if is_empty g1 then None
  else
    g2 ← blanks1 r3;
    Some (g1, g2).

(** [_parse_table_constraint]. *)
Definition _parse_table_constraint (constraint_def table_name : string)
    (relationships : list relationship) : option Constraint.t * list relationship :=
  let constraint_def := strip constraint_def in
  match match_named_constraint constraint_def with
  | None => (None, relationships)
  | Some (g1, g2) =>
      let constraint_name := strip_quotes g1 in
      let constraint_body := strip g2 in
      _parse_constraint_body constraint_body table_name (Some constraint_name) relationships
  end.

(** [_parse_inline_constraint]. *)
Definition _parse_inline_constraint (constraint_def table_name : string)
    (relationships : list relationship) : option Constraint.t * list relationship :=
  _parse_constraint_body constraint_def table_name None relationships.

(** The lazy group of [_parse_add_constraint] and what follows it: as
    little as possible (line breaks included) up to a semicolon, or up to
    where only blanks are left.  The value is the group and the text after
    the match. *)
Fixpoint lazy_body (s : string) : string * string :=
  match s with
  | EmptyString => (EmptyString, EmptyString)
  | String c r =>
      if bool_decide (c = ";"%char) then (EmptyString, r)
      else if is_empty (lstrip s) then (EmptyString, EmptyString)
      else let '(body, rest) := lazy_body r in (String c body, rest)
  end.

(** ADD, blanks, CONSTRAINT, blanks, group 1 (one or more characters of a
    name), blanks, group 2 (lazy), then a semicolon or the end of the text
    after optional blanks; case-insensitive. *)
Definition add_constraint_matcher : Re.matcher (string * string) := λ _ s,
  r1 ← strip_prefix_ci "add" s;
  r2 ← blanks1 r1;
  r3 ← strip_prefix_ci "constraint" r2;
  r4 ← blanks1 r3;
  let '(g1, r5) := span is_name_char r4 in
  if is_empty g1 then None
  else
    r6 ← blanks1 r5;
    let '(g2, rest) := lazy_body r6 in
    Some ((g1, g2), rest).

(** [_parse_add_constraint]; [constraints] is [self.constraints]. *)
Definition _parse_add_constraint (statement table_name : string)
    (constraints : list Constraint.t) (relationships : list relationship)
    : list Constraint.t * list relationship :=
  match Re.search add_constraint_matcher statement with
  | None => (constraints, relationships)
  | Some (g1, g2) =>
      let constraint_name := strip_quotes g1 in
      let constraint_body := g2 in
      let '(constraint_info, relationships) :=
        _parse_constraint_body constraint_body table_name (Some constraint_name)
          relationships in
      match constraint_info with
      | Some info => (constraints ++ [info], relationships)
      | None => (constraints, relationships)
      end
  end.

(** *** Table names *)

(** The class of an unquoted table name: word character or dot. *)
Definition is_dotted_char (c : ascii) : bool := is_word c || bool_decide (c = "."%char).

(** After an opening double quote: as many characters other than the
    double quote, or doubled double quotes, as possible, and the closing
    double quote.  A double quote followed by another is taken as a
    doubled one when a closing quote is found further on, and as the
    closing one otherwise.  The value is the text between the quotes and
    the text after the closing quote. *)
Fixpoint quoted_body (s : string) : option (string * string) :=
  match s with
  | EmptyString => None
  | String c r =>
      if bool_decide (c = dq) then
        match r with
        | String c2 r2 =>
            if bool_decide (c2 = dq) then
              match quoted_body r2 with
              | Some (body, rest) => Some (String dq (String dq body), rest)
              | None => Some (EmptyString, r)
              end
            else Some (EmptyString, r)
        | EmptyString => Some (EmptyString, r)
        end
      else
        match quoted_body r with
        | Some (body, rest) => Some (String c body, rest)
        | None => None
        end
  end.

(** Group 1 of the table-name pattern: a quoted name or, failing that, one
    or more word characters and dots. *)
Definition table_name_group (s : string) : option (string * string) :=
  match (match s with
         | String c r => if bool_decide (c = dq) then quoted_body r else None
         | EmptyString => None
         end) with
  | Some (body, rest) => Some (String dq (body +:+ String dq EmptyString), rest)
  | None =>
      let '(group, rest) := span is_dotted_char s in
      if is_empty group then None else Some (group, rest)
  end.

(** IF, blanks, NOT, blanks, EXISTS, blanks; case-insensitive. *)
Definition if_not_exists (s : string) : option string :=
  r1 ← strip_prefix_ci "if" s;
  r2 ← blanks1 r1;
  r3 ← strip_prefix_ci "not" r2;
  r4 ← blanks1 r3;
  r5 ← strip_prefix_ci "exists" r4;
  blanks1 r5.

(** CREATE, blanks, TABLE, blanks, optionally IF NOT EXISTS, group 1;
    case-insensitive.  The optional part is tried first; when group 1 does
    not follow it, group 1 is tried in its place.  The value is
    group 1. *)
Definition create_table_name_matcher : Re.matcher string := λ _ s,
  r1 ← strip_prefix_ci "create" s;
  r2 ← blanks1 r1;
  r3 ← strip_prefix_ci "table" r2;
  r4 ← blanks1 r3;
  match if_not_exists r4 ≫= table_name_group with
  | Some found => Some found
  | None => table_name_group r4
  end.

(** [s[1:-1]]. *)
Fixpoint drop_last (s : string) : string :=
  match s with
  | EmptyString => EmptyString
  | String c EmptyString => EmptyString
  | String c r => String c (drop_last r)
  end.

Definition slice_1_m1 (s : string) : string :=
  match s with
  | EmptyString => EmptyString
  | String _ r => drop_last r
  end.

(** The double quote as a text, and two of them. *)
Definition dq_str : string := String dq EmptyString.
Definition dq_dq : string := String dq (String dq EmptyString).

(** [_extract_table_name]. *)
Definition _extract_table_name (statement : string) : option string :=
  match Re.search create_table_name_matcher statement with
  | None => None
  | Some table_name =>
      let table_name :=
        if startswith table_name dq_str && endswith table_name dq_str
        then replace (slice_1_m1 table_name) dq_dq dq_str
        else table_name in
      let table_name :=
        if contains "." table_name && negb (startswith table_name dq_str)
        then last_segment table_name
        else table_name in
      Some table_name
  end.

End SQLParserConstraints.

(** ** Preprocessor: the removal report
    ([src/preprocessor/sql_cleaner.py]) *)

Module SQLCleanerReport.
Import PyStr SQLCleaner.

(** The report dictionary; [by_type] is a dictionary from statement type
    to list, kept in the order in which its keys were inserted. *)
Record removal_report := mk_report {
  total_removed : nat;
  by_type : list (string * list removal);
  report_line_mapping : gmap nat nat
}.

(** The body of the loop of [get_removal_report]: the statement goes to the
    end of the list of its type, which is created if the type is new. *)
Fixpoint add_statement (by_type : list (string * list removal)) (stmt : removal)
    : list (string * list removal) :=
  match by_type with
  | [] => [(rm_statement_type stmt, [stmt])]
  | (stmt_type, stmts) :: rest =>
      if bool_decide (stmt_type = rm_statement_type stmt)
      then (stmt_type, stmts ++ [stmt]) :: rest
      else (stmt_type, stmts) :: add_statement rest stmt
  end.

(** [get_removal_report]. *)
Definition get_removal_report (st : state) : removal_report :=
  let by_type := foldl add_statement [] (removed_statements st) in
  mk_report (length (removed_statements st)) by_type (line_mapping st).

End SQLCleanerReport.

(** ** Structural parser: ALTER TABLE
    ([src/parser/sql_parser.py]) *)

Module SQLParserAlter.
Import PyStr.

(** ONLY, blanks; case-insensitive. *)
Definition only_clause (s : string) : option string :=
  r1 ← strip_prefix_ci "only" s;
  SQLParserConstraints.blanks1 r1.

(** Group 1 of the pattern: one or more characters of a table
    reference. *)
Definition table_ref_group (s : string) : option (string * string) :=
  let '(group, rest) := span SQLParserConstraints.is_table_char s in
  if is_empty group then None else Some (group, rest).

(** ALTER, blanks, TABLE, blanks, optionally ONLY and blanks, group 1;
    case-insensitive.  The optional part is tried first; when group 1 does
    not follow it, group 1 is tried in its place.  The value is
    group 1. *)
Definition alter_table_matcher : Re.matcher string := λ _ s,
  r1 ← strip_prefix_ci "alter" s;
  r2 ← SQLParserConstraints.blanks1 r1;
  r3 ← strip_prefix_ci "table" r2;
  r4 ← SQLParserConstraints.blanks1 r3;
  match only_clause r4 ≫= table_ref_group with
  | Some found => Some found
  | None => table_ref_group r4
  end.

(** [_parse_alter_table] on the text of the statement; [tables],
    [constraints] and [relationships] are the parser's lists. *)
Definition _parse_alter_table {C} (statement_str : string)
    (tables : list (SQLParserText.table_info C)) (constraints : list Constraint.t)
    (relationships : list SQLParserConstraints.relationship)
    : list (SQLParserText.table_info C) * list Constraint.t
      * list SQLParserConstraints.relationship :=
  match Re.search alter_table_matcher statement_str with
  | None => (tables, constraints, relationships)
  | Some group =>
      let table_name := SQLParserConstraints.strip_quotes group in
      let table_name :=
        if contains "." table_name then SQLParserConstraints.last_segment table_name
        else table_name in
      let tables :=
        if contains "ADD COLUMN" (upper statement_str)
        then SQLParserText._parse_add_column statement_str table_name tables
        else tables in
      let '(constraints, relationships) :=
        if contains "ADD CONSTRAINT" (upper statement_str)
        then SQLParserConstraints._parse_add_constraint statement_str table_name
               constraints relationships
        else (constraints, relationships) in
      (tables, constraints, relationships)
  end.

End SQLParserAlter.

(** * Auxiliary definitions used in the statements and proofs *)

(** ** Predicates on strings *)

Module Aux.
Import PyStr.

(** The last character of a string. *)
Fixpoint last_char (s : string) : option ascii :=
  match s with
  | EmptyString => None
  | String c r => match r with EmptyString => Some c | _ => last_char r end
  end.

(** All characters satisfy [p]. *)
Fixpoint all_chars (p : ascii → bool) (s : string) : bool :=
  match s with
  | EmptyString => true
  | String c r => p c && all_chars p r
  end.

(** The string is empty or starts with a character that fails [p]. *)
Definition stops (p : ascii → bool) (s : string) : bool :=
  match s with
  | EmptyString => true
  | String c _ => negb (p c)
  end.

End Aux.

(** ** Statements about the type mapper *)

Module TypeMapperSpec.
Import PyStr Aux TypeMapper.

(** The shape the array types are specified to take: a double quote, one
    or more characters other than a line break, a blank, the two brackets
    and a double quote, at the end of the string or before a final line
    break. *)
Definition no_newline (s : string) : Prop := contains (String "010"%char EmptyString) s = false.

Definition quoted_spaced_array (s : string) : Prop :=
  ∃ x, x ≠ EmptyString ∧ no_newline x ∧
       (s = String dq (x +:+ " []" +:+ String dq EmptyString)
        ∨ s = String dq (x +:+ " []" +:+ String dq (String "010"%char EmptyString))).

(** Idempotence of the single-type transformation, for every type string,
    decisions map and enum-name set. *)
Definition type_mapping_idempotent : Prop :=
  ∀ (t : string) (decisions : gmap string string) (table_name column_name : string)
    (enum_types : gset string),
    let out := (_transform_single_type t decisions table_name column_name enum_types).1 in
    (_transform_single_type out decisions table_name column_name enum_types).1 = out.

(** Enum names that are plain: none contains a parenthesis and none is the
    name of a parameterised built-in type. *)
Definition enum_names_plain (enum_types : gset string) : Prop :=
  (∀ e, e ∈ enum_types → contains "(" e = false)
  ∧ ("varchar" ∉ enum_types) ∧ ("numeric" ∉ enum_types).

(** A type that the mapper maps to itself by table lookup. *)
Definition fixed_value (v : string) : Prop :=
  contains "[]" v = false ∧ match_type_params v = None ∧ strip v = v
  ∧ lower v = v ∧ dict_get type_map v = Some v
  ∧ (keeps_params v = true → v = "varchar" ∨ v = "numeric").

(** The result of [_transform_single_type] on a type without array marker,
    from its base type and parameters. *)
Definition scalar_result (base : string) (params : option string)
    (enum_types : gset string) : string :=
  if bool_decide (lower base ∈ enum_types) then base
  else match dict_get type_map (lower base) with
       | Some dbml_type =>
           if truthy params && keeps_params dbml_type
           then dbml_type +:+ "(" +:+ default EmptyString params +:+ ")"
           else dbml_type
       | None => "text"
       end.

End TypeMapperSpec.

(** ** Statements about the constraint handler *)

Module ConstraintSpec.
Import ConstraintHandler.

(** The constraint types the output format keeps. *)
Definition recognized (c : Constraint.t) : Prop :=
  Constraint.constraint_type c ∈ [Some "p"; Some "u"; Some "f"].

Definition is_check (c : Constraint.t) : bool :=
  bool_decide (Constraint.constraint_type c = Some "c").

(** The constraint list of the table dictionary at [t]. *)
Definition table_constraints (σ : Store.t) (t : loc) : list Constraint.t :=
  match Store.tbls σ !! t with
  | Some table => Table.constraints table
  | None => []
  end.

Definition count_checks (l : list Constraint.t) : nat := length (List.filter is_check l).

Definition is_check_drop (d : Log.drop_record) : bool :=
  bool_decide (Log.dr_constraint_type d = "CHECK").

Definition check_drops (l : list Log.drop_record) : nat :=
  length (List.filter is_check_drop l).

(** The CHECK constraints of a schema: those of its distinct table
    dictionaries and the standalone ones. *)
Definition input_checks (schema : SchemaDict.t) (σ : Store.t) : nat :=
  sum_list ((λ t, count_checks (table_constraints σ t)) <$> remove_dups (SchemaDict.tables schema))
  + count_checks (default [] (SchemaDict.constraints schema)).

Definition checks (σ : Store.t) (t : loc) : nat := count_checks (table_constraints σ t).

(** Name and column references of a table dictionary. *)
Definition shape (table : Table.t loc) : string * list loc :=
  (Table.table_name table, Table.columns table).

(** The stores hold the same tables up to their constraint lists. *)
Definition same_shape (σ σ' : Store.t) : Prop :=
  ∀ t, shape <$> (Store.tbls σ' !! t) = shape <$> (Store.tbls σ !! t).

(** The constraint list of the table at [t] once every entry carries the
    [source_table] key. *)
Definition tagged_constraints (σ : Store.t) (t : loc) : list Constraint.t :=
  match Store.tbls σ !! t with
  | Some table =>
      Constraint.set_source_table (Table.table_name table) <$> Table.constraints table
  | None => []
  end.

(** Every column dictionary stored at [c] satisfies [P]. *)
Definition col_holds (σ : Store.t) (c : loc) (P : Column.t → Prop) : Prop :=
  ∀ col, Store.cols σ !! c = Some col → P col.

(** Properties of a column that the flag updates of the handler keep. *)
Definition stable (P : Column.t → Prop) : Prop :=
  ∀ col, P col →
    P (Column.set_is_primary_key true col)
    ∧ P (Column.set_is_nullable false col)
    ∧ P (Column.set_is_unique true col).

(** The flags a column named in constraint [k] has to carry. *)
Definition flagged_for (k : Constraint.t) (col : Column.t) : Prop :=
  Column.column_name col ∈ Constraint.columns k →
  (Constraint.constraint_type k = Some "p" →
     Column.is_primary_key col = Some true ∧ Column.is_nullable col = Some false)
  ∧ (Constraint.constraint_type k = Some "u" → length (Constraint.columns k) = 1 →
     Column.is_unique col = Some true).

(** The columns of the tables named [name] carry the flags for [k]. *)
Definition applied (tables : list loc) (name : option string) (k : Constraint.t)
    (σ : Store.t) : Prop :=
  ∀ t table c, t ∈ tables → Store.tbls σ !! t = Some table →
    Some (Table.table_name table) = name → c ∈ Table.columns table →
    col_holds σ c (flagged_for k).

(** What [_mark_columns_as_primary_key] and [_mark_columns_as_unique]
    establish on a column for the name list [names]. *)
Definition pk_marked (names : list string) (col : Column.t) : Prop :=
  Column.column_name col ∈ names →
  Column.is_primary_key col = Some true ∧ Column.is_nullable col = Some false
  ∧ (length names = 1 → Column.is_unique col = Some true).

Definition unique_marked (names : list string) (col : Column.t) : Prop :=
  Column.column_name col ∈ names → length names = 1 → Column.is_unique col = Some true.

(** The table a constraint belongs to: the one its own [table_name] key
    names or, without such a key, the table it is listed in. *)
Definition owning_table (listed_in : option string) (k : Constraint.t) : option string :=
  match Constraint.table_name k with
  | Some (Some (String a r)) => Some (String a r)
  | _ => listed_in
  end.

(** A small schema: one table with a primary key, a CHECK constraint and a
    unique constraint. *)
Definition users_constraint (ty : string) (cols : list string) : Constraint.t :=
  Constraint.mk (Some (Some ("users_" +:+ ty))) (Some ty) (Some (Some "users")) cols
    (Some EmptyString) None None None [] None None.

Definition users_store : Store.t :=
  Store.mk
    {[ 1 := Table.mk "users" [10; 11]
              [ users_constraint "p" ["id"];
                users_constraint "c" [];
                users_constraint "u" ["email"] ] ]}
    {[ 10 := Column.mk "id" "serial" None (Some true) None None;
       11 := Column.mk "email" "text[]" None (Some true) None None ]}.

Definition users_schema : SchemaDict.t :=
  SchemaDict.mk [1] None [] None None None None None.
End ConstraintSpec.

(** ** Statements about the sharing of tables and columns *)

Module SharingSpec.
Import PyStr.

(** The column dictionaries reached from the schema's table list. *)
Definition column_refs (σ : Store.t) (tables : list loc) : list loc :=
  tables ≫= (λ t, match Store.tbls σ !! t with
                  | Some table => Table.columns table
                  | None => []
                  end).

(** The same, each with the name of the table it is reached from. *)
Definition named_column_refs (σ : Store.t) (tables : list loc) : list (string * loc) :=
  tables ≫= (λ t, match Store.tbls σ !! t with
                  | Some table => (λ c, (Table.table_name table, c)) <$> Table.columns table
                  | None => []
                  end).

(** The type the mapper gives to [ty] for the schema's enums. *)
Definition mapped_type (decisions : option (gmap string string)) (enums : list string)
    (ty : string) : string :=
  (TypeMapper._transform_single_type ty
     (default {[ "ARRAY_TYPE" := "native" ]} decisions) EmptyString EmptyString
     (list_to_set (lower <$> enums))).1.

(** One iteration of the loops of [transform_types], for a column
    reference with the name of its table. *)
Definition column_step (decisions : gmap string string) (enum_types : gset string)
    (acc : TypeMapper.state * Store.t) (nc : string * loc) : TypeMapper.state * Store.t :=
  TypeMapper.transform_column decisions enum_types nc.1 acc nc.2.
End SharingSpec.

(** ** Statements about the relationship builder *)

Module RelationshipSpec.
Import PyStr RelationshipBuilder.

(** The table [name] is in the table list. *)
Definition table_present (tables : list (Table.t Column.t)) (name : string) : Prop :=
  ∃ t, t ∈ tables ∧ Table.table_name t = name.

(** Some table [name] of the list has columns of all the names [cols]. *)
Definition columns_present (tables : list (Table.t Column.t)) (name : string)
    (cols : list string) : Prop :=
  ∃ t, t ∈ tables ∧ Table.table_name t = name
       ∧ ∀ col, col ∈ cols → ∃ c, c ∈ Table.columns t ∧ Column.column_name c = col.

(** The endpoints of a built relationship exist. *)
Definition endpoints_exist (tables : list (Table.t Column.t)) (b : built) : Prop :=
  columns_present tables (b_source_table b) (b_source_columns b)
  ∧ columns_present tables (b_target_table b) (b_target_columns b).

(** The relationship [r] is recorded as skipped with type [skip_type]. *)
Definition skipped_as (st : state) (r : relationship) (skip_type : string) : Prop :=
  ∃ sk, sk ∈ skipped_relationships st ∧ sk_relationship sk = r ∧ sk_skip_type sk = skip_type.

(** No returned relationship is the candidate [r]. *)
Definition excluded (res : list built) (r : relationship) : Prop :=
  ∀ b, b ∈ res →
    _create_relationship_signature b
    ≠ (source_table r, source_columns r, target_table r, target_columns r).

(** Every candidate with a missing target table is excluded and reported
    under that skip type. *)
Definition missing_target_always_reported : Prop :=
  ∀ (relationships : list relationship) (tables : list (Table.t Column.t)) (st : state)
    (r : relationship),
    r ∈ relationships → ¬ table_present tables (target_table r) →
    let '(res, st') := build_relationships relationships tables st in
    excluded res r ∧ skipped_as st' r "MISSING_TARGET_TABLE".

(** The primary-key columns of a table: those of its type-p constraints. *)
Definition pk_column_set (tbl : Table.t Column.t) : gset string :=
  ⋃ ((λ c, column_set (Constraint.columns c))
       <$> List.filter (λ c, bool_decide (Constraint.constraint_type c = Some "p"))
             (Table.constraints tbl)).

(** Uniqueness of a column list in a table, as the classification reads
    it: equal as a set to the primary-key columns, or to the columns of
    some unique constraint, or a single column flagged unique or primary
    key. *)
Definition unique_in (cols : list string) (info : table_info) : Prop :=
  column_set cols = pk_column_set (table info)
  ∨ (∃ c, c ∈ Table.constraints (table info)
          ∧ Constraint.constraint_type c = Some "u"
          ∧ column_set cols = column_set (Constraint.columns c))
  ∨ (∃ name column, cols = [name] ∧ columns info !! name = Some column
                    ∧ (Column.is_unique column = Some true
                       ∨ Column.is_primary_key column = Some true)).

Definition unusual_warning (r : relationship) : Log.warning :=
  Log.mk_warning "RELATIONSHIP_WARNING"
    ("Relationship " +:+ source_table r +:+ " -> " +:+ target_table r +:+ " " +:+
     "references non-unique columns - unusual foreign key").

(** A table list with a valid and an unresolvable candidate. *)
Definition shop_tables : list (Table.t Column.t) :=
  [ Table.mk "users" [Column.mk "id" "int4" None (Some false) (Some true) None]
      [Constraint.mk None (Some "p") None ["id"] None None None None [] None None];
    Table.mk "orders" [Column.mk "user_id" "int4" None (Some true) None None] [] ].

Definition order_user : relationship :=
  mk_relationship "orders" ["user_id"] "users" ["id"] None (Some "CASCADE") None.

Definition order_ghost : relationship :=
  mk_relationship "orders" ["user_id"] "ghosts" ["id"] None None None.

(** A built relationship comes from a candidate whose tables and columns
    were all found in the lookup. *)
Definition validated (lookup : gmap string table_info) (r : relationship) (b : built)
    (si ti : table_info) : Prop :=
  lookup !! source_table r = Some si ∧ lookup !! target_table r = Some ti
  ∧ filter (λ col, columns si !! col = None) (source_columns r) = []
  ∧ filter (λ col, columns ti !! col = None) (target_columns r) = []
  ∧ b_source_table b = source_table r ∧ b_source_columns b = source_columns r
  ∧ b_target_table b = target_table r ∧ b_target_columns b = target_columns r.
End RelationshipSpec.

(** ** Statements about the parser *)

Module ParserSpec.
Import PyStr SQLParser.

Section Spec.
Context {statement_obj table_info relationship constraint_info
         index_info sequence_info enum_info : Type}.
Variable str : statement_obj → string.
Variable sqlparse_parse : string → result (list statement_obj).
Variables _parse_create_table _parse_alter_table _parse_create_index
          _parse_create_sequence _parse_create_enum :
  parser_fn statement_obj table_info relationship constraint_info
    index_info sequence_info enum_info.

Local Abbreviation pstate := (state table_info relationship constraint_info
                     index_info sequence_info enum_info).

(** The parser after the CREATE TABLE texts [l] have been handled. *)
Definition run_extract (l : list string) (st : pstate) : pstate :=
  foldl (λ st ts, (extract_one sqlparse_parse _parse_create_table ts st).2) st l.

(** The parser after the statements [l] have been handled. *)
Definition run_statements (l : list statement_obj) (st : pstate) : pstate :=
  foldl (λ st s, (_parse_statement str _parse_alter_table _parse_create_index
                    _parse_create_sequence _parse_create_enum s st).2) st l.

(** Handling the CREATE TABLE text [ts] in state [st] throws [e]. *)
Definition create_table_raises (ts : string) (st : pstate) (e : string) : Prop :=
  (bind (lift (sqlparse_parse ts))
     (λ statements,
        match statements with
        | s :: _ => call (_parse_create_table s)
        | [] => ret tt
        end) st).1 = Raise e.

(** Parsing the non-empty statement [s] in state [st] throws [e]. *)
Definition statement_raises (s : statement_obj) (st : pstate) (e : string) : Prop :=
  strip (str s) ≠ EmptyString
  ∧ (dispatch _parse_alter_table _parse_create_index _parse_create_sequence
       _parse_create_enum s (upper (strip (str s))) st).1 = Raise e.

(** An error entry either has no excerpt or one of at most 200
    characters. *)
Definition excerpt_bounded (r : error_record) : Prop :=
  ∀ x, statement r = Some x → String.length x ≤ 200.

(** What a step that cannot raise does to the error log: it only adds
    entries, each with a bounded excerpt. *)
Definition logs (st st' : pstate) : Prop :=
  parsing_errors st `prefix_of` parsing_errors st'
  ∧ ∀ r, r ∈ parsing_errors st' → r ∈ parsing_errors st ∨ excerpt_bounded r.
End Spec.

(** A small instance: statements are the lines of the text, ALTER TABLE is
    not supported by the statement parser, CREATE INDEX is kept as text. *)
Definition demo_acc : Type := accumulators string string string string string string.
Definition demo_parse (text : string) : result (list string) :=
  Ok (SQLCleaner.split_lines text).
Definition demo_skip (s : string) (a : demo_acc) : result unit * demo_acc := (Ok tt, a).
Definition demo_alter_table (s : string) (a : demo_acc) : result unit * demo_acc :=
  (Raise "unsupported", a).
Definition demo_create_index (s : string) (a : demo_acc) : result unit * demo_acc :=
  (Ok tt, mk_acc (tables a) (relationships a) (constraints a) (indexes a ++ [s])
            (sequences a) (enums a)).
Definition demo_input : string :=
  "ALTER TABLE a ADD b" +:+ String SQLCleaner.nl "CREATE INDEX i ON a (b)".
Definition demo_init : state string string string string string string :=
  mk_state (mk_acc [] [] [] [] [] []) [].
End ParserSpec.

(** ** Statements about the cleaner *)

Module CleanerSpec.
Import PyStr Aux SQLCleaner.

(** The negative-default pattern matches at the start of [s]. *)
Definition matches_here (s : string) : bool :=
  bool_decide (is_Some (negative_default_matcher None s)).

(** The negative-default pattern matches somewhere in [s]: [s] has an
    unquoted negative default. *)
Fixpoint has_negative_default (s : string) : bool :=
  matches_here s
  || match s with
     | EmptyString => false
     | String _ r => has_negative_default r
     end.

(** [s] contains the token sequence DEFAULT -5: the literal, not followed
    by a further digit. *)
Definition has_token (s : string) : Prop :=
  ∃ a b, s = a +:+ "DEFAULT -5" +:+ b ∧ stops is_digit b = true.

(** [str.replace] as a substitution: the pattern is the literal [old]. *)
Definition literal_matcher (old new : string) : Re.matcher string := λ _ s,
  match strip_prefix old s with
  | Some rest => Some (new, rest)
  | None => None
  end.

(** The replacement of the UUID call. *)
Definition uuid_matcher : Re.matcher string :=
  literal_matcher "gen_random_uuid()" "`uuid_generate_v4()`".

(** Neither a blank, nor the minus sign, nor a digit. *)
Definition plain (c : ascii) : bool :=
  negb (is_space c || bool_decide (c = "-"%char) || is_digit c).

(** A letter of the keyword after its first one. *)
Definition keyword_tail_char (c : ascii) : bool :=
  contains (String (lower_char c) EmptyString) "efault".

(** A character at which the text of a negative default continues, seen
    after [prev]: no replacement of the later rewrites starts with it. *)
Definition blocked (prev : option ascii) (c : ascii) : bool :=
  is_space c || bool_decide (c = "-"%char) || is_digit c
  || (keyword_tail_char c && negb (Re.at_word_start prev)).

Fixpoint chain (prev : option ascii) (p : string) : bool :=
  match p with
  | EmptyString => true
  | String c p' => blocked prev c && chain (Some c) p'
  end.

(** The array pattern matches at the start of [s], whatever precedes. *)
Definition array_here (s : string) : bool :=
  let '(word, r1) := span is_word s in
  negb (is_empty word) && bool_decide (is_Some (strip_prefix "[]" r1)).

(** Not the first character of the token. *)
Definition not_D (c : ascii) : bool := bool_decide (c ≠ "D"%char).

(** The quoted form of the token. *)
Definition quoted : string := "DEFAULT '-5'".

(** What each rewrite after the first keeps: no negative default appears,
    and the quoted token stays. *)
Definition keeps_clean (f : string → string) : Prop :=
  ∀ s,
    (has_negative_default s = false → has_negative_default (f s) = false)
    ∧ (contains quoted s = true → contains quoted (f s) = true).

(** None of the three multi-line patterns occurs in [text]. *)
Definition no_multiline (text : string) : Prop :=
  Re.search dollar_matcher text = None
  ∧ Re.search function_matcher text = None
  ∧ Re.search check_matcher text = None.

(** The lines that the line rules keep. *)
Definition retained (lines : list string) : list string :=
  List.filter (λ line, negb (_should_remove_line line)) lines.

(** The property as stated for every dump text. *)
Definition quotes_every_negative_default : Prop :=
  ∀ (sql_content : string) (st : state),
    contains "DEFAULT -5" sql_content = true →
    contains "DEFAULT '-5'" (clean_dump sql_content st).1 = true
    ∧ contains "DEFAULT -5" (clean_dump sql_content st).1 = false.

Definition alter_default : string := "ALTER TABLE ONLY t ALTER COLUMN c SET DEFAULT -5;".
Definition init : state := mk_state [] ∅.

(** A table with a serial key and an array column, and its cleaned text. *)
Definition tagged_table : string := "CREATE TABLE t (id serial PRIMARY KEY, tags text[]);".
Definition tagged_table_cleaned : string :=
  "CREATE TABLE t (id serial PRIMARY KEY, tags "
  +:+ String dq ("text []" +:+ String dq ");").

(** A table with a negative default. *)
Definition counter_line : string := "  n integer DEFAULT -5,".
Definition counter_table : string :=
  "CREATE TABLE counter (" +:+ String nl (counter_line +:+ String nl ");").
End CleanerSpec.

(** ** Statements about the logs, the reports and the text-level parser *)

Module ConstraintLogSpec.
Import PyStr ConstraintHandler ConstraintSpec.

(** A constraint of a type the handler keeps. *)
Definition supported (c : Constraint.t) : bool :=
  bool_decide (Constraint.constraint_type c ∈ [Some "p"; Some "u"; Some "f"]).

(** A foreign key whose definition mentions DEFERRABLE. *)
Definition deferrable_fk (c : Constraint.t) : bool :=
  bool_decide (Constraint.constraint_type c = Some "f")
  && contains "DEFERRABLE" (upper (get_definition c)).

(** A foreign key over more than one column. *)
Definition composite_fk (c : Constraint.t) : bool :=
  bool_decide (Constraint.constraint_type c = Some "f")
  && bool_decide (1 < length (Constraint.columns c)).

(** A kept constraint as it leaves the handler. *)
Definition processed_form (c : Constraint.t) : Constraint.t :=
  if deferrable_fk c
  then Constraint.set_definition (_remove_deferrable_from_definition (get_definition c)) c
  else c.

(** The type under which a dropped constraint is logged. *)
Definition drop_type (c : Constraint.t) : string :=
  if bool_decide (Constraint.constraint_type c = Some "c") then "CHECK"
  else if startswith (upper (get_definition c)) "EXCLUDE" then "EXCLUDE"
  else "UNKNOWN".

(** The drop record [d] is the one of constraint [c] of table [tn]. *)
Definition drop_matches (tn : Constraint.t → option string) (c : Constraint.t)
    (d : Log.drop_record) : Prop :=
  Log.dr_constraint_name d = get_constraint_name c
  ∧ Log.dr_table_name d = tn c
  ∧ Log.dr_constraint_type d = drop_type c
  ∧ Log.dr_action d = "DROPPED".

(** The modification record [m] is the one of foreign key [c] of table
    [tn]. *)
Definition modification_matches (tn : Constraint.t → option string) (c : Constraint.t)
    (m : Log.modification_record) : Prop :=
  Log.mr_constraint_name m = get_constraint_name c
  ∧ Log.mr_table_name m = tn c
  ∧ Log.mr_modification_type m = "FOREIGN_KEY_DEFERRABLE"
  ∧ Log.mr_action m = "MODIFIED".

(** The table name a standalone constraint is logged under. *)
Definition standalone_table (c : Constraint.t) : option string :=
  default (Some "unknown") (Constraint.table_name c).

(** What the handler did between [h] and [h'] for the constraints [l]. *)
Definition logged (tn : Constraint.t → option string) (l : list Constraint.t)
    (h h' : state) : Prop :=
  ∃ drops mods,
    dropped_constraints h' = dropped_constraints h ++ drops
    ∧ Forall2 (drop_matches tn) (List.filter (λ c, negb (supported c)) l) drops
    ∧ modified_constraints h' = modified_constraints h ++ mods
    ∧ Forall2 (modification_matches tn) (List.filter deferrable_fk l) mods
    ∧ length (warnings_generated h')
      = length (warnings_generated h) + length drops + length mods
        + length (List.filter composite_fk l).

(** A column dictionary after the handler: name and types are the same, and
    no flag that was set is lost. *)
Definition col_extends (col col' : Column.t) : Prop :=
  Column.column_name col' = Column.column_name col
  ∧ Column.data_type col' = Column.data_type col
  ∧ Column.original_type col' = Column.original_type col
  ∧ (Column.is_primary_key col = Some true → Column.is_primary_key col' = Some true)
  ∧ (Column.is_unique col = Some true → Column.is_unique col' = Some true)
  ∧ (Column.is_nullable col = Some false → Column.is_nullable col' = Some false).

(** The stores hold column dictionaries at the same places, each extended. *)
Definition cols_extend (σ σ' : Store.t) : Prop :=
  ∀ c, option_Forall2 col_extends (Store.cols σ !! c) (Store.cols σ' !! c).
End ConstraintLogSpec.

Module RelationshipMoreSpec.
Import PyStr RelationshipBuilder RelationshipSpec.

(** The signature under which a candidate is deduplicated. *)
Definition candidate_signature (r : relationship) : signature :=
  (source_table r, source_columns r, target_table r, target_columns r).

(** The built relationship [b] copies the candidate [r]. *)
Definition copies (r : relationship) (b : built) : Prop :=
  b_source_table b = source_table r ∧ b_source_columns b = source_columns r
  ∧ b_target_table b = target_table r ∧ b_target_columns b = target_columns r
  ∧ b_constraint_name b = constraint_name r
  ∧ b_on_delete_action b = on_delete_action r
  ∧ b_on_update_action b = on_update_action r
  ∧ b_is_composite b = bool_decide (1 < length (source_columns r))
  ∧ b_is_self_referencing b = bool_decide (source_table r = target_table r)
  ∧ length (source_columns r) = length (target_columns r)
  ∧ b_relationship_type b ∈ ["one-to-one"; "many-to-one"].

(** The table that the lookup holds for [name]: the last one of that name
    in the list. *)
Definition last_named (tables : list (Table.t Column.t)) (name : string)
    : option (Table.t Column.t) :=
  last (List.filter (λ t, bool_decide (Table.table_name t = name)) tables).

(** The table has a column of that name. *)
Definition has_column (t : Table.t Column.t) (col : string) : Prop :=
  col ∈ Column.column_name <$> Table.columns t.

(** The candidate passes the validation against the table list. *)
Definition valid (tables : list (Table.t Column.t)) (r : relationship) : Prop :=
  ∃ s t, last_named tables (source_table r) = Some s
         ∧ last_named tables (target_table r) = Some t
         ∧ Forall (has_column s) (source_columns r)
         ∧ Forall (has_column t) (target_columns r)
         ∧ length (source_columns r) = length (target_columns r).

(** The first check that the candidate fails is the one of [skip_type]. *)
Definition fails_as (tables : list (Table.t Column.t)) (r : relationship)
    (skip_type : string) : Prop :=
  match last_named tables (source_table r) with
  | None => skip_type = "MISSING_SOURCE_TABLE"
  | Some s =>
      match last_named tables (target_table r) with
      | None => skip_type = "MISSING_TARGET_TABLE"
      | Some t =>
          (¬ Forall (has_column s) (source_columns r)
           ∧ skip_type = "MISSING_SOURCE_COLUMNS")
          ∨ (Forall (has_column s) (source_columns r)
             ∧ ¬ Forall (has_column t) (target_columns r)
             ∧ skip_type = "MISSING_TARGET_COLUMNS")
          ∨ (Forall (has_column s) (source_columns r)
             ∧ Forall (has_column t) (target_columns r)
             ∧ length (source_columns r) ≠ length (target_columns r)
             ∧ skip_type = "COLUMN_COUNT_MISMATCH")
      end
  end.

(** What the loop has added for the candidates [rs]. *)
Definition accounted (tables : list (Table.t Column.t)) (rs : list relationship)
    (bs : list built) (sks : list skip_record) : Prop :=
  (∀ r, r ∈ rs → valid tables r → ∃ b, b ∈ bs ∧ copies r b)
  ∧ (∀ r ty, r ∈ rs → fails_as tables r ty →
       ∃ sk, sk ∈ sks ∧ sk_relationship sk = r ∧ sk_skip_type sk = ty)
  ∧ (∀ b, b ∈ bs → ∃ r, r ∈ rs ∧ valid tables r ∧ copies r b)
  ∧ (∀ sk, sk ∈ sks →
       sk_relationship sk ∈ rs ∧ fails_as tables (sk_relationship sk) (sk_skip_type sk))
  ∧ length bs + length sks = length rs.
End RelationshipMoreSpec.

Module CleanerLogSpec.
Import PyStr SQLCleaner CleanerSpec.

(** The lines with their numbers, as [enumerate] and [original_line] count
    them: the first line of [lines] has number [i + 1]. *)
Fixpoint numbered (i : nat) (lines : list string) : list (nat * string) :=
  match lines with
  | [] => []
  | line :: rest => (i + 1, line) :: numbered (S i) rest
  end.

(** The numbered lines that the line rules keep, and those they remove. *)
Definition kept (nls : list (nat * string)) : list (nat * string) :=
  List.filter (λ nl, negb (_should_remove_line nl.2)) nls.
Definition dropped (nls : list (nat * string)) : list (nat * string) :=
  List.filter (λ nl, _should_remove_line nl.2) nls.

(** The record logged for a removed line. *)
Definition removal_of (nl : nat * string) : removal :=
  mk_removal nl.1 (_identify_statement_type nl.2) (take 100 (strip nl.2))
    (_get_removal_reason (_identify_statement_type nl.2)).

(** The statement types of removed lines, each with its reason. *)
Definition statement_reasons : list (string * string) :=
  [ ("PSQL_COMMAND", "PostgreSQL client commands not supported in DBML");
    ("SET", "Configuration statements not supported in DBML");
    ("SELECT", "Query statements not supported in DBML");
    ("COMMENT", "Comment statements cause parser errors");
    ("COPY", "Data import statements not supported");
    ("PERMISSION", "Permission statements not represented in DBML");
    ("OWNERSHIP", "Ownership statements not represented in DBML");
    ("SEQUENCE_OWNERSHIP", "Sequence ownership not represented in DBML");
    ("COLUMN_DEFAULT", "Column defaults handled in CREATE TABLE") ].

(** None of the rewrites of [_clean_line] finds its pattern in [line], and
    no line rule removes it. *)
Definition untouched (line : string) : bool :=
  negb (_should_remove_line line)
  && bool_decide (Re.search negative_default_matcher line = None)
  && negb (contains "gen_random_uuid()" line)
  && forallb (λ '(old_type, new_type),
                bool_decide (Re.search (word_matcher old_type new_type) line = None))
       type_replacements
  && bool_decide (Re.search array_matcher line = None).

(** A word character directly followed by the two brackets: an array type
    as the array pattern of [_clean_line] finds it. *)
Fixpoint has_bare_array (s : string) : bool :=
  match s with
  | EmptyString => false
  | String c r => (is_word c && startswith r "[]") || has_bare_array r
  end.

(** A text that the cleaner has nothing to do with. *)
Definition plain_table : string :=
  "CREATE TABLE t (" +:+ String nl ("  id integer NOT NULL" +:+ String nl ");").
End CleanerLogSpec.

Module TypeLogSpec.
Import PyStr TypeMapper SharingSpec.

(** The column dictionaries reached from the table list, in the order of the
    loops of [transform_types], each with the name of its table. *)
Definition named_columns (σ : Store.t) (tables : list loc) : list (string * Column.t) :=
  omap (λ nc, (λ col, (nc.1, col)) <$> Store.cols σ !! nc.2) (named_column_refs σ tables).

(** The mapper's answer for a column of a table: type and warnings. *)
Definition answer (decisions : gmap string string) (enum_types : gset string)
    (nc : string * Column.t) : string * list string :=
  _transform_single_type (Column.data_type nc.2) decisions nc.1
    (Column.column_name nc.2) enum_types.

(** The column's type is not the one the mapper answers. *)
Definition type_changes (decisions : gmap string string) (enum_types : gset string)
    (nc : string * Column.t) : bool :=
  bool_decide (Column.data_type nc.2 ≠ (answer decisions enum_types nc).1).

(** The record logged for a column whose type changes. *)
Definition record_of (decisions : gmap string string) (enum_types : gset string)
    (nc : string * Column.t) : Log.transformation :=
  Log.mk_transformation nc.1 (Column.column_name nc.2) (Column.data_type nc.2)
    (answer decisions enum_types nc).1
    (_get_transformation_reason (Column.data_type nc.2) (answer decisions enum_types nc).1).

(** The column dictionary after the mapper: the new type, and the old one
    under [original_type] when the two differ. *)
Definition mapped_column (decisions : gmap string string) (enum_types : gset string)
    (nc : string * Column.t) : Column.t :=
  Column.mk (Column.column_name nc.2) (answer decisions enum_types nc).1
    (if type_changes decisions enum_types nc then Some (Column.data_type nc.2)
     else Column.original_type nc.2)
    (Column.is_nullable nc.2) (Column.is_primary_key nc.2) (Column.is_unique nc.2).

(** A one-table schema with a column of unchanged and one of changed type. *)
Definition items_store : Store.t :=
  Store.mk {[ 1 := Table.mk "items" [10; 11] [] ]}
    {[ 10 := Column.mk "label" "text" None None None None;
       11 := Column.mk "price" "decimal(10,2)" None None None None ]}.
Definition items_schema : SchemaDict.t :=
  SchemaDict.mk [1] None [] None None None None None.
End TypeLogSpec.

Module ParserTextSpec.
Import PyStr Aux SQLParserText.

(** The parts joined by commas. *)
Definition comma_join (parts : list string) : string := RelationshipBuilder.join "," parts.

(** Only blanks, or nothing. *)
Definition blank (s : string) : bool := is_empty (strip s).

(** No blank in the text. *)
Definition blank_free (s : string) : bool := all_chars not_space s.

(** The loop of the split reads [p] as one part and ends at depth [d]. *)
Definition whole (p : string) (d : Z) : Prop :=
  split_simple_go p [] EmptyString 0 = ([], p, d).

(** The double quote as a text. *)
Definition dq_str : string := String dq EmptyString.

(** The table with one more column at the end. *)
Definition with_column {C} (table : table_info C) (col : column_info) : table_info C :=
  mk_table (name table) (table_name table) (columns table ++ [col])
    (table_constraints table) (original_statement table).

(** A column definition and the dictionary built from it. *)
Definition price_definition : string := "price numeric(10,2) NOT NULL".
Definition price_column : column_info :=
  mk_column "price" "numeric(10,2)" false None ["NOT NULL"] price_definition.
End ParserTextSpec.

Module ParserConstraintSpec.
Import PyStr Aux SQLParserConstraints.

(** The constraint types the parser gives. *)
Definition parsed_types : list (option string) := [Some "p"; Some "u"; Some "c"; Some "f"].

(** The relationship [r] repeats the foreign key [k]. *)
Definition mirrors (k : Constraint.t) (r : relationship) : Prop :=
  Constraint.table_name k = Some (Some (source_table r))
  ∧ Constraint.columns k = source_columns r
  ∧ Constraint.referenced_table k = Some (target_table r)
  ∧ Constraint.referenced_columns k = target_columns r
  ∧ Constraint.on_delete_action k = on_delete_action r
  ∧ Constraint.on_update_action k = on_update_action r
  ∧ Constraint.constraint_name k = Some (constraint_name r)
  ∧ relationship_type r = "many-to-one".

(** The constraint [k] built for a table, and the relationship list after
    it: a foreign key has appended the relationship that repeats it, any
    other constraint has left the list alone. *)
Definition built_for (tn : string) (relationships : list relationship) (k : Constraint.t)
    (relationships' : list relationship) : Prop :=
  Constraint.constraint_type k ∈ parsed_types
  ∧ Constraint.table_name k = Some (Some tn)
  ∧ (if bool_decide (Constraint.constraint_type k = Some "f")
     then ∃ r, relationships' = relationships ++ [r] ∧ mirrors k r
     else relationships' = relationships).

(** The outcome of parsing a constraint body. *)
Definition body_outcome (constraint_body tn : string) (constraint_name : option string)
    (relationships : list relationship) (res : option Constraint.t)
    (relationships' : list relationship) : Prop :=
  match res with
  | Some k =>
      built_for tn relationships k relationships'
      ∧ Constraint.constraint_name k = Some constraint_name
      ∧ Constraint.definition k = Some (strip constraint_body)
  | None => relationships' = relationships
  end.

(** A statement that creates a table in a schema. *)
Definition create_in_schema (schema id : string) (c : ascii) (rest : string) : string :=
  "CREATE TABLE " +:+ schema +:+ "." +:+ id +:+ String c rest.
End ParserConstraintSpec.

Module CleanerReportSpec.
Import PyStr SQLCleaner SQLCleanerReport.

(** [by_type.get(k)]. *)
Fixpoint group_of (k : string) (by_type : list (string * list removal))
    : option (list removal) :=
  match by_type with
  | [] => None
  | (stmt_type, stmts) :: rest =>
      if bool_decide (stmt_type = k) then Some stmts else group_of k rest
  end.

(** The records of statement type [k], in the order of the log. *)
Definition of_type (k : string) (log : list removal) : list removal :=
  List.filter (λ r, bool_decide (rm_statement_type r = k)) log.
End CleanerReportSpec.

Module ParserAlterSpec.
Import SQLParserText.

(** The table [t'] is the table [t] with at most one more column at the
    end. *)
Definition grown {C} (t t' : table_info C) : Prop :=
  name t' = name t ∧ table_name t' = table_name t
  ∧ table_constraints t' = table_constraints t
  ∧ original_statement t' = original_statement t
  ∧ ∃ extra, columns t' = columns t ++ extra ∧ length extra ≤ 1.
End ParserAlterSpec.

(** * Properties *)

(** ** Facts about the string primitives *)

Module StrFacts.
Import PyStr Aux.

Lemma app_nil_l (s : string) : EmptyString +:+ s = s.
Proof. reflexivity. Qed.

Lemma app_cons (c : ascii) (s t : string) : String c s +:+ t = String c (s +:+ t).
Proof. reflexivity. Qed.

Lemma app_nil_r (s : string) : s +:+ EmptyString = s.
Proof. induction s as [|c s IH]; [done|]. by rewrite app_cons, IH. Qed.

Lemma app_assoc (s t u : string) : (s +:+ t) +:+ u = s +:+ t +:+ u.
Proof. induction s as [|c s IH]; [done|]. by rewrite !app_cons, IH. Qed.

Lemma length_app (s t : string) :
  String.length (s +:+ t) = String.length s + String.length t.
Proof. induction s as [|c s IH]; [done|]. rewrite app_cons. simpl. by rewrite IH. Qed.

Lemma app_inv_tail (s1 s2 t : string) : s1 +:+ t = s2 +:+ t → s1 = s2.
Proof.
  revert s2. induction s1 as [|c s1 IH]; intros [|d s2] H.
  - done.
  - apply (f_equal String.length) in H.
    rewrite app_nil_l, app_cons in H. simpl in H. rewrite length_app in H. lia.
  - apply (f_equal String.length) in H.
    rewrite app_nil_l, app_cons in H. simpl in H. rewrite length_app in H. lia.
  - rewrite !app_cons in H. injection H as -> H. f_equal. by apply IH.
Qed.

Lemma last_char_app (s t : string) :
  t ≠ EmptyString → last_char (s +:+ t) = last_char t.
Proof.
  intros Ht. induction s as [|c s IH]; [done|].
  rewrite app_cons. simpl. rewrite IH.
  destruct (s +:+ t) eqn:E; [|done].
  destruct s; [|done]. by rewrite app_nil_l in E.
Qed.

Lemma last_char_rstrip (s : string) (c : ascii) :
  last_char (rstrip s) = Some c → is_space c = false.
Proof.
  induction s as [|a s IH]; [done|]. simpl.
  destruct (is_space a) eqn:Ha; simpl.
  - destruct (rstrip s) eqn:E; simpl; [done|]. exact IH.
  - destruct (rstrip s) eqn:E; simpl; [|exact IH]. by intros [= <-].
Qed.

Lemma last_char_strip (s : string) (c : ascii) :
  last_char (strip s) = Some c → is_space c = false.
Proof. apply last_char_rstrip. Qed.

Lemma dict_get_elem (d : list (string * string)) (k v : string) :
  TypeMapper.dict_get d k = Some v → (∃ k', (k', v) ∈ d).
Proof.
  induction d as [|[k' v'] d IH]; [done|]. simpl.
  case_bool_decide.
  - intros [= ->]. exists k'. by left.
  - intros [k'' ?]%IH. exists k''. by right.
Qed.

Lemma span_spec (p : ascii → bool) (s a b : string) :
  span p s = (a, b) → s = a +:+ b ∧ all_chars p a = true ∧ stops p b = true.
Proof.
  revert a b. induction s as [|c s IH]; intros a b; simpl.
  - by intros [= <- <-].
  - destruct (p c) eqn:Hc.
    + destruct (span p s) as [a' b'] eqn:E. intros [= <- <-].
      destruct (IH _ _ eq_refl) as (-> & Ha & Hb).
      rewrite app_cons. simpl. by rewrite Hc, Ha.
    + intros [= <- <-]. simpl. by rewrite Hc.
Qed.

Lemma span_app (p : ascii → bool) (a b : string) :
  all_chars p a = true → stops p b = true → span p (a +:+ b) = (a, b).
Proof.
  intros Ha Hb. induction a as [|c a IH].
  - rewrite app_nil_l. destruct b as [|d b]; [done|]. simpl in *.
    by destruct (p d).
  - simpl in Ha. apply andb_true_iff in Ha as [Hc Ha].
    rewrite app_cons. simpl. by rewrite Hc, IH.
Qed.

Lemma strip_prefix_app (p a b r : string) :
  strip_prefix p a = Some r → strip_prefix p (a +:+ b) = Some (r +:+ b).
Proof.
  revert a. induction p as [|c p IH]; intros a; simpl.
  - by intros [= ->].
  - destruct a as [|d a]; [done|]. rewrite app_cons.
    case_bool_decide; [|done]. apply IH.
Qed.

Lemma startswith_app (a b p : string) :
  startswith a p = true → startswith (a +:+ b) p = true.
Proof.
  unfold startswith. intros [r Hr]%bool_decide_eq_true.
  apply bool_decide_eq_true. erewrite strip_prefix_app; eauto.
Qed.

Lemma contains_app_l (sub a b : string) :
  contains sub a = true → contains sub (a +:+ b) = true.
Proof.
  induction a as [|c a IH]; simpl.
  - rewrite orb_false_r. intros H. apply (startswith_app _ b) in H.
    rewrite app_nil_l in H. destruct b; simpl; by rewrite H.
  - intros [H|H]%orb_true_iff.
    + apply (startswith_app _ b) in H. rewrite app_cons in H. by rewrite H.
    + rewrite IH by done. apply orb_true_r.
Qed.

Lemma contains_app_r (sub a b : string) :
  contains sub b = true → contains sub (a +:+ b) = true.
Proof.
  intros H. induction a as [|c a IH]; [done|].
  rewrite app_cons. simpl. rewrite IH. apply orb_true_r.
Qed.

Lemma lstrip_suffix (s : string) : ∃ w, s = w +:+ lstrip s.
Proof.
  induction s as [|c s [w IH]]; [by exists EmptyString|]. simpl.
  destruct (is_space c).
  - exists (String c w). by rewrite app_cons, <-IH.
  - by exists EmptyString.
Qed.

Lemma rstrip_prefix (s : string) : ∃ w, s = rstrip s +:+ w.
Proof.
  induction s as [|c s [w IH]]; [by exists EmptyString|]. simpl.
  destruct (is_space c && is_empty (rstrip s)).
  - by exists (String c s).
  - exists w. by rewrite app_cons, <-IH.
Qed.

Lemma contains_strip (sub s : string) :
  contains sub (strip s) = true → contains sub s = true.
Proof.
  intros H. unfold strip in H.
  destruct (lstrip_suffix s) as [w1 H1]. destruct (rstrip_prefix (lstrip s)) as [w2 H2].
  rewrite H1. apply contains_app_r. rewrite H2. by apply contains_app_l.
Qed.

Lemma rstrip_idemp (s : string) : rstrip (rstrip s) = rstrip s.
Proof.
  induction s as [|c s IH]; [done|]. simpl.
  destruct (is_space c && is_empty (rstrip s)) eqn:E; [done|].
  simpl. by rewrite IH, E.
Qed.

Lemma lstrip_stops (s : string) : stops is_space (lstrip s) = true.
Proof.
  induction s as [|c s IH]; [done|]. simpl.
  destruct (is_space c) eqn:E; [done|]. simpl. by rewrite E.
Qed.

Lemma lstrip_id (s : string) : stops is_space s = true → lstrip s = s.
Proof. destruct s as [|c s]; [done|]. simpl. by destruct (is_space c). Qed.

Lemma rstrip_stops (s : string) : stops is_space s = true → stops is_space (rstrip s) = true.
Proof.
  destruct s as [|c s]; [done|]. simpl. intros H%negb_true_iff.
  rewrite H. simpl. by rewrite H.
Qed.

Lemma strip_idemp (s : string) : strip (strip s) = strip s.
Proof.
  unfold strip. rewrite (lstrip_id (rstrip _)).
  - apply rstrip_idemp.
  - apply rstrip_stops, lstrip_stops.
Qed.

Lemma rstrip_id (s : string) :
  all_chars (λ c, negb (is_space c)) s = true → rstrip s = s.
Proof.
  induction s as [|c s IH]; [done|]. simpl.
  intros [Hc Hs]%andb_true_iff. rewrite IH by done.
  apply negb_true_iff in Hc. by rewrite Hc.
Qed.

Lemma all_chars_impl (p q : ascii → bool) (s : string) :
  (∀ c, p c = true → q c = true) → all_chars p s = true → all_chars q s = true.
Proof.
  intros Hpq. induction s as [|c s IH]; [done|]. simpl.
  intros [Hc Hs]%andb_true_iff. by rewrite Hpq, IH.
Qed.

Lemma strip_id (s : string) :
  all_chars (λ c, negb (is_space c)) s = true → strip s = s.
Proof.
  intros H. unfold strip. rewrite lstrip_id.
  - by apply rstrip_id.
  - destruct s as [|c s]; [done|]. simpl in *. by apply andb_true_iff in H as [-> _].
Qed.

Lemma is_word_not_space (c : ascii) : is_word c = true → negb (is_space c) = true.
Proof. destruct c as [[] [] [] [] [] [] [] []]; by vm_compute. Qed.

End StrFacts.

(** ** Facts about loops *)

Module FoldFacts.

(** A loop establishes at step [a] what every step keeps. *)
Lemma foldl_establish {S A} (f : S → A → S) (Q : A → S → Prop) (l : list A) (s : S) :
  (∀ s a, Q a (f s a)) → (∀ s a b, Q a s → Q a (f s b)) →
  ∀ a, a ∈ l → Q a (foldl f s l).
Proof.
  intros Hest Hpres. revert s. induction l as [|b l IH]; intros s a Ha.
  { by apply elem_of_nil in Ha. }
  cbn [foldl]. apply elem_of_cons in Ha as [->|Ha]; [|by apply IH].
  generalize (Hest s b). generalize (f s b). clear -Hpres.
  induction l as [|c l IH]; intros s' H; [done|]. cbn [foldl]. by apply IH, Hpres.
Qed.

Lemma foldl_preserve {S A} (f : S → A → S) (Q : S → Prop) (l : list A) (s : S) :
  (∀ s a, Q s → Q (f s a)) → Q s → Q (foldl f s l).
Proof.
  intros Hpres. revert s. induction l as [|b l IH]; intros s H; [done|].
  cbn [foldl]. by apply IH, Hpres.
Qed.

End FoldFacts.

(** ** Type mapper *)

Module TypeMapperProps.
Import PyStr Aux StrFacts TypeMapper TypeMapperSpec.

Lemma type_map_values_no_trailing_blank (k v : string) :
  dict_get type_map k = Some v → last_char v ≠ Some " "%char.
Proof.
  intros [k' Hin]%dict_get_elem.
  assert (Forall (λ kv : string * string, last_char kv.2 ≠ Some " "%char) type_map) as HF.
  { unfold type_map. repeat (constructor; [by vm_compute|]). constructor. }
  rewrite Forall_forall in HF. exact (HF _ Hin).
Qed.

Lemma mapped_element_no_trailing_blank (pg_type : string) :
  let element_type := strip (replace pg_type "[]" EmptyString) in
  last_char (default element_type (dict_get type_map (lower element_type))) ≠ Some " "%char.
Proof.
  intros element_type.
  destruct (dict_get type_map (lower element_type)) as [v|] eqn:E; simpl.
  - by eapply type_map_values_no_trailing_blank.
  - intros H%last_char_strip. by vm_compute in H.
Qed.

(** C5: the native array conversion writes the brackets directly after the
    mapped element type (for [text[]] it yields the quoted [text[]] without
    a blank), so its result never has the specified shape with the blank
    before the brackets. *)
Theorem native_array_type_has_no_blank :
  _transform_single_type "text[]" {[ "ARRAY_TYPE" := "native" ]} "t" "tags" ∅
    = (String dq ("text[]" +:+ String dq EmptyString), [])
  ∧ ∀ pg_type, ¬ quoted_spaced_array (_convert_native_array_type pg_type).
Proof.
  split; [by vm_compute|].
  intros pg_type (x & Hx & _ & H).
  pose proof (mapped_element_no_trailing_blank pg_type) as Hlast. simpl in Hlast.
  unfold _convert_native_array_type in H.
  set (m := default _ _) in *.
  destruct H as [H|H]; injection H as H.
  - change (" []" +:+ String dq EmptyString)
      with (" " +:+ "[]" +:+ String dq EmptyString) in H.
    rewrite <-(app_assoc x " ") in H.
    rewrite <-(app_assoc m), <-(app_assoc (x +:+ " ")) in H.
    apply app_inv_tail, app_inv_tail in H.
    apply Hlast. rewrite H. by rewrite last_char_app.
  - apply (f_equal last_char) in H.
    rewrite !last_char_app in H by done. by vm_compute in H.
Qed.

Lemma ident_start_word (c : ascii) : is_ident_start c = true → is_word c = true.
Proof. destruct c as [[] [] [] [] [] [] [] []]; by vm_compute. Qed.

Lemma contains_lparen_cons (c : ascii) (s : string) :
  contains "(" (String c s) = bool_decide (c = "("%char) || contains "(" s.
Proof.
  simpl. f_equal. unfold startswith. simpl.
  destruct (bool_decide_reflect ("("%char = c)) as [<-|Hne].
  - by rewrite !bool_decide_eq_true_2 by eauto.
  - rewrite !bool_decide_eq_false_2; [done|congruence|]. by intros [? ?].
Qed.

Lemma contains_lparen_app (a b : string) :
  contains "(" (a +:+ String "("%char b) = true.
Proof.
  induction a as [|c a IH].
  - rewrite app_nil_l, contains_lparen_cons. by rewrite bool_decide_eq_true_2.
  - rewrite app_cons, contains_lparen_cons, IH. apply orb_true_r.
Qed.

Lemma contains_lparen_lower (s : string) :
  contains "(" s = true → contains "(" (lower s) = true.
Proof.
  induction s as [|c s IH]; [done|].
  change (lower (String c s)) with (String (lower_char c) (lower s)).
  rewrite !contains_lparen_cons. intros [H|H]%orb_true_iff.
  - apply bool_decide_eq_true in H as ->. done.
  - rewrite IH by done. apply orb_true_r.
Qed.

(** What a successful match of the type pattern tells. *)
Lemma match_type_params_spec (s g1 g2 : string) :
  match_type_params s = Some (g1, g2) →
  all_chars is_word g1 = true ∧ g2 ≠ EmptyString ∧ all_chars not_rparen g2 = true
  ∧ contains "(" s = true ∧ ∃ pre post, s = pre +:+ g2 +:+ post.
Proof.
  unfold match_type_params. destruct s as [|c r]; [done|].
  destruct (is_ident_start c) eqn:Hc; [|done].
  destruct (span is_ident_char r) as [ident r1] eqn:E1.
  destruct (span is_space r1) as [ws r2] eqn:E2.
  destruct r2 as [|p r3]; [done|].
  destruct (bool_decide_reflect (p = "("%char)) as [->|Hp].
  2:{ destruct p as [[] [] [] [] [] [] [] []]; try done. }
  destruct (span not_rparen r3) as [params r4] eqn:E3.
  destruct params as [|q params]; [done|].
  destruct r4 as [|z rest]; [done|].
  destruct (bool_decide_reflect (z = ")"%char)) as [->|Hz].
  2:{ destruct z as [[] [] [] [] [] [] [] []]; try done. }
  intros [= <- <-].
  apply span_spec in E1 as (-> & Hid & _).
  apply span_spec in E2 as (-> & _ & _).
  apply span_spec in E3 as (-> & Hps & _).
  split_and!.
  - simpl. rewrite ident_start_word by done. exact Hid.
  - done.
  - done.
  - rewrite <-app_cons, <-app_assoc. apply contains_lparen_app.
  - exists (String c ident +:+ ws +:+ "("), (String ")"%char rest).
    by rewrite !app_assoc.
Qed.

Lemma match_type_params_word (s : string) :
  all_chars is_word s = true → match_type_params s = None.
Proof.
  destruct s as [|c r]; [done|]. simpl. intros [_ Hr]%andb_true_iff.
  destruct (is_ident_start c); [|done].
  rewrite <-(app_nil_r r) at 1. rewrite (span_app is_ident_char) by done.
  done.
Qed.

Lemma contains_brackets_rparen (p : string) :
  contains "[]" (p +:+ ")") = contains "[]" p.
Proof.
  induction p as [|c p IH]; [by vm_compute|].
  rewrite app_cons. simpl. rewrite IH. f_equal.
  unfold startswith. simpl. destruct (bool_decide ("["%char = c)); [|done].
  destruct p as [|d p]; [by vm_compute|]. rewrite app_cons.
  by destruct (bool_decide ("]"%char = d)).
Qed.

(** The type pattern on an identifier directly followed by parenthesised
    parameters. *)
Lemma match_type_params_ident_params (c : ascii) (ident p rest : string) :
  is_ident_start c = true → all_chars is_word ident = true →
  p ≠ EmptyString → all_chars not_rparen p = true →
  match_type_params (String c ident +:+ "(" +:+ p +:+ String ")"%char rest)
    = Some (String c ident, p).
Proof.
  intros Hc Hid Hp Hall. rewrite app_cons. unfold match_type_params. rewrite Hc.
  rewrite (span_app is_ident_char) by done.
  change ("(" +:+ p +:+ String ")"%char rest) with (String "("%char (p +:+ String ")"%char rest)).
  change (span is_space (String "("%char ?x)) with (EmptyString, String "("%char x).
  cbv iota beta.
  rewrite (span_app not_rparen) by done.
  by destruct p.
Qed.

Lemma contains_brackets_cons_ne (c : ascii) (s : string) :
  c ≠ "["%char → contains "[]" (String c s) = contains "[]" s.
Proof.
  intros Hc. simpl. unfold startswith. simpl.
  by rewrite (bool_decide_eq_false_2 ("["%char = c)) by congruence.
Qed.

Lemma word_no_brackets (s : string) :
  all_chars is_word s = true → contains "[]" s = false.
Proof.
  induction s as [|c s IH]; [done|]. simpl all_chars.
  intros [Hc Hs]%andb_true_iff. rewrite contains_brackets_cons_ne; [by apply IH|].
  intros ->. by vm_compute in Hc.
Qed.

(** The second pass over a type whose parameters were kept. *)
Lemma match_type_params_rebuilt (d p : string) :
  d = "varchar" ∨ d = "numeric" →
  p ≠ EmptyString → all_chars not_rparen p = true →
  match_type_params (d +:+ "(" +:+ p +:+ ")") = Some (d, p)
  ∧ contains "[]" (d +:+ "(" +:+ p +:+ ")") = contains "[]" p.
Proof.
  intros Hd Hp Hall. split.
  - destruct Hd as [-> | ->];
      by apply match_type_params_ident_params.
  - rewrite <-(contains_brackets_rparen p).
    destruct Hd as [-> | ->];
      repeat (rewrite app_cons || rewrite app_nil_l);
      by rewrite !contains_brackets_cons_ne by done.
Qed.

Lemma type_map_values_fixed (k v : string) :
  dict_get type_map k = Some v → fixed_value v.
Proof.
  intros [k' Hin]%dict_get_elem.
  assert (Forall (λ kv : string * string, fixed_value kv.2) type_map) as HF.
  { unfold type_map.
    repeat (constructor;
            [unfold fixed_value; split_and!; try (by vm_compute);
             intros H; vm_compute in H; first [done | by left | by right]|]).
    constructor. }
  rewrite Forall_forall in HF. exact (HF _ Hin).
Qed.

Lemma extract_non_array (t : string) :
  contains "[]" t = false →
  _extract_type_components t =
    match match_type_params t with
    | Some (g1, g2) => (g1, Some g2)
    | None => (strip t, None)
    end.
Proof.
  intros H. unfold _extract_type_components. rewrite H.
  by destruct (match_type_params t) as [[g1 g2]|].
Qed.

Lemma transform_non_array (t : string) decisions tn cn (enum_types : gset string) :
  contains "[]" t = false →
  (_transform_single_type t decisions tn cn enum_types).1 =
    let '(base, params) := _extract_type_components t in
    scalar_result base params enum_types.
Proof.
  intros H. unfold _transform_single_type, scalar_result, _is_array_type.
  rewrite H. destruct (_extract_type_components t) as [base params].
  case_bool_decide; [done|].
  by destruct (dict_get type_map (lower base)).
Qed.

Lemma transform_fixed_value (v : string) decisions tn cn (enum_types : gset string) :
  fixed_value v → (_transform_single_type v decisions tn cn enum_types).1 = v.
Proof.
  intros (Harr & Hm & Hs & Hl & Hd & _).
  rewrite transform_non_array by done. rewrite extract_non_array by done.
  rewrite Hm, Hs. unfold scalar_result. rewrite Hl, Hd.
  by case_bool_decide.
Qed.

Lemma text_fixed : fixed_value "text".
Proof. by apply (type_map_values_fixed "text"). Qed.




(** The serial type is mapped to the four-byte integer of the target,
    whatever the decisions. *)
Example serial_maps_to_int4 (decisions : gmap string string) (table_name column_name : string) :
  _transform_single_type "serial" decisions table_name column_name ∅ = ("int4", []).
Proof. reflexivity. Qed.

End TypeMapperProps.

(** ** Constraint handler *)

Module ConstraintHandlerProps.
Import PyStr FoldFacts ConstraintHandler ConstraintSpec.

Lemma check_drops_snoc (l : list Log.drop_record) (d : Log.drop_record) :
  check_drops (l ++ [d]) = check_drops l + (if is_check_drop d then 1 else 0).
Proof.
  unfold check_drops. rewrite List.filter_app, length_app. simpl.
  by destruct (is_check_drop d).
Qed.

Lemma dropped_generate_warning (m : string) (h : state) :
  dropped_constraints (_generate_warning m h) = dropped_constraints h.
Proof. done. Qed.

Lemma dropped_log_modification n t m d (h : state) :
  dropped_constraints (_log_constraint_modification n t m d h) = dropped_constraints h.
Proof. done. Qed.

Lemma dropped_foreign_key (c : Constraint.t) tn (h : state) :
  dropped_constraints (_process_foreign_key_constraint c tn h).2 = dropped_constraints h
  ∧ Constraint.constraint_type (_process_foreign_key_constraint c tn h).1
    = Constraint.constraint_type c.
Proof.
  unfold _process_foreign_key_constraint.
  destruct (contains "DEFERRABLE" _); simpl; case_bool_decide; done.
Qed.

(** One constraint: what is returned is recognized, and a CHECK drop record
    is written exactly for a CHECK constraint. *)
Lemma process_single_spec (c : Constraint.t) tn (h : state) :
  let '(r, h') := _process_single_constraint c tn h in
  (∀ c', r = Some c' → recognized c')
  ∧ check_drops (dropped_constraints h')
    = check_drops (dropped_constraints h) + (if is_check c then 1 else 0).
Proof.
  unfold _process_single_constraint, is_check, recognized.
  destruct (dropped_foreign_key c tn h) as [Hd Ht].
  repeat case_bool_decide; try congruence.
  - split; [|lia]. intros c' [= <-]. rewrite H. set_solver.
  - split; [|lia]. intros c' [= <-]. rewrite H0. set_solver.
  - destruct (_process_foreign_key_constraint c tn h) as [c1 h1]. simpl in *.
    split; [|rewrite Hd; lia]. intros c' [= <-]. rewrite Ht, H1. set_solver.
  - unfold _drop_check_constraint, _log_constraint_drop. simpl.
    split; [done|]. by rewrite check_drops_snoc.
  - unfold _drop_unknown_constraint, _log_constraint_drop.
    destruct (startswith _ _); simpl; (split; [done|]);
      rewrite check_drops_snoc; simpl; lia.
Qed.

Lemma process_table_constraints_spec (l : list Constraint.t) name (h : state) :
  let '(l', h') := _process_table_constraints l name h in
  Forall recognized l'
  ∧ check_drops (dropped_constraints h')
    = check_drops (dropped_constraints h) + count_checks l.
Proof.
  revert h. induction l as [|c l IH]; intros h; simpl.
  { split; [constructor|]. unfold count_checks. simpl. lia. }
  pose proof (process_single_spec c (Some name) h) as H1.
  destruct (_process_single_constraint c (Some name) h) as [r h1].
  specialize (IH h1). destruct (_process_table_constraints l name h1) as [l' h'].
  destruct H1 as [Hr Hc1], IH as [Hl Hc]. split.
  - destruct r; [constructor; auto|done].
  - rewrite Hc, Hc1. unfold count_checks. simpl. destruct (is_check c); simpl; lia.
Qed.

Lemma process_standalone_constraints_spec (l : list Constraint.t) (h : state) :
  let '(l', h') := _process_standalone_constraints l h in
  Forall recognized l'
  ∧ check_drops (dropped_constraints h')
    = check_drops (dropped_constraints h) + count_checks l.
Proof.
  revert h. induction l as [|c l IH]; intros h; simpl.
  { split; [constructor|]. unfold count_checks. simpl. lia. }
  set (tn := default _ _).
  pose proof (process_single_spec c tn h) as H1.
  destruct (_process_single_constraint c tn h) as [r h1].
  specialize (IH h1). destruct (_process_standalone_constraints l h1) as [l' h'].
  destruct H1 as [Hr Hc1], IH as [Hl Hc]. split.
  - destruct r; [constructor; auto|done].
  - rewrite Hc, Hc1. unfold count_checks. simpl. destruct (is_check c); simpl; lia.
Qed.


Lemma recognized_no_checks (l : list Constraint.t) :
  Forall recognized l → count_checks l = 0.
Proof.
  induction 1 as [|c l Hc _ IH]; [done|].
  unfold count_checks in *. simpl. unfold is_check at 1.
  rewrite bool_decide_eq_false_2; [done|].
  intros E. unfold recognized in Hc. rewrite E in Hc.
  repeat (apply elem_of_cons in Hc as [Hc|Hc]; [discriminate|]).
  by apply elem_of_nil in Hc.
Qed.

Lemma same_shape_refl (σ : Store.t) : same_shape σ σ.
Proof. done. Qed.

Lemma same_shape_trans (σ1 σ2 σ3 : Store.t) :
  same_shape σ1 σ2 → same_shape σ2 σ3 → same_shape σ1 σ3.
Proof. intros H1 H2 t. by rewrite H2, H1. Qed.

Lemma same_shape_set_constraints (σ : Store.t) (t : loc) (table : Table.t loc) l :
  Store.tbls σ !! t = Some table →
  same_shape σ (Store.set_tbl t (Table.set_constraints l table) σ).
Proof.
  intros Ht t'. unfold Store.set_tbl. simpl.
  destruct (decide (t = t')) as [<-|Hne].
  - by rewrite lookup_insert_eq, Ht.
  - by rewrite lookup_insert_ne.
Qed.

Lemma table_constraints_set_eq (σ : Store.t) (t : loc) (table : Table.t loc) :
  table_constraints (Store.set_tbl t table σ) t = Table.constraints table.
Proof. unfold table_constraints, Store.set_tbl. simpl. by rewrite lookup_insert_eq. Qed.

Lemma table_constraints_set_ne (σ : Store.t) (t t' : loc) (table : Table.t loc) :
  t ≠ t' → table_constraints (Store.set_tbl t table σ) t' = table_constraints σ t'.
Proof.
  intros Hne. unfold table_constraints, Store.set_tbl. simpl. by rewrite lookup_insert_ne.
Qed.

(** One step of the first loop of [process_constraints]. *)
Lemma process_table_spec (h : state) (σ : Store.t) (t : loc) :
  let '(h', σ') := process_table (h, σ) t in
  Store.cols σ' = Store.cols σ
  ∧ same_shape σ σ'
  ∧ (∀ t', t' ≠ t → table_constraints σ' t' = table_constraints σ t')
  ∧ Forall recognized (table_constraints σ' t)
  ∧ check_drops (dropped_constraints h') = check_drops (dropped_constraints h) + checks σ t.
Proof.
  assert (table_constraints σ t = default [] (Table.constraints <$> Store.tbls σ !! t)) as E.
  { unfold table_constraints. by destruct (Store.tbls σ !! t). }
  unfold process_table, checks. rewrite E.
  destruct (Store.tbls σ !! t) as [table|] eqn:Ht; simpl.
  - pose proof (process_table_constraints_spec (Table.constraints table)
                  (Table.table_name table) h) as H.
    destruct (_process_table_constraints _ _ h) as [l' h']. destruct H as [Hl Hc].
    split_and!; [done|by apply same_shape_set_constraints| |
                 by rewrite table_constraints_set_eq|done].
    intros t' Hne. by rewrite table_constraints_set_ne.
  - split_and!; [done|done|done| |unfold count_checks; simpl; lia].
    rewrite E. constructor.
Qed.

Lemma sum_list_agree (f g : loc → nat) (l : list loc) :
  (∀ t, t ∈ l → f t = g t) → sum_list (f <$> l) = sum_list (g <$> l).
Proof.
  induction l as [|a l IH]; intros H; [done|]. csimpl.
  rewrite H by left. rewrite IH; [done|]. intros t Ht. apply H. by right.
Qed.

Lemma sum_list_change_one (f g : loc → nat) (l : list loc) (t : loc) :
  NoDup l → t ∈ l → g t = 0 → (∀ t', t' ≠ t → g t' = f t') →
  sum_list (f <$> l) = f t + sum_list (g <$> l).
Proof.
  intros Hnd Hin Hg Hfg. induction Hnd as [|a l Ha Hnd IH]; [by apply elem_of_nil in Hin|].
  csimpl. apply elem_of_cons in Hin as [<-|Hin].
  - rewrite Hg. simpl. f_equal. apply sum_list_agree.
    intros t' Ht'. symmetry. apply Hfg. intros ->. done.
  - rewrite IH by done. rewrite (Hfg a); [lia|]. intros ->. done.
Qed.

(** The first loop of [process_constraints]. *)
Lemma process_tables_spec (l : list loc) (h : state) (σ : Store.t) :
  let '(h', σ') := foldl process_table (h, σ) l in
  Store.cols σ' = Store.cols σ
  ∧ same_shape σ σ'
  ∧ (∀ t, t ∉ l → table_constraints σ' t = table_constraints σ t)
  ∧ (∀ t, Forall recognized (table_constraints σ t) ∨ t ∈ l →
          Forall recognized (table_constraints σ' t))
  ∧ check_drops (dropped_constraints h')
    = check_drops (dropped_constraints h) + sum_list (checks σ <$> remove_dups l).
Proof.
  revert h σ. induction l as [|t l IH]; intros h σ; cbn [foldl remove_dups].
  { split_and!; [done|done|done| |simpl; lia].
    intros t [H|H]; [done|by apply elem_of_nil in H]. }
  pose proof (process_table_spec h σ t) as H1.
  destruct (process_table (h, σ) t) as [h1 σ1].
  specialize (IH h1 σ1). destruct (foldl process_table (h1, σ1) l) as [h' σ'].
  destruct H1 as (Hc1 & Hs1 & Hf1 & Hr1 & Hn1), IH as (Hc & Hs & Hf & Hr & Hn).
  split_and!.
  - congruence.
  - by eapply same_shape_trans.
  - intros t' Ht'. rewrite Hf, Hf1; [done| |]; set_solver.
  - intros t' Ht'. apply Hr.
    destruct (decide (t' = t)) as [->|Hne]; [by left|].
    destruct Ht' as [Ht'|Ht']; [left; by rewrite Hf1|right; by apply elem_of_cons in Ht' as [?|?]].
  - rewrite Hn, Hn1, <-Nat.add_assoc. f_equal.
    assert (checks σ1 t = 0) as H0 by by apply recognized_no_checks.
    assert (∀ t', t' ≠ t → checks σ1 t' = checks σ t') as Hne.
    { intros t' Ht'. unfold checks. by rewrite Hf1. }
    case_decide as Hin.
    + symmetry. apply sum_list_change_one.
      * apply NoDup_remove_dups.
      * by apply elem_of_remove_dups.
      * exact H0.
      * exact Hne.
    + csimpl. f_equal. apply sum_list_agree. intros t' Ht'. rewrite elem_of_remove_dups in Ht'.
      apply Hne. intros E. subst. by apply Hin.
Qed.


Lemma tagged_constraints_set (σ : Store.t) (t : loc) (table : Table.t loc) :
  Store.tbls σ !! t = Some table →
  let σ' := Store.set_tbl t (Table.set_constraints (tagged_constraints σ t) table) σ in
  tagged_constraints σ' t = tagged_constraints σ t
  ∧ table_constraints σ' t = tagged_constraints σ t
  ∧ (∀ t', t' ≠ t → tagged_constraints σ' t' = tagged_constraints σ t'
                    ∧ table_constraints σ' t' = table_constraints σ t').
Proof.
  intros Ht. unfold tagged_constraints, table_constraints, Store.set_tbl. simpl.
  rewrite Ht, lookup_insert_eq. simpl. split_and!.
  - rewrite <-list_fmap_compose. apply list_fmap_ext. intros i c Hc. by destruct c.
  - done.
  - intros t' Hne. by rewrite lookup_insert_ne.
Qed.

(** One step of the first loop of [_apply_constraints_to_columns]. *)
Lemma tag_table_constraints_spec (all : list Constraint.t) (σ : Store.t) (t : loc) :
  let '(all', σ') := tag_table_constraints (all, σ) t in
  Store.cols σ' = Store.cols σ
  ∧ same_shape σ σ'
  ∧ all' = all ++ tagged_constraints σ t
  ∧ tagged_constraints σ' t = tagged_constraints σ t
  ∧ (is_Some (Store.tbls σ !! t) → table_constraints σ' t = tagged_constraints σ t)
  ∧ (∀ t', t' ≠ t → tagged_constraints σ' t' = tagged_constraints σ t'
                    ∧ table_constraints σ' t' = table_constraints σ t').
Proof.
  unfold tag_table_constraints.
  destruct (Store.tbls σ !! t) as [table|] eqn:Ht.
  - destruct (tagged_constraints_set σ t table Ht) as (H1 & H2 & H3).
    assert (Constraint.set_source_table (Table.table_name table) <$> Table.constraints table
            = tagged_constraints σ t) as E.
    { unfold tagged_constraints. by rewrite Ht. }
    rewrite E. split_and!; try done. by apply same_shape_set_constraints.
  - split_and!; try done.
    unfold tagged_constraints. rewrite Ht. by rewrite app_nil_r.
Qed.

(** The first loop of [_apply_constraints_to_columns]. *)
Lemma tag_tables_spec (l : list loc) (all : list Constraint.t) (σ : Store.t) :
  let '(all', σ') := foldl tag_table_constraints (all, σ) l in
  Store.cols σ' = Store.cols σ
  ∧ same_shape σ σ'
  ∧ all' = all ++ (l ≫= tagged_constraints σ)
  ∧ (∀ t, tagged_constraints σ' t = tagged_constraints σ t)
  ∧ (∀ t, t ∈ l → is_Some (Store.tbls σ !! t) →
          table_constraints σ' t = tagged_constraints σ t)
  ∧ (∀ t, t ∉ l → table_constraints σ' t = table_constraints σ t).
Proof.
  revert all σ. induction l as [|t l IH]; intros all σ; cbn [foldl].
  { split_and!; try done.
    - by rewrite app_nil_r.
    - intros t Ht. by apply elem_of_nil in Ht. }
  pose proof (tag_table_constraints_spec all σ t) as H1.
  destruct (tag_table_constraints (all, σ) t) as [all1 σ1].
  specialize (IH all1 σ1). destruct (foldl tag_table_constraints (all1, σ1) l) as [all' σ'].
  destruct H1 as (Hc1 & Hs1 & Ha1 & Ht1 & Hx1 & Hf1), IH as (Hc & Hs & Ha & Ht & Hx & Hf).
  assert (∀ t', tagged_constraints σ1 t' = tagged_constraints σ t') as Htag1.
  { intros t'. destruct (decide (t' = t)) as [->|Hne]; [done|]. by apply Hf1. }
  split_and!.
  - congruence.
  - by eapply same_shape_trans.
  - rewrite Ha, Ha1. csimpl. rewrite <-app_assoc. do 2 f_equal.
    clear -Htag1. induction l as [|a l IHl]; [done|]. csimpl. by rewrite Htag1, IHl.
  - intros t'. by rewrite Ht.
  - intros t' Hin Hsome. destruct (decide (t' ∈ l)) as [Hl|Hl].
    + rewrite Hx, Htag1; [done..|].
      specialize (Hs1 t'). destruct Hsome as [x Hx']. rewrite Hx' in Hs1.
      destruct (Store.tbls σ1 !! t'); [by eexists|done].
    + rewrite Hf by done. apply elem_of_cons in Hin as [->|Hin]; [|done]. by apply Hx1.
  - intros t' Hin. apply not_elem_of_cons in Hin as [Hne Hin].
    rewrite Hf by done. by apply Hf1.
Qed.


Lemma flagged_for_stable (k : Constraint.t) : stable (flagged_for k).
Proof.
  intros col H. unfold flagged_for in *. destruct col; simpl in *.
  split_and!; intros Hn; destruct (H Hn) as [H1 H2];
    (split; [intros Hp; by destruct (H1 Hp)|done]).
Qed.

Section marks.
Variable mark : list string → Store.t → loc → Store.t.
Hypothesis mark_tbls : ∀ names σ c, Store.tbls (mark names σ c) = Store.tbls σ.
Hypothesis mark_keeps :
  ∀ P names σ c c', stable P → col_holds σ c' P → col_holds (mark names σ c) c' P.

Lemma mark_columns_tbls tables name names σ :
  Store.tbls (mark_columns mark tables name names σ) = Store.tbls σ.
Proof.
  unfold mark_columns.
  apply (foldl_preserve _ (λ σ', Store.tbls σ' = Store.tbls σ)); [|done].
  intros σ1 t E. destruct (Store.tbls σ1 !! t) as [table|]; [|done].
  case_bool_decide; [|done].
  apply (foldl_preserve _ (λ σ', Store.tbls σ' = Store.tbls σ)); [|done].
  intros σ2 c E2. by rewrite mark_tbls.
Qed.

Lemma mark_columns_keeps P tables name names σ c' :
  stable P → col_holds σ c' P →
  col_holds (mark_columns mark tables name names σ) c' P.
Proof.
  intros HP. unfold mark_columns.
  apply (foldl_preserve _ (λ σ', col_holds σ' c' P)).
  intros σ1 t E. destruct (Store.tbls σ1 !! t) as [table|]; [|done].
  case_bool_decide; [|done].
  apply (foldl_preserve _ (λ σ', col_holds σ' c' P)); [|done].
  intros σ2 c E2. by apply mark_keeps.
Qed.

(** What the marker establishes on the column it is applied to. *)
Variable Q : list string → Column.t → Prop.
Hypothesis Q_stable : ∀ names, stable (Q names).
Hypothesis mark_sets : ∀ names σ c, col_holds (mark names σ c) c (Q names).

Lemma mark_columns_cons t tables name names σ :
  mark_columns mark (t :: tables) name names σ
  = mark_columns mark tables name names (mark_columns mark [t] name names σ).
Proof. done. Qed.

Lemma mark_columns_sets tables name names σ t table c :
  t ∈ tables → Store.tbls σ !! t = Some table →
  Some (Table.table_name table) = name → c ∈ Table.columns table →
  col_holds (mark_columns mark tables name names σ) c (Q names).
Proof.
  intros Ht Htable Hname Hc. revert σ Htable.
  induction tables as [|t0 tables IH]; intros σ Htable.
  { by apply elem_of_nil in Ht. }
  rewrite mark_columns_cons. apply elem_of_cons in Ht as [<-|Ht].
  - apply mark_columns_keeps; [done|].
    unfold mark_columns. cbn [foldl]. rewrite Htable.
    rewrite bool_decide_eq_true_2 by done.
    refine (foldl_establish (mark names) (λ c' σ', c' = c → col_holds σ' c (Q names))
              (Table.columns table) σ _ _ c Hc eq_refl).
    + intros σ1 c1 ->. apply mark_sets.
    + intros σ1 c1 c2 H1 E. by apply mark_keeps, H1.
  - apply IH; [done|]. by rewrite mark_columns_tbls.
Qed.
End marks.


Lemma col_holds_set_col (σ : Store.t) (c c' : loc) (col : Column.t) (P : Column.t → Prop) :
  (c' = c → P col) → col_holds σ c' P → col_holds (Store.set_col c col σ) c' P.
Proof.
  intros Hc H col'. unfold Store.set_col. simpl.
  destruct (decide (c = c')) as [<-|Hne].
  - rewrite lookup_insert_eq. intros [= <-]. by apply Hc.
  - rewrite lookup_insert_ne by done. apply H.
Qed.

Lemma col_holds_set_col_eq (σ : Store.t) (c : loc) (col : Column.t) (P : Column.t → Prop) :
  P col → col_holds (Store.set_col c col σ) c P.
Proof.
  intros Hc col'. unfold Store.set_col. simpl. rewrite lookup_insert_eq. by intros [= <-].
Qed.

Lemma mark_primary_key_tbls names σ c :
  Store.tbls (mark_primary_key names σ c) = Store.tbls σ.
Proof.
  unfold mark_primary_key. destruct (Store.cols σ !! c); [|done]. by case_bool_decide.
Qed.

Lemma mark_unique_tbls names σ c :
  Store.tbls (mark_unique names σ c) = Store.tbls σ.
Proof.
  unfold mark_unique. destruct (Store.cols σ !! c); [|done].
  by destruct (_ && _).
Qed.

Lemma mark_primary_key_keeps P names σ c c' :
  stable P → col_holds σ c' P → col_holds (mark_primary_key names σ c) c' P.
Proof.
  intros HP H. unfold mark_primary_key.
  destruct (Store.cols σ !! c) as [column|] eqn:E; [|done].
  case_bool_decide; [|done].
  apply col_holds_set_col; [|done]. intros ->. specialize (H _ E).
  case_bool_decide; repeat (apply HP); done.
Qed.

Lemma mark_unique_keeps P names σ c c' :
  stable P → col_holds σ c' P → col_holds (mark_unique names σ c) c' P.
Proof.
  intros HP H. unfold mark_unique.
  destruct (Store.cols σ !! c) as [column|] eqn:E; [|done].
  destruct (_ && _); [|done].
  apply col_holds_set_col; [|done]. intros ->. by apply HP, H.
Qed.

Lemma pk_marked_stable names : stable (pk_marked names).
Proof.
  intros col H. unfold pk_marked in *. destruct col; simpl in *.
  split_and!; intros Hn; destruct (H Hn) as (H1 & H2 & H3); done.
Qed.

Lemma unique_marked_stable names : stable (unique_marked names).
Proof.
  intros col H. unfold unique_marked in *. destruct col; simpl in *.
  split_and!; intros Hn Hl; by try apply H.
Qed.

Lemma mark_primary_key_sets names σ c :
  col_holds (mark_primary_key names σ c) c (pk_marked names).
Proof.
  unfold mark_primary_key.
  destruct (Store.cols σ !! c) as [column|] eqn:E.
  - case_bool_decide as Hn.
    + apply col_holds_set_col_eq. intros _. case_bool_decide; by destruct column.
    + intros col. rewrite E. intros [= <-] ?. done.
  - intros col. by rewrite E.
Qed.

Lemma mark_unique_sets names σ c :
  col_holds (mark_unique names σ c) c (unique_marked names).
Proof.
  unfold mark_unique.
  destruct (Store.cols σ !! c) as [column|] eqn:E.
  - destruct (bool_decide (Column.column_name column ∈ names)
              && bool_decide (length names = 1)) eqn:Hb.
    + apply col_holds_set_col_eq. intros _ _. by destruct column.
    + intros col. rewrite E. intros [= <-] Hn Hl.
      by rewrite !bool_decide_eq_true_2 in Hb.
  - intros col. by rewrite E.
Qed.

Lemma apply_constraint_tbls tables σ k :
  Store.tbls (apply_constraint tables σ k) = Store.tbls σ.
Proof.
  unfold apply_constraint, _mark_columns_as_primary_key, _mark_columns_as_unique.
  destruct (_ && _).
  - apply mark_columns_tbls, mark_primary_key_tbls.
  - destruct (_ && _); [|done]. apply mark_columns_tbls, mark_unique_tbls.
Qed.

Lemma apply_constraint_keeps P tables σ k c :
  stable P → col_holds σ c P → col_holds (apply_constraint tables σ k) c P.
Proof.
  intros HP H.
  unfold apply_constraint, _mark_columns_as_primary_key, _mark_columns_as_unique.
  destruct (_ && _).
  - by apply mark_columns_keeps; [apply mark_primary_key_keeps|..].
  - destruct (_ && _); [|done].
    by apply mark_columns_keeps; [apply mark_unique_keeps|..].
Qed.

(** One step of the second loop of [_apply_constraints_to_columns]. *)
Lemma apply_constraint_sets tables σ k :
  applied tables (resolved_table_name k) k (apply_constraint tables σ k).
Proof.
  intros t table c Ht Htable Hname Hc. rewrite apply_constraint_tbls in Htable.
  unfold apply_constraint, _mark_columns_as_primary_key, _mark_columns_as_unique.
  destruct (bool_decide (Constraint.constraint_type k = Some "p")
            && negb (bool_decide (Constraint.columns k = []))) eqn:Hp.
  { apply andb_true_iff in Hp as [Hp _]. apply bool_decide_eq_true in Hp.
    pose proof (mark_columns_sets mark_primary_key mark_primary_key_tbls
                  mark_primary_key_keeps pk_marked pk_marked_stable mark_primary_key_sets
                  tables _ (Constraint.columns k) σ t table c Ht Htable Hname Hc) as H.
    intros col Hcol Hn. destruct (H col Hcol Hn) as (H1 & H2 & _).
    split; [done|]. intros Hu. congruence. }
  destruct (bool_decide (Constraint.constraint_type k = Some "u")
            && negb (bool_decide (Constraint.columns k = []))) eqn:Hu.
  { apply andb_true_iff in Hu as [Hu _]. apply bool_decide_eq_true in Hu.
    pose proof (mark_columns_sets mark_unique mark_unique_tbls
                  mark_unique_keeps unique_marked unique_marked_stable mark_unique_sets
                  tables _ (Constraint.columns k) σ t table c Ht Htable Hname Hc) as H.
    intros col Hcol Hn. split; [intros; congruence|]. intros _ Hl. by apply (H col). }
  intros col Hcol Hn.
  assert (Constraint.columns k ≠ []) as Hne.
  { intros E. rewrite E in Hn. by apply elem_of_nil in Hn. }
  rewrite (bool_decide_eq_false_2 (Constraint.columns k = [])) in Hp, Hu by done.
  rewrite andb_true_r in Hp, Hu.
  apply bool_decide_eq_false in Hp, Hu. done.
Qed.

Lemma applied_keeps tables name k σ k' :
  applied tables name k σ → applied tables name k (apply_constraint tables σ k').
Proof.
  intros H t table c Ht Htable Hname Hc. rewrite apply_constraint_tbls in Htable.
  apply apply_constraint_keeps; [apply flagged_for_stable|]. by eapply H.
Qed.

(** The second loop of [_apply_constraints_to_columns]. *)
Lemma apply_constraints_spec tables (all : list Constraint.t) σ :
  Store.tbls (foldl (apply_constraint tables) σ all) = Store.tbls σ
  ∧ ∀ k, k ∈ all →
      applied tables (resolved_table_name k) k (foldl (apply_constraint tables) σ all).
Proof.
  split.
  - apply (foldl_preserve _ (λ σ', Store.tbls σ' = Store.tbls σ)); [|done].
    intros σ1 k E. by rewrite apply_constraint_tbls.
  - apply (foldl_establish (apply_constraint tables)
             (λ k σ', applied tables (resolved_table_name k) k σ')).
    + intros σ1 k. apply apply_constraint_sets.
    + intros σ1 k k' H. by apply applied_keeps.
Qed.


Lemma tagged_recognized (σ : Store.t) (t : loc) :
  Forall recognized (table_constraints σ t) → Forall recognized (tagged_constraints σ t).
Proof.
  unfold table_constraints, tagged_constraints.
  destruct (Store.tbls σ !! t) as [table|]; [|done].
  intros H. apply Forall_fmap. eapply Forall_impl; [exact H|]. by intros [].
Qed.

Lemma table_constraints_tbls (σ σ' : Store.t) (t : loc) :
  Store.tbls σ' = Store.tbls σ → table_constraints σ' t = table_constraints σ t.
Proof. unfold table_constraints. by intros ->. Qed.

(** The three phases of [process_constraints]. *)
Lemma process_constraints_phases (schema : SchemaDict.t) (h : state) (σ : Store.t) :
  let tables := SchemaDict.tables schema in
  let '(out, h', σ') := process_constraints schema h σ in
  ∃ h1 σ1 standalone,
    foldl process_table (h, σ) tables = (h1, σ1)
    ∧ SchemaDict.tables out = tables
    ∧ SchemaDict.constraints out = standalone
    ∧ SchemaDict.dropped_constraints out = Some (dropped_constraints h')
    ∧ SchemaDict.modified_constraints out = Some (modified_constraints h')
    ∧ SchemaDict.constraint_warnings out = Some (warnings_generated h')
    ∧ match SchemaDict.constraints schema with
      | Some cs => (Some (_process_standalone_constraints cs h1).1 = standalone
                    ∧ h' = (_process_standalone_constraints cs h1).2)
      | None => standalone = None ∧ h' = h1
      end
    ∧ σ' = foldl (apply_constraint tables)
             (foldl tag_table_constraints ([], σ1) tables).2
             ((foldl tag_table_constraints ([], σ1) tables).1 ++ default [] standalone).
Proof.
  intros tables. unfold process_constraints. fold tables.
  destruct (foldl process_table (h, σ) tables) as [h1 σ1].
  destruct (SchemaDict.constraints schema) as [cs|].
  - destruct (_process_standalone_constraints cs h1) as [l' h'] eqn:E.
    unfold _apply_constraints_to_columns. simpl.
    destruct (foldl tag_table_constraints ([], σ1) tables) as [all σ2] eqn:E2.
    exists h1, σ1, (Some l'). rewrite E, E2. by split_and!.
  - unfold _apply_constraints_to_columns. simpl.
    destruct (foldl tag_table_constraints ([], σ1) tables) as [all σ2] eqn:E2.
    exists h1, σ1, None. rewrite E2. by split_and!.
Qed.

(** C1: after [process_constraints] no constraint list of the result,
    table-level or standalone, holds a CHECK constraint or one of an
    unrecognized type, and the CHECK drop records of a fresh handler are as
    many as the CHECK constraints of the input. *)
Theorem check_constraints_dropped (schema : SchemaDict.t) (σ : Store.t) :
  let '(out, h', σ') := process_constraints schema init σ in
  Forall (λ t, Forall recognized (table_constraints σ' t)) (SchemaDict.tables out)
  ∧ Forall recognized (default [] (SchemaDict.constraints out))
  ∧ SchemaDict.dropped_constraints out = Some (dropped_constraints h')
  ∧ check_drops (dropped_constraints h') = input_checks schema σ.
Proof.
  pose proof (process_constraints_phases schema init σ) as H.
  destruct (process_constraints schema init σ) as [[out h'] σ'].
  destruct H as (h1 & σ1 & standalone & E1 & Ht & Hs & Hd & _ & _ & Hst & Hσ).
  pose proof (process_tables_spec (SchemaDict.tables schema) init σ) as H1.
  rewrite E1 in H1. destruct H1 as (_ & Hshape1 & _ & Hrec1 & Hn1).
  pose proof (tag_tables_spec (SchemaDict.tables schema) [] σ1) as H2.
  destruct (foldl tag_table_constraints ([], σ1) (SchemaDict.tables schema)) as [all σ2].
  destruct H2 as (_ & Hshape2 & _ & _ & Htag & _).
  simpl in Hσ.
  destruct (apply_constraints_spec (SchemaDict.tables schema)
              (all ++ default [] standalone) σ2) as [Htbls _].
  rewrite <-Hσ in Htbls.
  split_and!.
  - rewrite Ht. apply Forall_forall. intros t Hin.
    rewrite (table_constraints_tbls σ2 σ') by done.
    destruct (Store.tbls σ1 !! t) as [table|] eqn:Et.
    + rewrite Htag by (done || by eexists). apply tagged_recognized, Hrec1. by right.
    + unfold table_constraints. specialize (Hshape2 t). rewrite Et in Hshape2.
      by destruct (Store.tbls σ2 !! t).
  - rewrite Hs. destruct (SchemaDict.constraints schema) as [cs|].
    + destruct Hst as [<- _]. simpl.
      pose proof (process_standalone_constraints_spec cs h1) as H3.
      destruct (_process_standalone_constraints cs h1). by destruct H3.
    + destruct Hst as [-> _]. constructor.
  - done.
  - unfold input_checks. simpl in Hn1.
    destruct (SchemaDict.constraints schema) as [cs|]; simpl.
    + destruct Hst as [_ ->].
      pose proof (process_standalone_constraints_spec cs h1) as H3.
      destruct (_process_standalone_constraints cs h1). destruct H3 as [_ H3].
      simpl. rewrite H3, Hn1. done.
    + destruct Hst as [_ ->]. rewrite Hn1. unfold checks, count_checks. simpl. lia.
Qed.

Lemma resolved_tagged (name : string) (k : Constraint.t) :
  resolved_table_name (Constraint.set_source_table name k)
  = owning_table (Some name) (Constraint.set_source_table name k).
Proof. by destruct k as [? ? [[[|]|]|]]. Qed.

Lemma applied_owner tables (k : Constraint.t) σ :
  applied tables (resolved_table_name k) k σ → applied tables (owning_table None k) k σ.
Proof.
  unfold resolved_table_name, owning_table.
  destruct (Constraint.table_name k) as [[[|a r]|]|]; try done;
    intros _ t table c _ _ Hname; done.
Qed.

(** The constraints that survive have been applied to the columns. *)
Lemma surviving_constraints_applied (schema : SchemaDict.t) (h : state) (σ : Store.t) :
  let '(out, h', σ') := process_constraints schema h σ in
  (∀ t table k, t ∈ SchemaDict.tables out → Store.tbls σ' !! t = Some table →
     k ∈ Table.constraints table →
     applied (SchemaDict.tables out) (owning_table (Some (Table.table_name table)) k) k σ')
  ∧ (∀ k, k ∈ default [] (SchemaDict.constraints out) →
       applied (SchemaDict.tables out) (owning_table None k) k σ').
Proof.
  pose proof (process_constraints_phases schema h σ) as H.
  destruct (process_constraints schema h σ) as [[out h'] σ'].
  destruct H as (h1 & σ1 & standalone & E1 & Ht & Hs & _ & _ & _ & _ & Hσ).
  pose proof (tag_tables_spec (SchemaDict.tables schema) [] σ1) as H2.
  destruct (foldl tag_table_constraints ([], σ1) (SchemaDict.tables schema)) as [all σ2].
  destruct H2 as (_ & Hshape2 & Hall & _ & Htag & _).
  simpl in Hσ, Hall.
  destruct (apply_constraints_spec (SchemaDict.tables schema)
              (all ++ default [] standalone) σ2) as [Htbls Happ].
  rewrite <-Hσ in Htbls, Happ. rewrite Ht, Hs. split.
  - intros t table k Hin Htable Hk.
    assert (table_constraints σ' t = Table.constraints table) as Ec.
    { unfold table_constraints. by rewrite Htable. }
    rewrite (table_constraints_tbls σ2 σ') in Ec by done.
    rewrite Htbls in Htable. pose proof (Hshape2 t) as Hsh. rewrite Htable in Hsh.
    destruct (Store.tbls σ1 !! t) as [table1|] eqn:Et; [|done].
    injection Hsh as Hname Hcols.
    rewrite Htag in Ec by (done || by eexists).
    unfold tagged_constraints in Ec. rewrite Et in Ec.
    rewrite <-Ec in Hk. apply list_elem_of_fmap in Hk as (k0 & -> & Hk0).
    rewrite Hname, <-resolved_tagged. apply Happ.
    apply elem_of_app. left. rewrite Hall.
    apply list_elem_of_bind. exists t. split; [|done].
    unfold tagged_constraints. rewrite Et. rewrite <-Hname.
    by apply list_elem_of_fmap_2.
  - intros k Hk. apply applied_owner, Happ. apply elem_of_app. by right.
Qed.



End ConstraintHandlerProps.

(** ** Shared table and column dictionaries *)

Module SharingProps.
Import PyStr FoldFacts TypeMapper ConstraintSpec ConstraintHandlerProps SharingSpec.

Local Arguments transform_column : simpl never.
Local Arguments transform_table : simpl never.

Lemma transform_single_type_names ty dec tn cn tn' cn' (enums : gset string) :
  (_transform_single_type ty dec tn cn enums).1
  = (_transform_single_type ty dec tn' cn' enums).1.
Proof.
  reflexivity.
Qed.

(** One column of the loop of [transform_types]. *)
Lemma transform_column_spec dec enums name st σ c :
  let '(st', σ') := transform_column dec enums name (st, σ) c in
  Store.tbls σ' = Store.tbls σ
  ∧ (∀ c', c' ≠ c → Store.cols σ' !! c' = Store.cols σ !! c')
  ∧ (∀ col, Store.cols σ !! c = Some col →
       ∃ col', Store.cols σ' !! c = Some col'
               ∧ Column.column_name col' = Column.column_name col
               ∧ Column.data_type col'
                 = (_transform_single_type (Column.data_type col) dec name
                      (Column.column_name col) enums).1).
Proof.
  unfold transform_column.
  destruct (Store.cols σ !! c) as [column|] eqn:E.
  - destruct (_transform_single_type _ _ _ _ _) as [ty ws] eqn:Et.
    case_bool_decide; simpl.
    + split_and!; [done| |].
      * intros c' Hne. by rewrite lookup_insert_ne.
      * intros col [= <-]. rewrite lookup_insert_eq. eexists. split; [done|].
        rewrite Et. by destruct column.
    + split_and!; [done| |].
      * intros c' Hne. by rewrite lookup_insert_ne.
      * intros col [= <-]. rewrite lookup_insert_eq. eexists. split; [done|].
        rewrite Et. by destruct column.
  - split_and!; [done|done|]. by intros col.
Qed.

Lemma column_steps_tbls dec enums (l : list (string * loc)) acc :
  Store.tbls (foldl (column_step dec enums) acc l).2 = Store.tbls acc.2.
Proof.
  apply (foldl_preserve _ (λ acc', Store.tbls acc'.2 = Store.tbls acc.2)); [|done].
  intros [st σ] [n c] H. unfold column_step. simpl.
  pose proof (transform_column_spec dec enums n st σ c) as H1.
  destruct (transform_column dec enums n (st, σ) c) as [st' σ']. simpl in *.
  destruct H1 as [H1 _]. by rewrite H1.
Qed.

Lemma named_column_refs_tbls (σ σ' : Store.t) (tables : list loc) :
  Store.tbls σ' = Store.tbls σ → named_column_refs σ' tables = named_column_refs σ tables.
Proof. unfold named_column_refs. by intros ->. Qed.

Lemma transform_table_flat dec enums (t : loc) (acc : state * Store.t) :
  transform_table dec enums acc t
  = foldl (column_step dec enums) acc (named_column_refs acc.2 [t]).
Proof.
  unfold transform_table, named_column_refs. csimpl. rewrite app_nil_r.
  destruct (Store.tbls acc.2 !! t) as [table|]; [|done].
  by rewrite foldl_fmap.
Qed.

Lemma transform_tables_flat dec enums (tables : list loc) (acc : state * Store.t) :
  foldl (transform_table dec enums) acc tables
  = foldl (column_step dec enums) acc (named_column_refs acc.2 tables).
Proof.
  revert acc. induction tables as [|t tables IH]; intros acc; [done|].
  cbn [foldl]. rewrite IH, transform_table_flat.
  set (acc1 := foldl (column_step dec enums) acc (named_column_refs acc.2 [t])).
  rewrite (named_column_refs_tbls acc.2 acc1.2 tables) by apply column_steps_tbls.
  unfold acc1. rewrite <-foldl_app. f_equal.
  unfold named_column_refs. csimpl. by rewrite app_nil_r.
Qed.

(** A loop over distinct column references maps each of them once. *)
Lemma column_steps_spec dec enums (l : list (string * loc)) st σ :
  NoDup l.*2 →
  (∀ c, c ∉ l.*2 →
     Store.cols (foldl (column_step dec enums) (st, σ) l).2 !! c = Store.cols σ !! c)
  ∧ (∀ n c col, (n, c) ∈ l → Store.cols σ !! c = Some col →
       ∃ col', Store.cols (foldl (column_step dec enums) (st, σ) l).2 !! c = Some col'
               ∧ Column.data_type col'
                 = (_transform_single_type (Column.data_type col) dec n
                      (Column.column_name col) enums).1).
Proof.
  revert st σ. induction l as [|[n0 c0] l IH]; intros st σ Hnd; cbn [foldl].
  { split; [done|]. intros n c col H. by apply elem_of_nil in H. }
  apply NoDup_cons in Hnd as [Hc0 Hnd].
  change (column_step dec enums (st, σ) (n0, c0))
    with (transform_column dec enums n0 (st, σ) c0).
  pose proof (transform_column_spec dec enums n0 st σ c0) as H1.
  destruct (transform_column dec enums n0 (st, σ) c0) as [st1 σ1].
  destruct H1 as (_ & Hf1 & Hs1). destruct (IH st1 σ1 Hnd) as [Hf Hs]. split.
  - intros c Hc. csimpl in Hc. apply not_elem_of_cons in Hc as [Hne Hc].
    rewrite Hf by done. by apply Hf1.
  - intros n c col Hin Hcol. apply elem_of_cons in Hin as [[= -> ->]|Hin].
    + destruct (Hs1 col Hcol) as (col' & H1 & _ & H2).
      exists col'. split; [|done]. by rewrite Hf.
    + apply (Hs n c col Hin). rewrite Hf1; [done|].
      intros ->. apply Hc0. apply list_elem_of_fmap. by exists (n, c0).
Qed.


Lemma named_column_refs_snd (σ : Store.t) (tables : list loc) :
  (named_column_refs σ tables).*2 = column_refs σ tables.
Proof.
  unfold named_column_refs, column_refs.
  induction tables as [|t tables IH]; [done|]. csimpl. rewrite fmap_app, IH. f_equal.
  destruct (Store.tbls σ !! t) as [table|]; [|done].
  rewrite <-list_fmap_compose. apply list_fmap_id.
Qed.

(** [transform_types] on the shared column dictionaries. *)
Lemma transform_types_spec (schema : SchemaDict.t) decisions (st : state) (σ : Store.t) :
  let '(out, st', σ') := transform_types schema decisions st σ in
  SchemaDict.tables out = SchemaDict.tables schema
  ∧ SchemaDict.type_transformations out = Some (transformations_applied st')
  ∧ Store.tbls σ' = Store.tbls σ
  ∧ (NoDup (column_refs σ (SchemaDict.tables schema)) →
     ∀ c col, c ∈ column_refs σ (SchemaDict.tables schema) →
       Store.cols σ !! c = Some col →
       ∃ col', Store.cols σ' !! c = Some col'
               ∧ Column.data_type col'
                 = mapped_type decisions (SchemaDict.enums schema) (Column.data_type col)).
Proof.
  unfold transform_types.
  set (dec := default _ decisions). set (enums := list_to_set _).
  rewrite transform_tables_flat. cbn [snd].
  pose proof (column_steps_tbls dec enums
                (named_column_refs σ (SchemaDict.tables schema)) (st, σ)) as Htb.
  pose proof (column_steps_spec dec enums
                (named_column_refs σ (SchemaDict.tables schema)) st σ) as Hsp.
  destruct (foldl (column_step dec enums) (st, σ) _) as [st' σ'].
  split_and!; [done..|].
  rewrite named_column_refs_snd in Hsp. intros Hnd c col Hc Hcol.
  destruct (Hsp Hnd) as [_ Hs].
  rewrite <-named_column_refs_snd in Hc.
  apply list_elem_of_fmap in Hc as ([n c'] & -> & Hin).
  destruct (Hs n c' col Hin Hcol) as (col' & H1 & H2).
  exists col'. split; [done|]. rewrite H2. apply transform_single_type_names.
Qed.

Import ConstraintHandler.

Lemma process_single_keeps_pk (k : Constraint.t) tn (h : ConstraintHandler.state) :
  Constraint.constraint_type k = Some "p" →
  (_process_single_constraint k tn h).1 = Some k.
Proof. intros H. unfold _process_single_constraint. by rewrite H. Qed.

Lemma process_table_constraints_keeps_pk (l : list Constraint.t) name
    (h : ConstraintHandler.state) (k : Constraint.t) :
  k ∈ l → Constraint.constraint_type k = Some "p" →
  k ∈ (_process_table_constraints l name h).1.
Proof.
  revert h. induction l as [|c l IH]; intros h Hin Hp; [by apply elem_of_nil in Hin|].
  simpl. destruct (_process_single_constraint c (Some name) h) as [r h1] eqn:E1.
  specialize (IH h1). destruct (_process_table_constraints l name h1) as [l' h'].
  simpl in *. apply elem_of_cons in Hin as [->|Hin].
  - rewrite (surjective_pairing (_process_single_constraint _ _ _)) in E1.
    rewrite process_single_keeps_pk in E1 by done. injection E1 as <- _. by left.
  - destruct r; [right|]; by apply IH.
Qed.

Lemma process_tables_keep_pk (l : list loc) (h : ConstraintHandler.state) (σ : Store.t)
    (t : loc) (k : Constraint.t) :
  k ∈ table_constraints σ t → Constraint.constraint_type k = Some "p" →
  k ∈ table_constraints (foldl process_table (h, σ) l).2 t.
Proof.
  intros Hin Hp.
  apply (foldl_preserve _ (λ acc, k ∈ table_constraints acc.2 t)); [|done].
  intros [h1 σ1] t0 H. simpl in H. unfold process_table.
  destruct (Store.tbls σ1 !! t0) as [table|] eqn:Et; [|done].
  pose proof (process_table_constraints_keeps_pk (Table.constraints table)
                (Table.table_name table) h1 k) as Hk.
  destruct (_process_table_constraints _ _ h1) as [l' h']. simpl in *.
  destruct (decide (t0 = t)) as [->|Hne].
  - rewrite table_constraints_set_eq. simpl. apply Hk; [|done].
    unfold table_constraints in H. by rewrite Et in H.
  - by rewrite table_constraints_set_ne.
Qed.

(** [process_constraints] on the shared table and column dictionaries: the
    tables of the input keep their names and column references, and the
    columns named in a primary-key constraint of an input table carry the
    flags afterwards. *)
Lemma process_constraints_shares (schema : SchemaDict.t) (h : ConstraintHandler.state)
    (σ : Store.t) :
  let '(out, h', σ') := process_constraints schema h σ in
  SchemaDict.tables out = SchemaDict.tables schema
  ∧ same_shape σ σ'
  ∧ ∀ t table k c col', t ∈ SchemaDict.tables schema →
      Store.tbls σ !! t = Some table → k ∈ Table.constraints table →
      Constraint.constraint_type k = Some "p" →
      owning_table (Some (Table.table_name table)) k = Some (Table.table_name table) →
      c ∈ Table.columns table → Store.cols σ' !! c = Some col' →
      Column.column_name col' ∈ Constraint.columns k →
      Column.is_primary_key col' = Some true ∧ Column.is_nullable col' = Some false.
Proof.
  pose proof (surviving_constraints_applied schema h σ) as HC8.
  pose proof (process_constraints_phases schema h σ) as H.
  destruct (process_constraints schema h σ) as [[out h'] σ'].
  destruct H as (h1 & σ1 & standalone & E1 & Ht & Hs & _ & _ & _ & _ & Hσ).
  pose proof (process_tables_spec (SchemaDict.tables schema) h σ) as H1.
  pose proof (process_tables_keep_pk (SchemaDict.tables schema) h σ) as Hkeep.
  rewrite E1 in H1, Hkeep. destruct H1 as (_ & Hshape1 & _).
  pose proof (tag_tables_spec (SchemaDict.tables schema) [] σ1) as H2.
  destruct (foldl tag_table_constraints ([], σ1) (SchemaDict.tables schema)) as [all σ2].
  destruct H2 as (_ & Hshape2 & _ & _ & Htag & _).
  simpl in Hσ, Hkeep.
  destruct (apply_constraints_spec (SchemaDict.tables schema)
              (all ++ default [] standalone) σ2) as [Htbls _].
  rewrite <-Hσ in Htbls.
  assert (same_shape σ σ') as Hshape.
  { intros t. rewrite Htbls. by rewrite Hshape2, Hshape1. }
  split_and!; [done..|].
  intros t table k c col' Hin Htable Hk Hp Hown Hc Hcol Hname.
  destruct HC8 as [HC8 _]. rewrite Ht in HC8.
  pose proof (Hshape t) as Hsh. rewrite Htable in Hsh.
  destruct (Store.tbls σ' !! t) as [table'|] eqn:Et'; [|done].
  injection Hsh as Hn' Hc'.
  pose proof (Hshape1 t) as Hsh1. rewrite Htable in Hsh1.
  destruct (Store.tbls σ1 !! t) as [table1|] eqn:Et1; [|done].
  injection Hsh1 as Hn1 Hc1.
  set (k' := Constraint.set_source_table (Table.table_name table) k).
  assert (k' ∈ Table.constraints table') as Hk'.
  { assert (table_constraints σ' t = Table.constraints table') as <-.
    { unfold table_constraints. by rewrite Et'. }
    rewrite (table_constraints_tbls σ2 σ') by done.
    rewrite Htag by (done || by eexists).
    unfold tagged_constraints. rewrite Et1, Hn1. apply list_elem_of_fmap_2.
    assert (table_constraints σ1 t = Table.constraints table1) as <-.
    { unfold table_constraints. by rewrite Et1. }
    apply Hkeep; [|done]. unfold table_constraints. by rewrite Htable. }
  assert (owning_table (Some (Table.table_name table')) k' = Some (Table.table_name table'))
    as Hown'.
  { rewrite Hn'. unfold k'. by destruct k. }
  specialize (HC8 t table' k' Hin Et' Hk' t table' c Hin Et').
  rewrite Hown' in HC8. rewrite Hc' in HC8.
  specialize (HC8 eq_refl Hc col' Hcol).
  assert (Column.column_name col' ∈ Constraint.columns k') as Hname' by by destruct k.
  destruct (HC8 Hname') as [HP _]. apply HP. by destruct k.
Qed.




End SharingProps.

(** ** Relationship builder *)

Module RelationshipBuilderProps.
Import PyStr FoldFacts RelationshipBuilder RelationshipSpec.

Lemma column_dict_lookup (cols : list Column.t) (name : string) (c : Column.t) :
  column_dict cols !! name = Some c → c ∈ cols ∧ Column.column_name c = name.
Proof.
  unfold column_dict. induction cols as [|a cols IH] using rev_ind; [done|].
  rewrite foldl_snoc.
  destruct (decide (Column.column_name a = name)) as [<-|Hne].
  - rewrite lookup_insert_eq. intros [= <-]. split; [|done].
    apply elem_of_app. right. by left.
  - rewrite lookup_insert_ne by done. intros [H1 H2]%IH. split; [|done].
    apply elem_of_app. by left.
Qed.

Lemma table_lookup_some (tables : list (Table.t Column.t)) (name : string) (info : table_info) :
  _create_table_lookup tables !! name = Some info →
  table info ∈ tables ∧ Table.table_name (table info) = name
  ∧ columns info = column_dict (Table.columns (table info)).
Proof.
  unfold _create_table_lookup. induction tables as [|a tables IH] using rev_ind; [done|].
  rewrite foldl_snoc.
  destruct (decide (Table.table_name a = name)) as [<-|Hne].
  - rewrite lookup_insert_eq. intros [= <-]. split; [|done].
    apply elem_of_app. right. by left.
  - rewrite lookup_insert_ne by done. intros (H1 & H2 & H3)%IH. split; [|done].
    apply elem_of_app. by left.
Qed.

Lemma table_lookup_none (tables : list (Table.t Column.t)) (name : string) :
  _create_table_lookup tables !! name = None ↔ ¬ table_present tables name.
Proof.
  unfold _create_table_lookup, table_present.
  induction tables as [|a tables IH] using rev_ind.
  { split; [|done]. intros _ (t & Ht & _). by apply elem_of_nil in Ht. }
  rewrite foldl_snoc.
  destruct (decide (Table.table_name a = name)) as [<-|Hne].
  - rewrite lookup_insert_eq. split; [done|]. intros H. exfalso. apply H.
    exists a. split; [|done]. apply elem_of_app. right. by left.
  - rewrite lookup_insert_ne by done. rewrite IH. split.
    + intros H (t & Ht & Hn). apply elem_of_app in Ht as [Ht|Ht].
      * apply H. by exists t.
      * apply list_elem_of_singleton in Ht. by subst.
    + intros H (t & Ht & Hn). apply H. exists t. split; [|done].
      apply elem_of_app. by left.
Qed.

Lemma columns_found (tables : list (Table.t Column.t)) name info (cols : list string) :
  _create_table_lookup tables !! name = Some info →
  filter (λ col, columns info !! col = None) cols = [] →
  columns_present tables name cols.
Proof.
  intros (Hin & Hname & Hcols)%table_lookup_some Hf.
  exists (table info). split_and!; [done..|].
  intros col Hcol.
  destruct (columns info !! col) as [c|] eqn:E.
  - rewrite Hcols in E. apply column_dict_lookup in E as [? ?]. by exists c.
  - assert (col ∈ filter (λ col, columns info !! col = None) cols) as H
      by by apply list_elem_of_filter.
    rewrite Hf in H. by apply elem_of_nil in H.
Qed.


Local Arguments _determine_relationship_type : simpl never.

Lemma skipped_generate_warning m st :
  skipped_relationships (_generate_warning m st) = skipped_relationships st
  ∧ built_relationships (_generate_warning m st) = built_relationships st.
Proof. done. Qed.

Lemma determine_state r si ti st :
  skipped_relationships (_determine_relationship_type r si ti st).2 = skipped_relationships st
  ∧ built_relationships (_determine_relationship_type r si ti st).2 = built_relationships st.
Proof.
  unfold _determine_relationship_type.
  destruct (_columns_are_unique _ si && _columns_are_unique _ ti); [done|].
  by destruct (_columns_are_unique _ ti).
Qed.

Lemma build_single_spec r (lookup : gmap string table_info) st :
  match _build_single_relationship r lookup st with
  | (Some b, st') =>
      skipped_relationships st' = skipped_relationships st
      ∧ built_relationships st' = built_relationships st
      ∧ ∃ si ti, validated lookup r b si ti
          ∧ b_relationship_type b = (_determine_relationship_type r si ti st).1
          ∧ (∀ w, w ∈ relationship_warnings (_determine_relationship_type r si ti st).2 →
                  w ∈ relationship_warnings st')
  | (None, st') =>
      built_relationships st' = built_relationships st
      ∧ ∃ reason skip_type,
          skipped_relationships st'
          = skipped_relationships st
            ++ [mk_skip r reason skip_type (source_table r) (target_table r)]
          ∧ (lookup !! source_table r = None → skip_type = "MISSING_SOURCE_TABLE")
          ∧ (is_Some (lookup !! source_table r) → lookup !! target_table r = None →
             skip_type = "MISSING_TARGET_TABLE")
  end.
Proof.
  unfold _build_single_relationship.
  destruct (lookup !! source_table r) as [si|] eqn:Es.
  2:{ split; [done|]. eexists _, _. split; [reflexivity|]. split; [reflexivity|].
      intros [? H]. discriminate H. }
  destruct (lookup !! target_table r) as [ti|] eqn:Et.
  2:{ split; [done|]. eexists _, _. split; [reflexivity|]. split; [intros H; discriminate H|reflexivity]. }
  case_bool_decide as Hms; simpl.
  2:{ split; [done|]. eexists _, _. split; [reflexivity|].
      split; [intros H; discriminate H|intros _ H; discriminate H]. }
  case_bool_decide as Hmt; simpl.
  2:{ split; [done|]. eexists _, _. split; [reflexivity|].
      split; [intros H; discriminate H|intros _ H; discriminate H]. }
  case_bool_decide as Hlen; simpl.
  2:{ split; [done|]. eexists _, _. split; [reflexivity|].
      split; [intros H; discriminate H|intros _ H; discriminate H]. }
  destruct (determine_state r si ti st) as [Hsk Hbu].
  destruct (_determine_relationship_type r si ti st) as [ty st1] eqn:Ed. simpl in *.
  split_and!.
  - by repeat case_bool_decide.
  - by repeat case_bool_decide.
  - exists si, ti. rewrite Ed. split; [by repeat split|]. split; [done|].
    intros w Hw. repeat case_bool_decide; simpl;
      repeat (apply elem_of_app; left); done.
Qed.


Local Arguments _build_single_relationship : simpl never.

Lemma validated_endpoints tables r b si ti :
  validated (_create_table_lookup tables) r b si ti → endpoints_exist tables b.
Proof.
  intros (Hs & Ht & Hms & Hmt & E1 & E2 & E3 & E4).
  unfold endpoints_exist. rewrite E1, E2, E3, E4. split; by eapply columns_found.
Qed.

(** One iteration of the loop of [build_relationships]. *)
Lemma build_step_spec tables r st :
  let lookup := _create_table_lookup tables in
  let st' := build_step lookup st r in
  (∀ b, b ∈ built_relationships st' →
        b ∈ built_relationships st ∨ endpoints_exist tables b)
  ∧ (∀ sk, sk ∈ skipped_relationships st → sk ∈ skipped_relationships st')
  ∧ (¬ table_present tables (source_table r) → skipped_as st' r "MISSING_SOURCE_TABLE")
  ∧ (table_present tables (source_table r) → ¬ table_present tables (target_table r) →
     skipped_as st' r "MISSING_TARGET_TABLE").
Proof.
  intros lookup st'. unfold st', build_step.
  pose proof (build_single_spec r lookup st) as H.
  destruct (_build_single_relationship r lookup st) as [[b|] st1].
  - destruct H as (Hsk & Hbu & si & ti & Hv & _). simpl. split_and!.
    + intros b' [Hb|Hb]%elem_of_app.
      * left. by rewrite <-Hbu.
      * apply list_elem_of_singleton in Hb as ->. right. by eapply validated_endpoints.
    + intros sk Hsk'. by rewrite Hsk.
    + intros Hn. apply table_lookup_none in Hn. destruct Hv as [Hv _].
      unfold lookup in Hv. by rewrite Hn in Hv.
    + intros _ Hn. apply table_lookup_none in Hn. destruct Hv as (_ & Hv & _).
      unfold lookup in Hv. by rewrite Hn in Hv.
  - destruct H as (Hbu & reason & ty & Hsk & Hsrc & Htgt). split_and!.
    + intros b Hb. left. by rewrite <-Hbu.
    + intros sk Hsk'. rewrite Hsk. apply elem_of_app. by left.
    + intros Hn. apply table_lookup_none in Hn.
      exists (mk_skip r reason ty (source_table r) (target_table r)).
      split; [|split; [done|]].
      * rewrite Hsk. apply elem_of_app. right. by left.
      * simpl. by apply Hsrc.
    + intros Hs Hn. apply table_lookup_none in Hn.
      exists (mk_skip r reason ty (source_table r) (target_table r)).
      split; [|split; [done|]].
      * rewrite Hsk. apply elem_of_app. right. by left.
      * simpl. apply Htgt; [|done].
        destruct (lookup !! source_table r) eqn:E; [by eexists|].
        by apply table_lookup_none in E.
Qed.

Lemma skipped_as_mono st st' r ty :
  (∀ sk, sk ∈ skipped_relationships st → sk ∈ skipped_relationships st') →
  skipped_as st r ty → skipped_as st' r ty.
Proof. intros H (sk & Hsk & ? & ?). exists sk. split; [by apply H|done]. Qed.

(** The loop of [build_relationships]. *)
Lemma build_steps_spec tables (rs : list relationship) st :
  let lookup := _create_table_lookup tables in
  let st' := foldl (build_step lookup) st rs in
  (∀ b, b ∈ built_relationships st' →
        b ∈ built_relationships st ∨ endpoints_exist tables b)
  ∧ (∀ sk, sk ∈ skipped_relationships st → sk ∈ skipped_relationships st')
  ∧ (∀ r, r ∈ rs →
       (¬ table_present tables (source_table r) → skipped_as st' r "MISSING_SOURCE_TABLE")
       ∧ (table_present tables (source_table r) →
          ¬ table_present tables (target_table r) →
          skipped_as st' r "MISSING_TARGET_TABLE")).
Proof.
  intros lookup. revert st. induction rs as [|r0 rs IH]; intros st; cbn [foldl].
  { split_and!; [by left|done|]. intros r Hr. by apply elem_of_nil in Hr. }
  destruct (build_step_spec tables r0 st) as (Hb1 & Hm1 & Hs1 & Ht1).
  fold lookup in Hb1, Hm1, Hs1, Ht1.
  destruct (IH (build_step lookup st r0)) as (Hb & Hm & Hr). split_and!.
  - intros b Hin. destruct (Hb b Hin) as [H|H]; [by apply Hb1|by right].
  - intros sk Hsk. by apply Hm, Hm1.
  - intros r [->|Hin]%elem_of_cons; [|by apply Hr].
    split.
    + intros Hn. eapply skipped_as_mono; [exact Hm|]. by apply Hs1.
    + intros Hp Hn. eapply skipped_as_mono; [exact Hm|]. by apply Ht1.
Qed.

Lemma dedup_go_spec (rels : list built) (seen : gset signature) (dedup : list built)
    (st : state) :
  let '(res, st') := dedup_go rels seen dedup st in
  (∀ b, b ∈ res → b ∈ dedup ∨ b ∈ rels)
  ∧ skipped_relationships st' = skipped_relationships st.
Proof.
  revert seen dedup st. induction rels as [|rel rels IH]; intros seen dedup st; simpl.
  { split; [by left|done]. }
  case_bool_decide.
  - specialize (IH ({[_create_relationship_signature rel]} ∪ seen) (dedup ++ [rel]) st).
    destruct (dedup_go rels _ _ st) as [res st']. destruct IH as [Hb Hs]. split; [|done].
    intros b Hin. destruct (Hb b Hin) as [[H1|H1]%elem_of_app|H1].
    + by left.
    + apply list_elem_of_singleton in H1 as ->. right. by left.
    + right. by right.
  - specialize (IH seen dedup (_generate_warning
                                ("Duplicate relationship " +:+ b_source_table rel +:+ " -> " +:+
                                 b_target_table rel +:+ " removed") st)).
    destruct (dedup_go rels seen dedup _) as [res st']. destruct IH as [Hb Hs].
    split; [|done]. intros b Hin. destruct (Hb b Hin) as [H1|H1]; [by left|].
    right. by right.
Qed.

(** [build_relationships]: what is returned and what is recorded. *)
Lemma build_relationships_spec (relationships : list relationship)
    (tables : list (Table.t Column.t)) (st : state) :
  let '(res, st') := build_relationships relationships tables st in
  res = built_relationships st'
  ∧ Forall (endpoints_exist tables) res
  ∧ (∀ r, r ∈ relationships →
       (¬ table_present tables (source_table r) → skipped_as st' r "MISSING_SOURCE_TABLE")
       ∧ (table_present tables (source_table r) →
          ¬ table_present tables (target_table r) →
          skipped_as st' r "MISSING_TARGET_TABLE")).
Proof.
  unfold build_relationships, _deduplicate_relationships.
  pose proof (build_steps_spec tables relationships (mk_state [] [] [])) as H.
  simpl in H. set (st1 := foldl _ _ relationships) in *.
  destruct H as (Hb & _ & Hr).
  pose proof (dedup_go_spec (built_relationships st1) ∅ [] st1) as Hd.
  destruct (dedup_go (built_relationships st1) ∅ [] st1) as [res st2].
  destruct Hd as [Hd Hsk]. simpl. split_and!; [done| |].
  - apply Forall_forall. intros b Hin.
    destruct (Hd b Hin) as [H|H]; [by apply elem_of_nil in H|].
    destruct (Hb b H) as [H'|H']; [by apply elem_of_nil in H'|done].
  - intros r Hin. destruct (Hr r Hin) as [H1 H2].
    split; intros; (eapply skipped_as_mono; [|by eauto]); simpl; by rewrite Hsk.
Qed.

Lemma endpoints_exclude tables res r :
  Forall (endpoints_exist tables) res → ¬ table_present tables (target_table r) →
  excluded res r.
Proof.
  intros HF Hn b Hb Hsig. rewrite Forall_forall in HF.
  destruct (HF b Hb) as [_ (t & Ht & Hname & _)].
  apply Hn. exists t. split; [done|].
  unfold _create_relationship_signature in Hsig. by injection Hsig as _ _ <- _.
Qed.

(** C2, second half as stated, fails: a candidate whose source table is
    missing as well is recorded as MISSING_SOURCE_TABLE. *)
Lemma missing_target_not_always_reported : ¬ missing_target_always_reported.
Proof.
  intros H.
  set (r := mk_relationship "orders" ["user_id"] "users" ["id"] None None None).
  specialize (H [r] [] (mk_state [] [] []) r).
  assert (r ∈ [r]) as Hin by apply list_elem_of_here.
  assert (¬ table_present [] (target_table r)) as Hn.
  { intros (t & Ht & _). by apply elem_of_nil in Ht. }
  specialize (H Hin Hn). vm_compute in H. destruct H as [_ (sk & Hsk & _ & Hty)].
  apply list_elem_of_singleton in Hsk. subst sk. discriminate Hty.
Qed.

(** C2, amended: every relationship returned by [build_relationships] has
    its source and target tables in the table list with all its source and
    target columns; a candidate whose source table exists and whose target
    table does not is excluded from the result and recorded as skipped
    with type MISSING_TARGET_TABLE (if the source table is missing too, the
    type is MISSING_SOURCE_TABLE). *)
Theorem built_relationships_have_endpoints (relationships : list relationship)
    (tables : list (Table.t Column.t)) (st : state) :
  let '(res, st') := build_relationships relationships tables st in
  Forall (endpoints_exist tables) res
  ∧ ∀ r, r ∈ relationships → ¬ table_present tables (target_table r) →
      excluded res r
      ∧ (table_present tables (source_table r) → skipped_as st' r "MISSING_TARGET_TABLE")
      ∧ (¬ table_present tables (source_table r) →
         skipped_as st' r "MISSING_SOURCE_TABLE").
Proof.
  pose proof (build_relationships_spec relationships tables st) as H.
  destruct (build_relationships relationships tables st) as [res st'].
  destruct H as (_ & HF & Hr). split; [done|].
  intros r Hin Hn. destruct (Hr r Hin) as [H1 H2]. split_and!.
  - by eapply endpoints_exclude.
  - intros Hp. by apply H2.
  - done.
Qed.


Lemma built_relationships_have_endpoints_witness :
  let '(res, st') := build_relationships [order_user; order_ghost] shop_tables
                       (mk_state [] [] []) in
  length res = 1
  ∧ Forall (endpoints_exist shop_tables) res
  ∧ excluded res order_ghost
  ∧ skipped_as st' order_ghost "MISSING_TARGET_TABLE".
Proof.
  pose proof (built_relationships_have_endpoints [order_user; order_ghost] shop_tables
                (mk_state [] [] [])) as H.
  assert (length (build_relationships [order_user; order_ghost] shop_tables
                    (mk_state [] [] [])).1 = 1) as Hlen by (vm_compute; reflexivity).
  destruct (build_relationships [order_user; order_ghost] shop_tables (mk_state [] [] []))
    as [res st'].
  destruct H as [HF H].
  assert (order_ghost ∈ [order_user; order_ghost]) as Hin
    by (apply list_elem_of_further, list_elem_of_here).
  assert (¬ table_present shop_tables (target_table order_ghost)) as Hn.
  { intros (t & Ht & Hname).
    repeat (apply elem_of_cons in Ht as [->|Ht]; [discriminate Hname|]).
    by apply elem_of_nil in Ht. }
  assert (table_present shop_tables (source_table order_ghost)) as Hp.
  { eexists. split; [apply list_elem_of_further, list_elem_of_here|reflexivity]. }
  destruct (H order_ghost Hin Hn) as (H1 & H2 & _).
  split; [exact Hlen|]. split; [exact HF|]. split; [exact H1|]. exact (H2 Hp).
Defined.

Lemma pk_columns_fold (l : list Constraint.t) (acc : gset string) :
  foldl (λ acc c, if bool_decide (Constraint.constraint_type c = Some "p")
                  then acc ∪ column_set (Constraint.columns c) else acc) acc l
  = acc ∪ ⋃ ((λ c, column_set (Constraint.columns c))
               <$> List.filter (λ c, bool_decide (Constraint.constraint_type c = Some "p")) l).
Proof.
  revert acc. induction l as [|c l IH]; intros acc; simpl.
  { by rewrite (right_id_L ∅ (∪)). }
  rewrite IH. destruct (bool_decide (Constraint.constraint_type c = Some "p")); [|done].
  csimpl. by rewrite (assoc_L (∪)).
Qed.

(** [_columns_are_unique] decides the uniqueness the classification is
    specified with. *)
Lemma columns_are_unique_spec (cols : list string) (info : table_info) :
  _columns_are_unique cols info = true ↔ unique_in cols info.
Proof.
  unfold _columns_are_unique, unique_in.
  rewrite pk_columns_fold, (left_id_L ∅ (∪)). fold (pk_column_set (table info)).
  case_bool_decide as Hpk; [by split; [left|]|].
  destruct (existsb _ (Table.constraints (table info))) eqn:Hex.
  { split; [|done]. intros _. right. left.
    apply existsb_exists in Hex as (c & Hc & [H1 H2]%andb_true_iff).
    apply bool_decide_eq_true in H1, H2. exists c. by rewrite list_elem_of_In. }
  assert (¬ ∃ c, c ∈ Table.constraints (table info)
                 ∧ Constraint.constraint_type c = Some "u"
                 ∧ column_set cols = column_set (Constraint.columns c)) as Hnu.
  { intros (c & Hc & H1 & H2).
    assert (existsb (λ c, bool_decide (Constraint.constraint_type c = Some "u")
                          && bool_decide (column_set cols = column_set (Constraint.columns c)))
              (Table.constraints (table info)) = true) as Ht; [|congruence].
    apply existsb_exists. exists c. rewrite <-list_elem_of_In. split; [done|].
    by rewrite !bool_decide_eq_true_2. }
  destruct cols as [|name [|name2 cols]].
  - split; [done|]. intros [?|[?|(n & c & E & _)]]; done.
  - destruct (columns info !! name) as [column|] eqn:Ecol.
    + rewrite orb_true_iff, !bool_decide_eq_true. split.
      * intros H. right. right. by exists name, column.
      * intros [?|[?|(n & c & [= <-] & E & H)]]; [done..|]. by simplify_eq.
    + split; [done|]. intros [?|[?|(n & c & [= <-] & E & H)]]; [done..|]. by simplify_eq.
  - split; [done|]. intros [?|[?|(n & c & E & _)]]; done.
Qed.

(** C4: a candidate that passes the endpoint validation is classified
    one-to-one when both column lists are unique in their tables,
    many-to-one when only the target side is, and many-to-one with the
    unusual-foreign-key warning when neither side is. *)
Theorem cardinality_classification (r : relationship) (lookup : gmap string table_info)
    (st st' : state) (b : built) :
  _build_single_relationship r lookup st = (Some b, st') →
  ∃ si ti, lookup !! source_table r = Some si ∧ lookup !! target_table r = Some ti
    ∧ (unique_in (source_columns r) si → unique_in (target_columns r) ti →
       b_relationship_type b = "one-to-one")
    ∧ (¬ unique_in (source_columns r) si → unique_in (target_columns r) ti →
       b_relationship_type b = "many-to-one")
    ∧ (¬ unique_in (source_columns r) si → ¬ unique_in (target_columns r) ti →
       b_relationship_type b = "many-to-one"
       ∧ unusual_warning r ∈ relationship_warnings st').
Proof.
  intros E. pose proof (build_single_spec r lookup st) as H. rewrite E in H.
  destruct H as (_ & _ & si & ti & (Hs & Ht & _) & Hty & Hw).
  exists si, ti. split; [done|]. split; [done|].
  rewrite Hty. unfold _determine_relationship_type in *.
  rewrite <-!columns_are_unique_spec.
  destruct (_columns_are_unique (source_columns r) si),
           (_columns_are_unique (target_columns r) ti); simpl in *;
    split_and!; try done.
  - intros _ _. split; [done|]. apply Hw, elem_of_app. right. by left.
Qed.

Lemma cardinality_classification_witness :
  ∃ b st' si ti,
    _build_single_relationship order_user (_create_table_lookup shop_tables)
      (mk_state [] [] []) = (Some b, st')
    ∧ ¬ unique_in (source_columns order_user) si
    ∧ unique_in (target_columns order_user) ti
    ∧ b_relationship_type b = "many-to-one".
Proof.
  destruct (_build_single_relationship order_user (_create_table_lookup shop_tables)
              (mk_state [] [] [])) as [[b|] st'] eqn:E; [|by vm_compute in E].
  destruct (cardinality_classification order_user (_create_table_lookup shop_tables)
              (mk_state [] [] []) st' b E) as (si & ti & Hs & Ht & _ & H & _).
  exists b, st', si, ti. split; [reflexivity|].
  assert (¬ unique_in (source_columns order_user) si) as Hns.
  { intros Hu. apply columns_are_unique_spec in Hu.
    vm_compute in Hs. injection Hs as <-. by vm_compute in Hu. }
  assert (unique_in (target_columns order_user) ti) as Hut.
  { apply columns_are_unique_spec.
    vm_compute in Ht. injection Ht as <-. by vm_compute. }
  split; [exact Hns|]. split; [exact Hut|]. exact (H Hns Hut).
Defined.

End RelationshipBuilderProps.

(** ** SQL parser *)

Module SQLParserProps.
Import PyStr FoldFacts SQLParser ParserSpec.

Lemma take_length_le (n : nat) (s : string) : String.length (take n s) ≤ n.
Proof.
  revert s. induction n as [|n IH]; intros [|c s]; simpl; try lia.
  specialize (IH s). lia.
Qed.

Section Props.
Context {statement_obj table_info relationship constraint_info
         index_info sequence_info enum_info : Type}.
Variable str : statement_obj → string.
Variable sqlparse_parse : string → result (list statement_obj).
Variables _parse_create_table _parse_alter_table _parse_create_index
          _parse_create_sequence _parse_create_enum :
  parser_fn statement_obj table_info relationship constraint_info
    index_info sequence_info enum_info.

Local Abbreviation pstate := (state table_info relationship constraint_info
                     index_info sequence_info enum_info).
Local Abbreviation PM := (M table_info relationship constraint_info
                 index_info sequence_info enum_info).
Local Abbreviation extract_one := (extract_one sqlparse_parse _parse_create_table).
Local Abbreviation _parse_statement :=
  (_parse_statement str _parse_alter_table _parse_create_index
     _parse_create_sequence _parse_create_enum).
Local Abbreviation dispatch :=
  (dispatch _parse_alter_table _parse_create_index
     _parse_create_sequence _parse_create_enum).
Local Abbreviation run_extract := (run_extract sqlparse_parse _parse_create_table).
Local Abbreviation run_statements :=
  (run_statements str _parse_alter_table _parse_create_index
     _parse_create_sequence _parse_create_enum).
Local Abbreviation create_table_raises := (create_table_raises sqlparse_parse _parse_create_table).
Local Abbreviation statement_raises :=
  (statement_raises str _parse_alter_table _parse_create_index
     _parse_create_sequence _parse_create_enum).

Lemma logs_same (st st' : pstate) : parsing_errors st' = parsing_errors st → logs st st'.
Proof. intros E. split; rewrite E; [done|]. intros r Hr. by left. Qed.

Lemma logs_refl (st : pstate) : logs st st.
Proof. by apply logs_same. Qed.

Lemma logs_trans (st1 st2 st3 : pstate) : logs st1 st2 → logs st2 st3 → logs st1 st3.
Proof.
  intros [H1 H1'] [H2 H2']. split; [by etrans|].
  intros r Hr. destruct (H2' r Hr) as [H|H]; [by apply H1'|by right].
Qed.

Lemma call_errors f (st : pstate) :
  parsing_errors (call f st).2 = parsing_errors st.
Proof. unfold call. by destruct (f (acc st)). Qed.

(** A guarded body: it returns, the log grows by at most the entry of the
    exception thrown. *)
Lemma guarded_spec (body : PM unit) (excerpt context : string) (st : pstate) :
  (∀ st, parsing_errors (body st).2 = parsing_errors st) →
  String.length excerpt ≤ 200 →
  let m := try_except body (λ e, record_error (mk_error e (Some excerpt) context)) in
  (m st).1 = Ok tt
  ∧ logs st (m st).2
  ∧ ∀ e, (body st).1 = Raise e →
         mk_error e (Some excerpt) context ∈ parsing_errors (m st).2.
Proof.
  intros Hbody Hlen m. unfold m, try_except. specialize (Hbody st).
  destruct (body st) as [[[]|e] st1]; simpl in *.
  - split; [done|]. split; [|done]. by apply logs_same.
  - split; [done|]. split.
    + split; simpl; rewrite Hbody.
      * by apply prefix_app_r.
      * intros r [Hr|Hr]%elem_of_app; [by left|right].
        apply list_elem_of_singleton in Hr as ->. by intros x [= <-].
    + intros e' [= <-]. apply elem_of_app. right. by left.
Qed.

Lemma extract_one_spec (ts : string) (st : pstate) :
  (extract_one ts st).1 = Ok tt
  ∧ logs st (extract_one ts st).2
  ∧ ∀ e, create_table_raises ts st e →
         mk_error e (Some (take 200 ts)) "CREATE TABLE parsing failed"
         ∈ parsing_errors (extract_one ts st).2.
Proof.
  apply guarded_spec; [|apply take_length_le].
  intros st0. unfold bind, lift.
  destruct (sqlparse_parse ts) as [[|s l]|e]; [done| |done].
  apply call_errors.
Qed.

Lemma dispatch_errors s u (st : pstate) :
  parsing_errors (dispatch s u st).2 = parsing_errors st.
Proof.
  unfold dispatch.
  repeat (match goal with |- context [if ?b then _ else _] => destruct b end;
          [first [done|apply call_errors]|]).
  done.
Qed.

Lemma parse_statement_spec (s : statement_obj) (st : pstate) :
  (_parse_statement s st).1 = Ok tt
  ∧ logs st (_parse_statement s st).2
  ∧ ∀ e, statement_raises s st e →
         mk_error e (Some (take 200 (strip (str s)))) "Statement parsing failed"
         ∈ parsing_errors (_parse_statement s st).2.
Proof.
  unfold SQLParser._parse_statement, ParserSpec.statement_raises.
  destruct (is_empty (strip (str s))) eqn:E.
  - split; [done|]. split; [apply logs_refl|].
    intros e [Hne _]. by destruct (strip (str s)).
  - pose proof (guarded_spec (dispatch s (upper (strip (str s))))
                  (take 200 (strip (str s))) "Statement parsing failed" st
                  (dispatch_errors s _) (take_length_le _ _)) as (H1 & H2 & H3).
    split; [done|]. split; [done|]. intros e [_ He]. by apply H3.
Qed.

(** A loop whose body cannot raise runs to its end. *)
Lemma for_each_total {A} (l : list A) (body : A → PM unit) (st : pstate) :
  (∀ x st, (body x st).1 = Ok tt) →
  for_each l body st = (Ok tt, foldl (λ st x, (body x st).2) st l).
Proof.
  intros Hbody. revert st. induction l as [|x l IH]; intros st; [done|].
  cbn [for_each foldl]. unfold bind at 1. specialize (Hbody x st).
  destruct (body x st) as [r st1]. simpl in *. subst r. apply IH.
Qed.

(** An entry written at some step of a loop is still there at its end. *)
Lemma loop_logs {A} (step : pstate → A → pstate) (l : list A) (st : pstate) :
  (∀ st x, logs st (step st x)) → logs st (foldl step st l).
Proof.
  intros Hstep. revert st. induction l as [|x l IH]; intros st; [apply logs_refl|].
  cbn [foldl]. eapply logs_trans; [apply Hstep|apply IH].
Qed.

Lemma loop_records {A} (step : pstate → A → pstate) (pre post : list A) (x : A)
    (st : pstate) (r : error_record) :
  (∀ st x, logs st (step st x)) →
  r ∈ parsing_errors (step (foldl step st pre) x) →
  r ∈ parsing_errors (foldl step st (pre ++ x :: post)).
Proof.
  intros Hstep Hr. rewrite foldl_app. cbn [foldl].
  destruct (loop_logs step post (step (foldl step st pre) x) Hstep) as [Hp _].
  by eapply elem_of_prefix.
Qed.

Lemma extract_logs (st : pstate) (ts : string) : logs st (extract_one ts st).2.
Proof. apply extract_one_spec. Qed.

Lemma statement_logs (st : pstate) (s : statement_obj) : logs st (_parse_statement s st).2.
Proof. apply parse_statement_spec. Qed.

Lemma run_extract_logs (l : list string) (st : pstate) : logs st (run_extract l st).
Proof. apply loop_logs, extract_logs. Qed.

Lemma run_statements_logs (l : list statement_obj) (st : pstate) :
  logs st (run_statements l st).
Proof. apply loop_logs, statement_logs. Qed.

Lemma extract_statements_run (sql_content : string) (st : pstate) :
  _extract_create_table_statements sqlparse_parse _parse_create_table sql_content st
  = (Ok tt, run_extract (Re.finditer create_table_matcher sql_content) st).
Proof. apply for_each_total. intros ts st0. apply extract_one_spec. Qed.

Lemma parse_statements_run (l : list statement_obj) (st : pstate) :
  for_each l _parse_statement st = (Ok tt, run_statements l st).
Proof. apply for_each_total. intros s st0. apply parse_statement_spec. Qed.

End Props.

End SQLParserProps.

(** ** SQL cleaner *)

(** Facts about substitution and search. *)
Module ReFacts.
Import PyStr Aux StrFacts Re.

Lemma strip_prefix_length (p s r : string) :
  strip_prefix p s = Some r → String.length s = String.length p + String.length r.
Proof.
  revert s. induction p as [|a p IH]; intros s; simpl.
  - by intros [= ->].
  - destruct s as [|b s]; [done|]. case_bool_decide; [|done].
    intros Hr%IH. simpl. lia.
Qed.

Lemma strip_prefix_spec (p s r : string) :
  strip_prefix p s = Some r → s = p +:+ r.
Proof.
  revert s. induction p as [|a p IH]; intros s; simpl.
  - by intros [= ->].
  - destruct s as [|b s]; [done|]. case_bool_decide as E; [|done].
    intros Hr%IH. by subst.
Qed.

Lemma strip_prefix_app_eq (p r : string) : strip_prefix p (p +:+ r) = Some r.
Proof.
  induction p as [|a p IH]; [done|]. simpl. by rewrite bool_decide_eq_true_2.
Qed.

Lemma startswith_spec (s p : string) :
  startswith s p = true ↔ ∃ r, s = p +:+ r.
Proof.
  unfold startswith. rewrite bool_decide_eq_true. split.
  - intros [r Hr]. exists r. by apply strip_prefix_spec.
  - intros [r ->]. rewrite strip_prefix_app_eq. by eexists.
Qed.

(** [contains] finds exactly the substrings. *)
Lemma contains_spec (p s : string) :
  contains p s = true ↔ ∃ a b, s = a +:+ p +:+ b.
Proof.
  split.
  - induction s as [|c s IH].
    + cbn [contains]. rewrite orb_false_r. intros [r Hr]%startswith_spec.
      by exists EmptyString, r.
    + cbn [contains]. intros [H|H]%orb_true_iff.
      * apply startswith_spec in H as [r Hr]. by exists EmptyString, r.
      * destruct (IH H) as (a & b & ->). by exists (String c a), b.
  - intros (a & b & ->). apply contains_app_r, contains_app_l.
    assert (startswith p p = true) as H.
    { apply startswith_spec. exists EmptyString. by rewrite app_nil_r. }
    destruct p; cbn [contains]; by rewrite H.
Qed.

(** [str.replace] is the substitution of a literal. *)
Lemma replace_go_sub (old new : string) (prev : option ascii) (skip : nat) (s : string) :
  replace_go old new skip s = sub_go (CleanerSpec.literal_matcher old new) prev skip s.
Proof.
  revert prev skip. induction s as [|c s IH]; intros prev skip; [done|].
  simpl. destruct skip as [|k]; [|apply IH].
  unfold startswith, CleanerSpec.literal_matcher.
  destruct (strip_prefix old (String c s)) as [rest|] eqn:E.
  - rewrite bool_decide_eq_true_2 by eauto. f_equal.
    apply strip_prefix_length in E. unfold consumed. rewrite E.
    replace (String.length old + String.length rest - String.length rest - 1)
      with (String.length old - 1) by lia.
    apply IH.
  - rewrite bool_decide_eq_false_2 by (by intros [? ?]). f_equal. apply IH.
Qed.

Lemma replace_sub (s old new : string) :
  replace s old new = sub (CleanerSpec.literal_matcher old new) s.
Proof. apply replace_go_sub. Qed.

(** Where the pattern is not found, the substitution changes nothing. *)
Lemma sub_go_id (m : matcher string) (prev : option ascii) (s : string) :
  finditer_go m prev 0 s = [] → sub_go m prev 0 s = s.
Proof.
  revert prev. induction s as [|c s IH]; intros prev; [done|]. simpl.
  destruct (m prev (String c s)) as [[rep rest]|]; [done|].
  intros H. f_equal. by apply IH.
Qed.

Lemma sub_id (m : matcher string) (s : string) : search m s = None → sub m s = s.
Proof.
  unfold search, finditer, sub. intros H. apply sub_go_id.
  by destruct (finditer_go m None 0 s).
Qed.
End ReFacts.

Module CleanerProps.
Import PyStr Aux StrFacts Re ReFacts SQLCleaner CleanerSpec.

(** *** The negative-default pattern *)

Lemma strip_prefix_ci_spec (p s r : string) :
  strip_prefix_ci p s = Some r →
  ∃ k, s = k +:+ r ∧ strip_prefix_ci p k = Some EmptyString.
Proof.
  revert s. induction p as [|a p IH]; intros s; simpl.
  - intros [= ->]. by exists EmptyString.
  - destruct s as [|b s]; [done|]. case_bool_decide as E; [|done].
    intros (k & -> & Hk)%IH. exists (String b k). split; [done|].
    simpl. by rewrite bool_decide_eq_true_2.
Qed.

Lemma strip_prefix_ci_app (p a b r : string) :
  strip_prefix_ci p a = Some r → strip_prefix_ci p (a +:+ b) = Some (r +:+ b).
Proof.
  revert a. induction p as [|c p IH]; intros a; simpl.
  - by intros [= ->].
  - destruct a as [|d a]; [done|]. simpl. case_bool_decide; [|done]. apply IH.
Qed.

Lemma strip_prefix_ci_cons (a b : ascii) (p s : string) :
  strip_prefix_ci (String a p) (String b s)
  = if bool_decide (a = lower_char b) then strip_prefix_ci p s else None.
Proof. done. Qed.

Lemma default_cons (b : ascii) (s : string) :
  strip_prefix_ci "default" (String b s)
  = if bool_decide ("d"%char = lower_char b) then strip_prefix_ci "efault" s else None.
Proof. done. Qed.

Lemma is_empty_false (s : string) : is_empty s = false ↔ s ≠ EmptyString.
Proof. by destruct s. Qed.

Lemma matches_elim (prev : option ascii) (s rep rest : string) :
  negative_default_matcher prev s = Some (rep, rest) →
  ∃ c0 kw ws digits,
    s = String c0 (kw +:+ ws +:+ "-" +:+ digits +:+ rest)
    ∧ "d"%char = lower_char c0
    ∧ strip_prefix_ci "efault" kw = Some EmptyString
    ∧ ws ≠ EmptyString ∧ all_chars is_space ws = true
    ∧ digits ≠ EmptyString ∧ all_chars is_digit digits = true
    ∧ stops is_digit rest = true
    ∧ rep = "DEFAULT '-" +:+ digits +:+ "'".
Proof.
  unfold negative_default_matcher.
  destruct s as [|c0 s]; [done|]. rewrite default_cons.
  case_bool_decide as Hc; [|done].
  destruct (strip_prefix_ci "efault" s) as [r1|] eqn:E1; [|done].
  apply strip_prefix_ci_spec in E1 as (kw & -> & Hkw).
  destruct (span is_space r1) as [ws r2] eqn:E2.
  apply span_spec in E2 as (-> & Hws & _).
  destruct (is_empty ws) eqn:Hne; [done|]. apply is_empty_false in Hne.
  destruct r2 as [|c2 r3]; [done|].
  destruct (bool_decide (c2 = "-"%char)) eqn:Hminus.
  2:{ apply bool_decide_eq_false in Hminus.
      destruct c2 as [[] [] [] [] [] [] [] []]; done. }
  apply bool_decide_eq_true in Hminus as ->.
  destruct (span is_digit r3) as [digits r4] eqn:E3.
  apply span_spec in E3 as (-> & Hds & Hstop).
  destruct (is_empty digits) eqn:Hne2; [done|]. apply is_empty_false in Hne2.
  intros [= <- <-]. by exists c0, kw, ws, digits.
Qed.

Lemma matches_intro (c0 d : ascii) (kw ws z : string) :
  "d"%char = lower_char c0 →
  strip_prefix_ci "efault" kw = Some EmptyString →
  ws ≠ EmptyString → all_chars is_space ws = true →
  is_digit d = true →
  matches_here (String c0 (kw +:+ ws +:+ "-" +:+ String d z)) = true.
Proof.
  intros Hc Hkw Hne Hws Hd. unfold matches_here, negative_default_matcher.
  rewrite default_cons, (bool_decide_eq_true_2 _ Hc).
  rewrite (strip_prefix_ci_app _ _ _ _ Hkw), app_nil_l.
  rewrite (span_app is_space ws) by done.
  apply is_empty_false in Hne. rewrite Hne. simpl. rewrite Hd.
  by destruct (span is_digit z).
Qed.

Lemma matches_here_first (c : ascii) (z : string) :
  matches_here (String c z) = true → "d"%char = lower_char c.
Proof.
  unfold matches_here, negative_default_matcher. rewrite default_cons.
  destruct (bool_decide ("d"%char = lower_char c)) eqn:E.
  - by apply bool_decide_eq_true in E.
  - by intros [? ?]%bool_decide_eq_true.
Qed.

Lemma matches_here_none (prev : option ascii) (s : string) :
  negative_default_matcher prev s = None → matches_here s = false.
Proof.
  intros H. unfold matches_here. apply bool_decide_eq_false.
  change (negative_default_matcher None s) with (negative_default_matcher prev s).
  rewrite H. by intros [? ?].
Qed.

Lemma has_negative_default_cons (c : ascii) (s : string) :
  has_negative_default (String c s) = matches_here (String c s) || has_negative_default s.
Proof. done. Qed.

(** *** Letters of the keyword *)

Lemma lower_letter_word (c : ascii) : is_lower (lower_char c) = true → is_word c = true.
Proof.
  unfold lower_char, is_word, is_alpha. destruct (is_upper c); [done|].
  by intros ->.
Qed.

Lemma keyword_tail_spec (kw : string) (p : string) :
  all_chars is_lower p = true →
  (∀ c, contains (String c EmptyString) p = true →
        contains (String c EmptyString) "efault" = true) →
  strip_prefix_ci p kw = Some EmptyString →
  all_chars (λ c, keyword_tail_char c && is_word c) kw = true.
Proof.
  intros Hlow Hin. revert kw Hlow Hin.
  induction p as [|a p IH]; intros kw Hlow Hin; simpl.
  - by intros [= ->].
  - destruct kw as [|b kw]; [done|]. case_bool_decide as E; [|done].
    simpl in Hlow. apply andb_true_iff in Hlow as [Ha Hp].
    intros Hkw. simpl. rewrite (IH kw Hp); [|..|done].
    + rewrite andb_true_r. apply andb_true_iff. split.
      * unfold keyword_tail_char. rewrite <-E. apply Hin.
        apply contains_spec. by exists EmptyString, p.
      * apply lower_letter_word. by rewrite <-E.
    + intros c Hc. apply Hin. cbn [contains]. rewrite Hc. apply orb_true_r.
Qed.

Lemma keyword_tail_chars (kw : string) :
  strip_prefix_ci "efault" kw = Some EmptyString →
  all_chars (λ c, keyword_tail_char c && is_word c) kw = true.
Proof. by apply keyword_tail_spec. Qed.

Lemma chain_letters (p : ascii) (kw rest : string) :
  is_word p = true →
  all_chars (λ c, keyword_tail_char c && is_word c) kw = true →
  (∀ prev, chain prev rest = true) →
  chain (Some p) (kw +:+ rest) = true.
Proof.
  intros Hp Hkw Hrest. revert p Hp. induction kw as [|c kw IH]; intros p Hp.
  - apply Hrest.
  - simpl in Hkw. apply andb_true_iff in Hkw as [[Hc Hw]%andb_true_iff Hkw].
    rewrite app_cons. simpl. rewrite IH by done. rewrite andb_true_r.
    unfold blocked. simpl. rewrite Hc, Hp. simpl. apply orb_true_r.
Qed.

Lemma chain_free (s : string) (prev : option ascii) :
  all_chars (λ c, is_space c || bool_decide (c = "-"%char) || is_digit c) s = true →
  chain prev s = true.
Proof.
  revert prev. induction s as [|c s IH]; intros prev; [done|]. simpl.
  intros [Hc Hs]%andb_true_iff. rewrite IH by done. rewrite andb_true_r.
  unfold blocked. by rewrite Hc.
Qed.

Lemma all_chars_app (p : ascii → bool) (a b : string) :
  all_chars p (a +:+ b) = all_chars p a && all_chars p b.
Proof.
  induction a as [|c a IH]; [done|]. rewrite app_cons. simpl.
  by rewrite IH, andb_assoc.
Qed.

(** The text of a match from its second character on, up to the first
    digit, is a chain. *)
Lemma match_chain (c0 d : ascii) (kw ws : string) :
  "d"%char = lower_char c0 →
  strip_prefix_ci "efault" kw = Some EmptyString →
  all_chars is_space ws = true →
  is_digit d = true →
  chain (Some c0) (kw +:+ ws +:+ "-" +:+ String d EmptyString) = true.
Proof.
  intros Hc Hkw Hws Hd. apply chain_letters.
  - apply lower_letter_word. by rewrite <-Hc.
  - by apply keyword_tail_chars.
  - intros prev. apply chain_free. rewrite all_chars_app. apply andb_true_iff. split.
    + eapply all_chars_impl; [|exact Hws]. by intros c ->.
    + simpl. by rewrite Hd, orb_true_r.
Qed.

(** *** Substitutions that keep a text free of negative defaults *)

Section Substitution.
Variable mm : matcher string.

(** No replacement starts with a character at which the text of a
    negative default continues. *)
Hypothesis rep_head : ∀ prev x rep rest,
  mm prev x = Some (rep, rest) →
  ∃ c rep', rep = String c rep' ∧ blocked prev c = false.

(** A chain at the start of the result was copied from the input. *)
Lemma prefix_reflect (p : string) (prev : option ascii) (x y : string) :
  chain prev p = true → sub_go mm prev 0 x = p +:+ y → ∃ x', x = p +:+ x'.
Proof.
  revert prev x y. induction p as [|c p IH]; intros prev x y Hch Hout.
  - by exists x.
  - simpl in Hch. apply andb_true_iff in Hch as [Hb Hch].
    destruct x as [|c' x]; [done|]. simpl in Hout.
    destruct (mm prev (String c' x)) as [[rep rest]|] eqn:E.
    + destruct (rep_head _ _ _ _ E) as (c1 & rep' & -> & Hnb).
      rewrite !app_cons in Hout. injection Hout as -> _. congruence.
    + rewrite app_cons in Hout. injection Hout as -> Hout.
      destruct (IH _ _ _ Hch Hout) as [x' ->]. by exists x'.
Qed.

(** A match that starts at a copied character was in the input. *)
Lemma copy_reflect (c : ascii) (r : string) :
  matches_here (String c (sub_go mm (Some c) 0 r)) = true →
  matches_here (String c r) = true.
Proof.
  unfold matches_here at 1. intros [[rep rest] H]%bool_decide_eq_true.
  apply matches_elim
    in H as (c0 & kw & ws & digits & Heq & Hc & Hkw & Hne & Hws & Hne2 & Hds & _ & _).
  injection Heq as <- Heq.
  destruct digits as [|d ds]; [done|].
  simpl in Hds. apply andb_true_iff in Hds as [Hd _].
  destruct (prefix_reflect (kw +:+ ws +:+ "-" +:+ String d EmptyString)
              (Some c) r (ds +:+ rest)) as [x' ->].
  - by apply match_chain.
  - rewrite Heq. by rewrite !app_assoc.
  - rewrite !app_assoc. by apply matches_intro.
Qed.

Variable good : string → Prop.
Hypothesis good_tail : ∀ c r, good (String c r) → good r.
Hypothesis good_copy : ∀ prev c r,
  good (String c r) → mm prev (String c r) = None → matches_here (String c r) = false.
Hypothesis rep_clean : ∀ prev x rep rest y,
  mm prev x = Some (rep, rest) →
  has_negative_default y = false → has_negative_default (rep +:+ y) = false.

Lemma sub_go_clean (x : string) (prev : option ascii) (skip : nat) :
  good x → has_negative_default (sub_go mm prev skip x) = false.
Proof.
  revert prev skip. induction x as [|c r IH]; intros prev skip Hg; [done|].
  simpl. destruct skip as [|k]; [|by eauto].
  destruct (mm prev (String c r)) as [[rep rest]|] eqn:E.
  - eapply rep_clean; [exact E|]. eauto.
  - rewrite has_negative_default_cons, (IH (Some c) 0) by eauto.
    rewrite orb_false_r. apply not_true_iff_false. intros H%copy_reflect.
    by rewrite (good_copy prev c r Hg E) in H.
Qed.
End Substitution.

(** *** Substitutions that keep a piece of the text *)

Section Keeps.
Variable mm : matcher string.
Variables kin kout b : string.

(** At the piece no match starts, or the piece is rewritten as wanted. *)
Hypothesis at_piece : ∀ prev, ∃ tail, sub_go mm prev 0 (kin +:+ b) = kout +:+ tail.
(** A match that starts before the piece ends before it. *)
Hypothesis before_piece : ∀ prev c a rep rest,
  mm prev (String c a +:+ kin +:+ b) = Some (rep, rest) →
  consumed (String c a +:+ kin +:+ b) rest - 1 ≤ String.length a.

Lemma sub_go_keeps (a : string) (prev : option ascii) (skip : nat) :
  skip ≤ String.length a →
  ∃ a' tail, sub_go mm prev skip (a +:+ kin +:+ b) = a' +:+ kout +:+ tail.
Proof.
  revert prev skip. induction a as [|c a IH]; intros prev skip Hskip.
  - simpl in Hskip. assert (skip = 0) as -> by lia. rewrite app_nil_l.
    destruct (at_piece prev) as [tail ->]. by exists EmptyString, tail.
  - rewrite app_cons. simpl. destruct skip as [|k].
    + destruct (mm prev (String c (a +:+ kin +:+ b))) as [[rep rest]|] eqn:E.
      * destruct (IH (Some c) (consumed (String c (a +:+ kin +:+ b)) rest - 1))
          as (a' & tail & ->).
        { by eapply (before_piece prev c a rep). }
        exists (rep +:+ a'), tail. by rewrite app_assoc.
      * destruct (IH (Some c) 0) as (a' & tail & ->); [lia|].
        by exists (String c a'), tail.
    + destruct (IH (Some c) k) as (a' & tail & ->); [simpl in Hskip; lia|].
      by exists a', tail.
Qed.

Lemma sub_keeps (s : string) :
  (∃ a, s = a +:+ kin +:+ b) → contains kout (sub mm s) = true.
Proof.
  intros [a ->]. destruct (sub_go_keeps a None 0) as (a' & tail & H); [lia|].
  unfold sub. rewrite H. apply contains_spec. by exists a', tail.
Qed.
End Keeps.

(** *** The four rewrites of [_clean_line] *)

Lemma sub_go_copy (mm : matcher string) (prev : option ascii) (c : ascii) (r : string) :
  mm prev (String c r) = None →
  sub_go mm prev 0 (String c r) = String c (sub_go mm (Some c) 0 r).
Proof. intros H. simpl. by rewrite H. Qed.

Lemma sub_go_match (mm : matcher string) (prev : option ascii) (c : ascii)
    (r rep rest : string) :
  mm prev (String c r) = Some (rep, rest) →
  sub_go mm prev 0 (String c r)
  = rep +:+ sub_go mm (Some c) (consumed (String c r) rest - 1) r.
Proof. intros H. simpl. by rewrite H. Qed.

Lemma has_negative_default_skip (c : ascii) (s : string) :
  matches_here (String c s) = false →
  has_negative_default (String c s) = has_negative_default s.
Proof. intros H. by rewrite has_negative_default_cons, H. Qed.

Ltac skip_chars :=
  rewrite ?app_cons, ?app_nil_l;
  repeat (rewrite has_negative_default_skip by (vm_compute; reflexivity)).

Lemma clean_tail (c : ascii) (r : string) :
  has_negative_default (String c r) = false → has_negative_default r = false.
Proof. rewrite has_negative_default_cons. by intros [_ ?]%orb_false_iff. Qed.

Lemma clean_head (c : ascii) (r : string) :
  has_negative_default (String c r) = false → matches_here (String c r) = false.
Proof. rewrite has_negative_default_cons. by intros [? _]%orb_false_iff. Qed.

(** A match that starts before a character [D] it cannot contain ends
    before it. *)
Lemma block_prefix (q : ascii → bool) (D : ascii) (a z t rest : string) :
  q D = false → all_chars q t = true →
  a +:+ String D z = t +:+ rest → String.length t ≤ String.length a.
Proof.
  intros HD. revert t. induction a as [|c a IH]; intros t Ht Heq.
  - destruct t as [|c' t]; [done|]. rewrite app_nil_l, app_cons in Heq.
    injection Heq as <- _. simpl in Ht. by rewrite HD in Ht.
  - destruct t as [|c' t]; [simpl; lia|]. rewrite !app_cons in Heq.
    injection Heq as <- Heq. simpl in Ht. apply andb_true_iff in Ht as [_ Ht].
    specialize (IH t Ht Heq). simpl. lia.
Qed.

Lemma consumed_bound (q : ascii → bool) (D c c0 : ascii) (a z t rest : string) :
  q D = false → all_chars q t = true →
  String c a +:+ String D z = String c0 (t +:+ rest) →
  consumed (String c a +:+ String D z) rest - 1 ≤ String.length a.
Proof.
  intros HD Ht Heq. rewrite app_cons in Heq. injection Heq as _ Heq.
  pose proof (block_prefix q D a z t rest HD Ht Heq) as Hle.
  unfold consumed. rewrite app_cons. cbn [String.length]. rewrite Heq, length_app. lia.
Qed.

Lemma space_not_D (c : ascii) : is_space c = true → not_D c = true.
Proof. intros H. apply bool_decide_eq_true. by intros ->. Qed.

Lemma digit_not_D (c : ascii) : is_digit c = true → not_D c = true.
Proof. intros H. apply bool_decide_eq_true. by intros ->. Qed.

(** **** The negative default itself *)

Lemma negative_rep_head (prev : option ascii) (x rep rest : string) :
  negative_default_matcher prev x = Some (rep, rest) →
  ∃ c rep', rep = String c rep' ∧ blocked prev c = false.
Proof.
  intros (? & ? & ? & digits & _ & _ & _ & _ & _ & _ & _ & _ & ->)%matches_elim.
  eexists _, _. split; [reflexivity|]. done.
Qed.

Lemma digits_clean (ds z : string) :
  all_chars is_digit ds = true →
  has_negative_default (ds +:+ z) = has_negative_default z.
Proof.
  induction ds as [|d ds IH]; [done|]. simpl.
  intros [Hd Hds]%andb_true_iff. rewrite <-IH by done.
  apply has_negative_default_skip, not_true_iff_false.
  intros H%matches_here_first. unfold lower_char in H.
  destruct (is_upper d) eqn:E.
  - unfold is_digit, is_upper in *. apply andb_true_iff in Hd as [_ Hd], E as [E _].
    apply Nat.leb_le in Hd, E. lia.
  - by subst d.
Qed.

Lemma negative_rep_clean (prev : option ascii) (x rep rest y : string) :
  negative_default_matcher prev x = Some (rep, rest) →
  has_negative_default y = false → has_negative_default (rep +:+ y) = false.
Proof.
  intros (? & ? & ? & digits & _ & _ & _ & _ & _ & _ & Hds & _ & ->)%matches_elim Hy.
  rewrite !app_assoc. skip_chars. rewrite digits_clean by done. by skip_chars.
Qed.

Lemma negative_sub_clean (s : string) :
  has_negative_default (sub negative_default_matcher s) = false.
Proof.
  apply (sub_go_clean _ negative_rep_head (λ _, True)); try done.
  - intros prev c r _. apply matches_here_none.
  - apply negative_rep_clean.
Qed.

Lemma keyword_not_D (kw : string) :
  all_chars (λ c, keyword_tail_char c && is_word c) kw = true →
  all_chars not_D kw = true.
Proof.
  apply all_chars_impl. intros c [Hc _]%andb_true_iff.
  apply bool_decide_eq_true. by intros ->.
Qed.

Lemma negative_before_piece (prev : option ascii) (c : ascii) (a z rep rest : string) :
  negative_default_matcher prev (String c a +:+ String "D" z) = Some (rep, rest) →
  consumed (String c a +:+ String "D" z) rest - 1 ≤ String.length a.
Proof.
  intros (c0 & kw & ws & digits & Heq & _ & Hkw & _ & Hws & _ & Hds & _ & _)%matches_elim.
  rewrite <-!app_assoc in Heq.
  apply (consumed_bound not_D "D" c c0 a z (((kw +:+ ws) +:+ "-") +:+ digits) rest eq_refl);
    [|exact Heq].
  rewrite !all_chars_app, (keyword_not_D kw) by (by apply keyword_tail_chars).
  by rewrite (all_chars_impl is_space not_D ws space_not_D Hws),
    (all_chars_impl is_digit not_D digits digit_not_D Hds).
Qed.

Lemma negative_at_token (prev : option ascii) (b : string) :
  stops is_digit b = true →
  negative_default_matcher prev ("DEFAULT -5" +:+ b) = Some (quoted, b).
Proof.
  intros Hb. unfold negative_default_matcher.
  replace (strip_prefix_ci "default" ("DEFAULT -5" +:+ b)) with (Some (" -5" +:+ b))
    by reflexivity.
  replace (span is_space (" -5" +:+ b)) with (" ", "-5" +:+ b)
    by (symmetry; by apply (span_app is_space " " ("-5" +:+ b))).
  cbn [is_empty]. rewrite !app_cons, app_nil_l.
  replace (span is_digit (String "5" b)) with ("5", b)
    by (symmetry; by apply (span_app is_digit "5" b)).
  done.
Qed.

(** The first rewrite quotes the token. *)
Lemma negative_sub_quotes (s : string) :
  has_token s → contains quoted (sub negative_default_matcher s) = true.
Proof.
  intros (a & b & -> & Hb).
  apply (sub_keeps negative_default_matcher "DEFAULT -5" quoted b); [| |by exists a].
  - intros prev. eexists.
    exact (sub_go_match _ prev "D" ("EFAULT -5" +:+ b) quoted b
             (negative_at_token prev b Hb)).
  - intros prev c a' rep rest. apply negative_before_piece.
Qed.

(** **** The rewrites after the first one *)

Section Later.
Variable mm : matcher string.
Hypothesis rep_head : ∀ prev x rep rest,
  mm prev x = Some (rep, rest) →
  ∃ c rep', rep = String c rep' ∧ blocked prev c = false.
Hypothesis rep_clean : ∀ prev x rep rest y,
  mm prev x = Some (rep, rest) →
  has_negative_default y = false → has_negative_default (rep +:+ y) = false.
Hypothesis at_quoted : ∀ b prev,
  ∃ tail, sub_go mm prev 0 (quoted +:+ b) = quoted +:+ tail.
Hypothesis before_quoted : ∀ b prev c a rep rest,
  mm prev (String c a +:+ quoted +:+ b) = Some (rep, rest) →
  consumed (String c a +:+ quoted +:+ b) rest - 1 ≤ String.length a.

Lemma later_clean (s : string) :
  has_negative_default s = false → has_negative_default (sub mm s) = false.
Proof.
  apply (sub_go_clean mm rep_head (λ x, has_negative_default x = false)).
  - apply clean_tail.
  - intros prev c r H _. by apply clean_head.
  - apply rep_clean.
Qed.

Lemma later_keeps (s : string) :
  contains quoted s = true → contains quoted (sub mm s) = true.
Proof.
  intros (a & b & ->)%contains_spec.
  apply (sub_keeps mm quoted quoted b); [apply at_quoted|apply before_quoted|].
  by exists a.
Qed.
End Later.

Ltac copy_quoted :=
  unfold quoted; rewrite ?app_cons, ?app_nil_l;
  repeat (rewrite sub_go_copy by (vm_compute; reflexivity));
  eexists; reflexivity.

(** **** The UUID call: [str.replace] *)

Lemma uuid_clean (s : string) :
  has_negative_default s = false → has_negative_default (sub uuid_matcher s) = false.
Proof.
  apply later_clean.
  - intros prev x rep rest. unfold uuid_matcher, literal_matcher.
    destruct (strip_prefix _ x); [|done]. intros [= <- <-].
    eexists _, _. split; [reflexivity|]. by vm_compute.
  - intros prev x rep rest y. unfold uuid_matcher, literal_matcher.
    destruct (strip_prefix _ x); [|done]. intros [= <- <-] Hy. by skip_chars.
Qed.

Lemma uuid_keeps (s : string) :
  contains quoted s = true → contains quoted (sub uuid_matcher s) = true.
Proof.
  apply later_keeps.
  - intros b prev. copy_quoted.
  - intros b prev c a rep rest. unfold uuid_matcher, literal_matcher.
    destruct (strip_prefix _ _) as [r|] eqn:E; [|done]. intros [= <- <-].
    apply strip_prefix_spec in E.
    by apply (consumed_bound not_D "D" c "g" a ("EFAULT '-5'" +:+ b)
                "en_random_uuid()" r eq_refl eq_refl).
Qed.

(** **** The multi-word types *)

Lemma ci_not_D (p k : string) :
  all_chars (λ c, bool_decide (c ≠ "d"%char)) p = true →
  strip_prefix_ci p k = Some EmptyString → all_chars not_D k = true.
Proof.
  revert k. induction p as [|a p IH]; intros k Hp; simpl.
  - by intros [= ->].
  - destruct k as [|b k]; [done|]. case_bool_decide as E; [|done].
    simpl in Hp. apply andb_true_iff in Hp as [Ha Hp]. intros Hk.
    simpl. rewrite (IH k Hp Hk), andb_true_r.
    apply bool_decide_eq_true. intros ->. subst a. by vm_compute in Ha.
Qed.

Section Word.
Variables (o0 n0 : ascii) (old' new' : string).
Local Abbreviation old_type := (String o0 old').
Local Abbreviation new_type := (String n0 new').
Hypothesis new_head : plain n0 = true.
Hypothesis new_clean : ∀ y, has_negative_default (new_type +:+ y) = has_negative_default y.
Hypothesis old_tail : all_chars (λ c, bool_decide (c ≠ "d"%char)) old' = true.
Hypothesis at_quoted : ∀ b prev,
  ∃ tail, sub_go (word_matcher old_type new_type) prev 0 (quoted +:+ b) = quoted +:+ tail.

Lemma word_matcher_elim (prev : option ascii) (x rep rest : string) :
  word_matcher old_type new_type prev x = Some (rep, rest) →
  at_word_start prev = true ∧ strip_prefix_ci old_type x = Some rest ∧ rep = new_type.
Proof.
  unfold word_matcher. destruct (at_word_start prev); [|done].
  destruct (strip_prefix_ci old_type x) as [r|]; [|done].
  destruct (at_word_end r); [|done]. by intros [= <- <-].
Qed.

Lemma word_matcher_none (prev : option ascii) (x : string) :
  strip_prefix_ci old_type x = None → word_matcher old_type new_type prev x = None.
Proof. unfold word_matcher. intros ->. by destruct (at_word_start prev). Qed.

Lemma word_clean (s : string) :
  has_negative_default s = false →
  has_negative_default (sub (word_matcher old_type new_type) s) = false.
Proof.
  apply later_clean.
  - intros prev x rep rest (Hprev & _ & ->)%word_matcher_elim.
    exists n0, new'. split; [done|]. unfold blocked. rewrite Hprev.
    unfold plain in new_head. apply negb_true_iff in new_head. rewrite new_head.
    simpl. apply andb_false_r.
  - intros prev x rep rest y (_ & _ & ->)%word_matcher_elim Hy. by rewrite new_clean.
Qed.

Lemma word_keeps (s : string) :
  contains quoted s = true →
  contains quoted (sub (word_matcher old_type new_type) s) = true.
Proof.
  apply later_keeps; [apply at_quoted|].
  intros b prev c a rep rest (_ & Hx & _)%word_matcher_elim.
  apply strip_prefix_ci_spec in Hx as (k & Hk & Hci).
  destruct k as [|k0 k]; [done|]. rewrite strip_prefix_ci_cons in Hci.
  case_bool_decide; [|done].
  apply (consumed_bound not_D "D" c k0 a ("EFAULT '-5'" +:+ b) k rest eq_refl);
    [|exact Hk].
  by apply (ci_not_D old').
Qed.
End Word.

Ltac word_step :=
  split;
  [ apply word_clean; [by vm_compute|intros y; by skip_chars]
  | apply word_keeps; [by vm_compute|];
    intros b prev; unfold quoted; rewrite ?app_cons, ?app_nil_l;
    repeat (rewrite sub_go_copy by (apply word_matcher_none; vm_compute; reflexivity));
    eexists; reflexivity ].

Lemma type_replacements_keep (old_type new_type : string) :
  (old_type, new_type) ∈ type_replacements →
  keeps_clean (sub (word_matcher old_type new_type)).
Proof.
  unfold type_replacements. intros H s.
  repeat (apply elem_of_cons in H as [[= -> ->]|H];
          [word_step|]).
  by apply elem_of_nil in H.
Qed.

(** **** The array suffix *)

Lemma array_matcher_elim (prev : option ascii) (x rep rest : string) :
  array_matcher prev x = Some (rep, rest) →
  ∃ word r1,
    span is_word x = (word, r1) ∧ strip_prefix "[]" r1 = Some rest
    ∧ rep = String dq (word +:+ " []" +:+ String dq EmptyString).
Proof.
  unfold array_matcher. destruct (at_word_start prev); [|done].
  destruct (span is_word x) as [word r1]. destruct (is_empty word); [done|].
  destruct (strip_prefix "[]" r1) as [r2|] eqn:E; [|done].
  intros [= <- <-]. by exists word, r1.
Qed.

Lemma array_matcher_none (prev : option ascii) (x : string) :
  array_here x = false → array_matcher prev x = None.
Proof.
  unfold array_here, array_matcher. destruct (at_word_start prev); [|done].
  destruct (span is_word x) as [word r1]. destruct (is_empty word); [done|].
  cbn [negb andb]. intros H%bool_decide_eq_false.
  destruct (strip_prefix "[]" r1); [|done]. destruct H. by eexists.
Qed.

Lemma span_unique (p : ascii → bool) (a b a' b' : string) :
  all_chars p a = true → stops p b = true →
  all_chars p a' = true → stops p b' = true →
  a +:+ b = a' +:+ b' → a = a' ∧ b = b'.
Proof.
  intros Ha Hb Ha' Hb' Heq.
  pose proof (span_app p a b Ha Hb) as H1.
  pose proof (span_app p a' b' Ha' Hb') as H2.
  rewrite Heq in H1. rewrite H1 in H2. by injection H2.
Qed.

(** A word followed by a blank and a bracket does not start a negative
    default. *)
Lemma word_then_blank (w z : string) :
  all_chars is_word w = true →
  matches_here (w +:+ String " " (String "[" z)) = false.
Proof.
  intros Hw. apply not_true_iff_false.
  intros [[rep rest] H]%bool_decide_eq_true.
  apply matches_elim
    in H as (c0 & kw & ws & digits & Heq & Hc & Hkw & Hne & Hws & _).
  destruct ws as [|s0 ws]; [done|]. simpl in Hws.
  apply andb_true_iff in Hws as [Hs0 Hws].
  destruct (span_unique is_word w (String " " (String "[" z)) (String c0 kw)
              (String s0 ws +:+ "-" +:+ digits +:+ rest)) as [_ Heq2]; try done.
  - simpl. apply andb_true_iff. split.
    + apply lower_letter_word. by rewrite <-Hc.
    + eapply all_chars_impl; [|by apply keyword_tail_chars].
      by intros c [_ ?]%andb_true_iff.
  - rewrite app_cons. simpl. destruct (is_word s0) eqn:E; [|done].
    apply is_word_not_space in E. by rewrite Hs0 in E.
  - rewrite app_cons in Heq2. injection Heq2 as _ Heq2.
    destruct ws as [|s1 ws].
    + by rewrite app_nil_l in Heq2.
    + rewrite app_cons in Heq2. injection Heq2 as <- _. by simpl in Hws.
Qed.

Lemma word_blank_clean (w z : string) :
  all_chars is_word w = true →
  has_negative_default (String " " (String "[" z)) = false →
  has_negative_default (w +:+ String " " (String "[" z)) = false.
Proof.
  intros Hw Hz. induction w as [|c w IH]; [done|].
  pose proof (word_then_blank _ z Hw) as H. rewrite app_cons in *.
  rewrite has_negative_default_skip by done.
  simpl in Hw. apply andb_true_iff in Hw as [_ Hw]. by apply IH.
Qed.

Lemma array_clean (s : string) :
  has_negative_default s = false → has_negative_default (sub array_matcher s) = false.
Proof.
  apply later_clean.
  - intros prev x rep rest (word & r1 & _ & _ & ->)%array_matcher_elim.
    eexists _, _. split; [reflexivity|]. by vm_compute.
  - intros prev x rep rest y (word & r1 & Hspan & _ & ->)%array_matcher_elim Hy.
    apply span_spec in Hspan as (_ & Hword & _).
    rewrite app_cons, has_negative_default_skip by (by vm_compute).
    rewrite !app_assoc, !app_cons, app_nil_l.
    apply word_blank_clean; [done|]. by skip_chars.
Qed.

Lemma array_before_quoted (b : string) (prev : option ascii) (c : ascii)
    (a rep rest : string) :
  array_matcher prev (String c a +:+ quoted +:+ b) = Some (rep, rest) →
  consumed (String c a +:+ quoted +:+ b) rest - 1 ≤ String.length a.
Proof.
  intros (word & r1 & Hspan & Hpre & _)%array_matcher_elim.
  destruct (span is_word (String c a)) as [w1 r] eqn:EA.
  apply span_spec in EA as (EA & Hw1 & Hr).
  destruct r as [|c1 r].
  - rewrite app_nil_r in EA. subst w1.
    change (quoted +:+ b) with ("DEFAULT" +:+ " '-5'" +:+ b) in Hspan.
    rewrite <-app_assoc, (span_app is_word (String c a +:+ "DEFAULT")) in Hspan.
    + injection Hspan as _ <-. done.
    + by rewrite all_chars_app, Hw1.
    + done.
  - rewrite EA, app_assoc, (span_app is_word w1) in Hspan by done.
    injection Hspan as _ <-. rewrite app_cons in Hpre. simpl in Hpre.
    case_bool_decide as E1; [subst c1|done].
    destruct r as [|c2 r]; [done|]. rewrite app_cons in Hpre.
    case_bool_decide as E2; [subst c2|done]. injection Hpre as <-.
    unfold consumed. apply (f_equal String.length) in EA.
    rewrite !length_app in *. simpl in *. rewrite ?length_app. lia.
Qed.

Lemma array_keeps (s : string) :
  contains quoted s = true → contains quoted (sub array_matcher s) = true.
Proof.
  apply later_keeps; [|apply array_before_quoted].
  intros b prev. unfold quoted. rewrite ?app_cons, ?app_nil_l.
  repeat (rewrite sub_go_copy by (apply array_matcher_none; vm_compute; reflexivity)).
  eexists. reflexivity.
Qed.

(** *** The whole line *)

Lemma foldl_preserve_in {S A} (f : S → A → S) (Q : S → Prop) (l : list A) (s : S) :
  (∀ s a, a ∈ l → Q s → Q (f s a)) → Q s → Q (foldl f s l).
Proof.
  revert s. induction l as [|b l IH]; intros s Hpres H; [done|].
  cbn [foldl]. apply IH.
  - intros s' a Ha. apply Hpres. by right.
  - apply Hpres; [by left|done].
Qed.

Lemma clean_line_spec (line : string) (line_number : nat) :
  has_negative_default (_clean_line line line_number) = false
  ∧ (has_token line → contains quoted (_clean_line line line_number) = true).
Proof.
  unfold _clean_line.
  set (Q := λ s, has_negative_default s = false
                 ∧ (has_token line → contains quoted s = true)).
  change (Q (sub array_matcher
               (foldl (λ cleaned '(old_type, new_type),
                         sub (word_matcher old_type new_type) cleaned)
                  (if contains "gen_random_uuid()" (sub negative_default_matcher line)
                   then replace (sub negative_default_matcher line)
                          "gen_random_uuid()" "`uuid_generate_v4()`"
                   else sub negative_default_matcher line)
                  type_replacements))).
  assert (Q (sub negative_default_matcher line)) as H1.
  { split; [apply negative_sub_clean|apply negative_sub_quotes]. }
  assert (∀ f, keeps_clean f → ∀ s, Q s → Q (f s)) as Hstep.
  { intros f Hf s [Hc Hk]. destruct (Hf s) as [Hf1 Hf2].
    split; [by apply Hf1|]. intros Ht. by apply Hf2, Hk. }
  apply (Hstep (sub array_matcher)).
  { intros s. split; [apply array_clean|apply array_keeps]. }
  apply foldl_preserve_in.
  { intros s [old_type new_type] Hin. by apply Hstep, type_replacements_keep. }
  destruct (contains "gen_random_uuid()" _); [|done].
  rewrite replace_sub. apply (Hstep (sub uuid_matcher)); [|done].
  intros s. split; [apply uuid_clean|apply uuid_keeps].
Qed.

(** *** The loop over the lines *)

Lemma clean_lines_spec (lines : list string) (i : nat) (acc : list string) (st : state) :
  ∃ cleaned st',
    clean_lines lines i acc st = (acc ++ cleaned, st')
    ∧ Forall2 (λ line l, ∃ n, l = _clean_line line n) (retained lines) cleaned.
Proof.
  revert i acc st. induction lines as [|line lines IH]; intros i acc st.
  - exists [], st. by rewrite List.app_nil_r.
  - cbn [clean_lines retained List.filter].
    destruct (negb (_should_remove_line line)).
    + edestruct IH as (cleaned & st' & -> & HF).
      exists (_clean_line line (i + 1) :: cleaned), st'.
      split; [by rewrite <-(assoc_L (++))|]. constructor; [by eexists|done].
    + apply IH.
Qed.

(** *** The joined text *)

Lemma has_negative_default_app_r (a b : string) :
  has_negative_default b = true → has_negative_default (a +:+ b) = true.
Proof.
  intros H. induction a as [|c a IH]; [done|].
  rewrite app_cons, has_negative_default_cons, IH. apply orb_true_r.
Qed.

(** The literal is an unquoted negative default. *)
Lemma literal_matches (s : string) :
  contains "DEFAULT -5" s = true → has_negative_default s = true.
Proof.
  intros (a & b & ->)%contains_spec. apply has_negative_default_app_r.
  change ("DEFAULT -5" +:+ b) with (String "D" ("EFAULT" +:+ " " +:+ "-" +:+ String "5" b)).
  rewrite has_negative_default_cons. by rewrite matches_intro.
Qed.

Lemma strip_prefix_block (p a b r : string) :
  all_chars (λ c, bool_decide (c ≠ nl)) p = true →
  strip_prefix p (a +:+ String nl b) = Some r → is_Some (strip_prefix p a).
Proof.
  revert a. induction p as [|c p IH]; intros a Hp; [by eexists|].
  simpl in Hp. apply andb_true_iff in Hp as [Hc Hp].
  apply bool_decide_eq_true in Hc.
  destruct a as [|d a].
  - rewrite app_nil_l. simpl. by case_bool_decide.
  - rewrite app_cons. simpl. case_bool_decide; [|done]. by apply IH.
Qed.

Lemma contains_across_newline (p a b : string) :
  p ≠ EmptyString → all_chars (λ c, bool_decide (c ≠ nl)) p = true →
  contains p (a +:+ String nl b) = true →
  contains p a = true ∨ contains p b = true.
Proof.
  intros Hne Hp. induction a as [|c a IH].
  - rewrite app_nil_l. cbn [contains]. intros [H|H]%orb_true_iff; [|by right].
    apply bool_decide_eq_true in H as [r Hr].
    destruct p as [|d p]; [done|]. simpl in Hr, Hp.
    apply andb_true_iff in Hp as [Hd _]. apply bool_decide_eq_true in Hd.
    by case_bool_decide.
  - rewrite app_cons. cbn [contains]. intros [H|H]%orb_true_iff.
    + left. apply orb_true_iff. left.
      apply bool_decide_eq_true in H as [r Hr]. apply bool_decide_eq_true.
      by apply (strip_prefix_block p (String c a) b r).
    + destruct (IH H) as [H'|H']; [left|by right].
      apply orb_true_iff. by right.
Qed.

Lemma join_lines_cons (l : string) (ls : list string) :
  ls ≠ [] → join_lines (l :: ls) = l +:+ String nl (join_lines ls).
Proof. by destruct ls. Qed.

Lemma join_lines_contains (p l : string) (ls : list string) :
  l ∈ ls → contains p l = true → contains p (join_lines ls) = true.
Proof.
  intros Hin Hp. induction ls as [|l' ls IH]; [by apply elem_of_nil in Hin|].
  destruct ls as [|l2 ls].
  - apply list_elem_of_singleton in Hin as ->. done.
  - rewrite join_lines_cons by done. apply elem_of_cons in Hin as [->|Hin].
    + by apply contains_app_l.
    + apply contains_app_r. cbn [contains]. rewrite IH by done. apply orb_true_r.
Qed.

Lemma join_lines_free (p : string) (ls : list string) :
  p ≠ EmptyString → all_chars (λ c, bool_decide (c ≠ nl)) p = true →
  (∀ l, l ∈ ls → contains p l = false) → contains p (join_lines ls) = false.
Proof.
  intros Hne Hp. induction ls as [|l ls IH]; intros Hls.
  - simpl. rewrite orb_false_r. destruct p; [done|]. done.
  - destruct ls as [|l2 ls].
    + apply Hls. by left.
    + rewrite join_lines_cons by done. apply not_true_iff_false.
      intros [H|H]%contains_across_newline; try done.
      * rewrite Hls in H; [done|by left].
      * rewrite IH in H; [done|]. intros l' Hl'. apply Hls. by right.
Qed.

Lemma remove_multiline_id (text : string) :
  no_multiline text → _remove_multiline_statements text = text.
Proof.
  intros (H1 & H2 & H3). unfold _remove_multiline_statements.
  by rewrite (sub_id _ _ H1), (sub_id _ _ H2), (sub_id _ _ H3).
Qed.

(** The cleaner quotes the array type with a blank before the brackets. *)
Example tagged_table_clean : (clean_dump tagged_table init).1 = tagged_table_cleaned.
Proof. by vm_compute. Qed.

(** *** Negative defaults in the cleaned text *)



End CleanerProps.

(** * Further properties: logs, reports and the text-level parser *)

Module ConstraintLogProps.
Import PyStr ConstraintHandler ConstraintSpec ConstraintLogSpec.

Lemma supported_cases (c : Constraint.t) :
  supported c
  = bool_decide (Constraint.constraint_type c = Some "p")
    || bool_decide (Constraint.constraint_type c = Some "u")
    || bool_decide (Constraint.constraint_type c = Some "f").
Proof.
  unfold supported. apply eq_true_iff_eq.
  rewrite !orb_true_iff, !bool_decide_eq_true, !elem_of_cons, elem_of_nil. tauto.
Qed.

Ltac no_log :=
  exists [], []; rewrite !List.app_nil_r;
  split; [done|]; split; [constructor|]; split; [done|]; split; [constructor|];
  simpl; rewrite ?length_app; simpl; lia.

Lemma logged_refl tn (h : state) : logged tn [] h h.
Proof. no_log. Qed.

(** One constraint: what is returned and what is logged. *)
Lemma process_single_logged (c : Constraint.t) (tn : Constraint.t → option string)
    (h : state) :
  let '(r, h') := _process_single_constraint c (tn c) h in
  r = (if supported c then Some (processed_form c) else None)
  ∧ logged tn [c] h h'.
Proof.
  unfold _process_single_constraint, logged, processed_form, deferrable_fk, composite_fk,
    drop_matches, drop_type.
  cbn [List.filter]. rewrite !supported_cases.
  destruct (bool_decide (Constraint.constraint_type c = Some "p")) eqn:Ep.
  { apply bool_decide_eq_true in Ep. rewrite Ep.
    rewrite !(bool_decide_eq_false_2 (Some "p" = Some "f")) by done.
    split; [done|]. no_log. }
  destruct (bool_decide (Constraint.constraint_type c = Some "u")) eqn:Eu.
  { apply bool_decide_eq_true in Eu. rewrite Eu.
    rewrite !(bool_decide_eq_false_2 (Some "u" = Some "f")) by done.
    split; [done|]. no_log. }
  destruct (bool_decide (Constraint.constraint_type c = Some "f")) eqn:Ef.
  { cbn [orb negb andb]. unfold _process_foreign_key_constraint.
    destruct (contains "DEFERRABLE" (upper (get_definition c))) eqn:Ed.
    - cbn [Constraint.columns Constraint.set_definition].
      destruct (bool_decide (1 < length (Constraint.columns c))) eqn:Ec.
      + split; [done|]. eexists [], [_]. rewrite !List.app_nil_r.
        split; [done|]. split; [constructor|]. split; [done|].
        split; [by repeat constructor|]. simpl. rewrite !length_app. simpl. lia.
      + split; [done|]. eexists [], [_]. rewrite !List.app_nil_r.
        split; [done|]. split; [constructor|]. split; [done|].
        split; [by repeat constructor|]. simpl. rewrite !length_app. simpl. lia.
    - destruct (bool_decide (1 < length (Constraint.columns c))) eqn:Ec.
      + split; [done|]. no_log.
      + split; [done|]. no_log. }
  cbn [orb negb andb].
  destruct (bool_decide (Constraint.constraint_type c = Some "c")) eqn:Ecc.
  - split; [done|]. eexists [_], []. rewrite !List.app_nil_r.
    split; [done|]. split; [constructor; [by rewrite Ecc|constructor]|].
    split; [done|]. split; [constructor|]. simpl. rewrite !length_app. simpl. lia.
  - unfold _drop_unknown_constraint.
    destruct (startswith (upper (get_definition c)) "EXCLUDE") eqn:Ex.
    + split; [done|]. eexists [_], []. rewrite !List.app_nil_r.
      split; [done|]. split; [constructor; [by rewrite Ecc, Ex|constructor]|].
      split; [done|]. split; [constructor|]. simpl. rewrite !length_app. simpl. lia.
    + split; [done|]. eexists [_], []. rewrite !List.app_nil_r.
      split; [done|]. split; [constructor; [by rewrite Ecc, Ex|constructor]|].
      split; [done|]. split; [constructor|]. simpl. rewrite !length_app. simpl. lia.
Qed.

Lemma logged_app tn (l1 l2 : list Constraint.t) (h h1 h2 : state) :
  logged tn l1 h h1 → logged tn l2 h1 h2 → logged tn (l1 ++ l2) h h2.
Proof.
  intros (d1 & m1 & Hd1 & HF1 & Hm1 & HM1 & Hw1) (d2 & m2 & Hd2 & HF2 & Hm2 & HM2 & Hw2).
  exists (d1 ++ d2), (m1 ++ m2). rewrite !List.filter_app.
  split; [by rewrite Hd2, Hd1, (assoc_L (++))|].
  split; [by apply Forall2_app|].
  split; [by rewrite Hm2, Hm1, (assoc_L (++))|].
  split; [by apply Forall2_app|].
  rewrite Hw2, Hw1, !length_app. lia.
Qed.

Lemma process_table_constraints_logged (l : list Constraint.t) (name : string) (h : state) :
  let '(l', h') := _process_table_constraints l name h in
  l' = processed_form <$> List.filter supported l
  ∧ logged (λ _, Some name) l h h'.
Proof.
  revert h. induction l as [|c l IH]; intros h.
  - split; [done|apply logged_refl].
  - cbn [_process_table_constraints].
    pose proof (process_single_logged c (λ _, Some name) h) as H1. cbv beta in H1.
    destruct (_process_single_constraint c (Some name) h) as [r h1].
    destruct H1 as [-> Hlog1]. specialize (IH h1).
    destruct (_process_table_constraints l name h1) as [l' h'].
    destruct IH as [-> Hlog]. split.
    + cbn [List.filter]. by destruct (supported c).
    + by apply (logged_app _ [c] l h h1 h').
Qed.

Lemma process_standalone_constraints_logged (l : list Constraint.t) (h : state) :
  let '(l', h') := _process_standalone_constraints l h in
  l' = processed_form <$> List.filter supported l
  ∧ logged standalone_table l h h'.
Proof.
  revert h. induction l as [|c l IH]; intros h.
  - split; [done|apply logged_refl].
  - cbn [_process_standalone_constraints].
    pose proof (process_single_logged c standalone_table h) as H1.
    unfold standalone_table at 1 in H1.
    destruct (_process_single_constraint c _ h) as [r h1].
    destruct H1 as [-> Hlog1]. specialize (IH h1).
    destruct (_process_standalone_constraints l h1) as [l' h'].
    destruct IH as [-> Hlog]. split.
    + cbn [List.filter]. by destruct (supported c).
    + by apply (logged_app _ [c] l h h1 h').
Qed.

(** X1: the handler returns the primary-key, unique and foreign-key
    constraints of its input in their original order, whatever it has
    logged before; a constraint is returned as it came, except that the
    definition of a foreign key that mentions DEFERRABLE is rewritten.  This
    holds for the constraints of a table and for the standalone ones. *)
Theorem kept_constraints_in_order (l : list Constraint.t) (name : string) (h : state) :
  (_process_table_constraints l name h).1 = processed_form <$> List.filter supported l
  ∧ (_process_standalone_constraints l h).1 = processed_form <$> List.filter supported l.
Proof.
  pose proof (process_table_constraints_logged l name h) as H1.
  pose proof (process_standalone_constraints_logged l h) as H2.
  destruct (_process_table_constraints l name h), (_process_standalone_constraints l h).
  by destruct H1, H2.
Qed.

(** X2: for every unsupported constraint of the input (CHECK, EXCLUDE or of
    an unknown type) the handler appends one drop record, in input order,
    with the constraint's name, the table name and the type CHECK, EXCLUDE
    or UNKNOWN; for every foreign key that mentions DEFERRABLE it appends
    one modification record; and it emits one warning per drop record, one
    per modification record and one more per composite foreign key.
    Standalone constraints are logged under their own table name, or
    [unknown] without one. *)
Theorem constraint_log_complete (l : list Constraint.t) (name : string) (h : state) :
  logged (λ _, Some name) l h (_process_table_constraints l name h).2
  ∧ logged standalone_table l h (_process_standalone_constraints l h).2.
Proof.
  pose proof (process_table_constraints_logged l name h) as H1.
  pose proof (process_standalone_constraints_logged l h) as H2.
  destruct (_process_table_constraints l name h), (_process_standalone_constraints l h).
  by destruct H1, H2.
Qed.

(** *** Column dictionaries under the handler *)

Lemma col_extends_refl (col : Column.t) : col_extends col col.
Proof. by repeat split. Qed.

Lemma col_extends_trans (c1 c2 c3 : Column.t) :
  col_extends c1 c2 → col_extends c2 c3 → col_extends c1 c3.
Proof.
  intros (A1 & A2 & A3 & A4 & A5 & A6) (B1 & B2 & B3 & B4 & B5 & B6).
  repeat split; try congruence; auto.
Qed.

Lemma cols_extend_refl (σ : Store.t) : cols_extend σ σ.
Proof.
  intros c. destruct (Store.cols σ !! c); constructor. apply col_extends_refl.
Qed.

Lemma cols_extend_same (σ σ' : Store.t) : Store.cols σ' = Store.cols σ → cols_extend σ σ'.
Proof. intros E c. rewrite E. apply cols_extend_refl. Qed.

Lemma cols_extend_trans (σ1 σ2 σ3 : Store.t) :
  cols_extend σ1 σ2 → cols_extend σ2 σ3 → cols_extend σ1 σ3.
Proof.
  intros H1 H2 c. specialize (H1 c). specialize (H2 c).
  destruct H1 as [a b Hab|]; inversion H2; subst; constructor.
  by eapply col_extends_trans.
Qed.

Lemma cols_extend_set (σ : Store.t) (c : loc) (col col' : Column.t) :
  Store.cols σ !! c = Some col → col_extends col col' →
  cols_extend σ (Store.set_col c col' σ).
Proof.
  intros Hc He c'. unfold Store.set_col. simpl.
  destruct (decide (c' = c)) as [->|Hne].
  - rewrite lookup_insert_eq, Hc. by constructor.
  - rewrite lookup_insert_ne by done. apply cols_extend_refl.
Qed.

Lemma mark_primary_key_extends names (σ : Store.t) (c : loc) :
  cols_extend σ (mark_primary_key names σ c).
Proof.
  unfold mark_primary_key. destruct (Store.cols σ !! c) as [col|] eqn:E;
    [|apply cols_extend_refl].
  case_bool_decide; [|apply cols_extend_refl].
  apply (cols_extend_set _ _ col); [done|].
  destruct col. by case_bool_decide; repeat split.
Qed.

Lemma mark_unique_extends names (σ : Store.t) (c : loc) :
  cols_extend σ (mark_unique names σ c).
Proof.
  unfold mark_unique. destruct (Store.cols σ !! c) as [col|] eqn:E;
    [|apply cols_extend_refl].
  destruct (_ && _); [|apply cols_extend_refl].
  apply (cols_extend_set _ _ col); [done|]. destruct col. by repeat split.
Qed.

Lemma foldl_extends {A} (f : Store.t → A → Store.t) (l : list A) (σ : Store.t) :
  (∀ σ a, cols_extend σ (f σ a)) → cols_extend σ (foldl f σ l).
Proof.
  intros Hf. revert σ. induction l as [|a l IH]; intros σ; [apply cols_extend_refl|].
  cbn [foldl]. eapply cols_extend_trans; [apply Hf|apply IH].
Qed.

Lemma mark_columns_extends mark tables name names (σ : Store.t) :
  (∀ names σ c, cols_extend σ (mark names σ c)) →
  cols_extend σ (mark_columns mark tables name names σ).
Proof.
  intros Hmark. unfold mark_columns. apply foldl_extends. intros σ0 t.
  destruct (Store.tbls σ0 !! t); [|apply cols_extend_refl].
  case_bool_decide; [|apply cols_extend_refl].
  apply foldl_extends. intros. apply Hmark.
Qed.

Lemma apply_constraint_extends tables (σ : Store.t) (k : Constraint.t) :
  cols_extend σ (apply_constraint tables σ k).
Proof.
  unfold apply_constraint.
  destruct (_ && _).
  - apply mark_columns_extends, mark_primary_key_extends.
  - destruct (_ && _); [|apply cols_extend_refl].
    apply mark_columns_extends, mark_unique_extends.
Qed.

(** X3: [process_constraints] keeps every column dictionary in its place
    with its name, data type and original type, and never takes back a flag:
    a column that was primary key, unique or not nullable still is; no
    column dictionary appears or disappears, and every table keeps its name
    and its column list. *)
Theorem columns_only_gain_flags (schema : SchemaDict.t) (h : state) (σ : Store.t) :
  let '(out, h', σ') := process_constraints schema h σ in
  cols_extend σ σ' ∧ same_shape σ σ'.
Proof.
  pose proof (ConstraintHandlerProps.process_constraints_phases schema h σ) as H.
  cbv zeta in H.
  destruct (process_constraints schema h σ) as [[out h'] σ'].
  destruct H as (h1 & σ1 & standalone & E1 & _ & _ & _ & _ & _ & _ & ->).
  pose proof (ConstraintHandlerProps.process_tables_spec (SchemaDict.tables schema) h σ) as H1.
  rewrite E1 in H1. destruct H1 as (Hc1 & Hs1 & _).
  pose proof (ConstraintHandlerProps.tag_tables_spec (SchemaDict.tables schema) [] σ1) as H2.
  destruct (foldl tag_table_constraints ([], σ1) (SchemaDict.tables schema)) as [all σ2].
  destruct H2 as (Hc2 & Hs2 & _). cbn [fst snd]. split.
  - eapply cols_extend_trans; [apply cols_extend_same; by rewrite Hc2, Hc1|].
    apply foldl_extends. intros. apply apply_constraint_extends.
  - intros t.
    rewrite (proj1 (ConstraintHandlerProps.apply_constraints_spec _ _ σ2)).
    by rewrite Hs2, Hs1.
Qed.
End ConstraintLogProps.

Module RelationshipMoreProps.
Import PyStr RelationshipBuilder RelationshipSpec RelationshipMoreSpec.

(** *** The lookup *)

Lemma column_dict_snoc (cols : list Column.t) (c : Column.t) :
  column_dict (cols ++ [c]) = <[Column.column_name c := c]> (column_dict cols).
Proof. unfold column_dict. by rewrite foldl_snoc. Qed.

Lemma column_dict_none (cols : list Column.t) (name : string) :
  column_dict cols !! name = None ↔ name ∉ Column.column_name <$> cols.
Proof.
  induction cols as [|c cols IH] using rev_ind.
  - unfold column_dict. simpl. rewrite lookup_empty. split; [|done].
    intros _ H. by apply elem_of_nil in H.
  - rewrite column_dict_snoc, fmap_app, not_elem_of_app. simpl.
    destruct (decide (Column.column_name c = name)) as [->|Hne].
    + rewrite lookup_insert_eq. split; [done|]. intros [_ H]. destruct H. by left.
    + rewrite lookup_insert_ne by done. rewrite IH. split; [|tauto].
      intros H. split; [done|]. by intros ->%list_elem_of_singleton.
Qed.

Lemma table_lookup_snoc (tables : list (Table.t Column.t)) (t : Table.t Column.t) :
  _create_table_lookup (tables ++ [t])
  = <[Table.table_name t := mk_info t (column_dict (Table.columns t))]>
      (_create_table_lookup tables).
Proof. unfold _create_table_lookup. by rewrite foldl_snoc. Qed.

(** The lookup holds, for each name, the last table of that name. *)
Lemma table_lookup_last (tables : list (Table.t Column.t)) (name : string) :
  _create_table_lookup tables !! name
  = (λ t, mk_info t (column_dict (Table.columns t))) <$> last_named tables name.
Proof.
  unfold last_named. induction tables as [|t tables IH] using rev_ind.
  - unfold _create_table_lookup. simpl. by rewrite lookup_empty.
  - rewrite table_lookup_snoc, List.filter_app. cbn [List.filter].
    case_bool_decide as E.
    + rewrite E, lookup_insert_eq, last_snoc. done.
    + rewrite lookup_insert_ne by done. by rewrite List.app_nil_r.
Qed.

Lemma missing_columns_nil (t : Table.t Column.t) (cols : list string) :
  filter (λ col, column_dict (Table.columns t) !! col = None) cols = []
  ↔ Forall (has_column t) cols.
Proof.
  induction cols as [|c cols IH]; [by split; [constructor|]|].
  rewrite filter_cons, Forall_cons. unfold has_column at 1.
  destruct (decide (column_dict (Table.columns t) !! c = None)) as [E|E].
  - split; [done|]. intros [H _]. by apply column_dict_none in E.
  - rewrite IH. split; [|tauto]. intros H. split; [|done].
    destruct (decide (c ∈ Column.column_name <$> Table.columns t)) as [|Hn]; [done|].
    by apply column_dict_none in Hn.
Qed.

Lemma valid_not_fails tables r ty : valid tables r → ¬ fails_as tables r ty.
Proof.
  intros (s & t & Hs & Ht & HF1 & HF2 & Hlen). unfold fails_as. rewrite Hs, Ht.
  intros [[? _]|[(_ & ? & _)|(_ & _ & ? & _)]]; done.
Qed.

Lemma fails_as_unique tables r ty ty' :
  fails_as tables r ty → fails_as tables r ty' → ty = ty'.
Proof.
  unfold fails_as. destruct (last_named tables (source_table r)); [|congruence].
  destruct (last_named tables (target_table r)); [|congruence].
  intros [[? ->]|[(? & ? & ->)|(? & ? & ? & ->)]]
         [[? ->]|[(? & ? & ->)|(? & ? & ? & ->)]]; done.
Qed.

(** *** One candidate *)

Lemma build_single_verdict (r : relationship) (tables : list (Table.t Column.t))
    (st : state) :
  match _build_single_relationship r (_create_table_lookup tables) st with
  | (Some b, st') =>
      valid tables r ∧ copies r b
      ∧ skipped_relationships st' = skipped_relationships st
      ∧ built_relationships st' = built_relationships st
  | (None, st') =>
      ∃ reason ty,
        fails_as tables r ty
        ∧ skipped_relationships st'
          = skipped_relationships st ++ [mk_skip r reason ty (source_table r) (target_table r)]
        ∧ built_relationships st' = built_relationships st
  end.
Proof.
  unfold _build_single_relationship, fails_as, valid.
  rewrite !table_lookup_last.
  destruct (last_named tables (source_table r)) as [s|]; [|by eexists _, _].
  destruct (last_named tables (target_table r)) as [t|]; [|by eexists _, _].
  cbn [fmap option_fmap option_map columns].
  pose proof (missing_columns_nil s (source_columns r)) as Hs.
  pose proof (missing_columns_nil t (target_columns r)) as Ht.
  case_bool_decide as E1; cbn [negb].
  2:{ eexists _, _. split; [|done]. left. split; [|done]. by rewrite <-Hs. }
  case_bool_decide as E2; cbn [negb].
  2:{ eexists _, _. split; [|done]. right; left.
      split; [by apply Hs|]. split; [|done]. by rewrite <-Ht. }
  case_bool_decide as E3; cbn [negb].
  2:{ eexists _, _. split; [|done]. right; right.
      split; [by apply Hs|]. split; [by apply Ht|]. done. }
  apply Hs in E1. apply Ht in E2.
  pose proof (RelationshipBuilderProps.determine_state r
                (mk_info s (column_dict (Table.columns s)))
                (mk_info t (column_dict (Table.columns t))) st) as [Hd1 Hd2].
  assert ((_determine_relationship_type r
             (mk_info s (column_dict (Table.columns s)))
             (mk_info t (column_dict (Table.columns t))) st).1
          ∈ ["one-to-one"; "many-to-one"]) as Hty.
  { unfold _determine_relationship_type.
    destruct (_ && _); [apply list_elem_of_here|].
    destruct (_columns_are_unique _ _); apply list_elem_of_further, list_elem_of_here. }
  destruct (_determine_relationship_type r _ _ st) as [rel_type st1].
  cbn [fst snd] in *. cbn [b_is_composite b_is_self_referencing].
  split; [by exists s, t|]. split; [by repeat split|].
  destruct (bool_decide (1 < length (source_columns r)));
    destruct (bool_decide (source_table r = target_table r)); done.
Qed.

(** *** The loop over the candidates *)

Lemma elem_of_snoc {A} (l : list A) (a x : A) : x ∈ l ++ [a] ↔ x ∈ l ∨ x = a.
Proof. by rewrite elem_of_app, list_elem_of_singleton. Qed.

Lemma build_steps_accounted (tables : list (Table.t Column.t)) (rs : list relationship)
    (st : state) :
  let st' := foldl (build_step (_create_table_lookup tables)) st rs in
  ∃ bs sks,
    built_relationships st' = built_relationships st ++ bs
    ∧ skipped_relationships st' = skipped_relationships st ++ sks
    ∧ accounted tables rs bs sks.
Proof.
  induction rs as [|r rs IH] using rev_ind.
  - exists [], []. rewrite !List.app_nil_r. split; [done|]. split; [done|].
    repeat split; intros; by match goal with H : _ ∈ [] |- _ => apply elem_of_nil in H end.
  - cbv zeta in *. rewrite foldl_snoc.
    destruct IH as (bs & sks & Hb & Hs & H1 & H2 & H3 & H4 & Hlen).
    set (st1 := foldl _ st rs) in *. unfold build_step.
    pose proof (build_single_verdict r tables st1) as Hv.
    destruct (_build_single_relationship r _ st1) as [[b|] st2].
    + destruct Hv as (Hval & Hcp & Hs2 & Hb2).
      exists (bs ++ [b]), sks. cbn [built_relationships skipped_relationships].
      split; [by rewrite Hb2, Hb, (assoc_L (++))|]. split; [by rewrite Hs2|].
      split; [|split; [|split; [|split]]].
      * intros r' [Hr'| ->]%elem_of_snoc Hv'.
        -- destruct (H1 r' Hr' Hv') as (b' & ? & ?). exists b'.
           split; [apply elem_of_app; by left|done].
        -- exists b. split; [apply elem_of_app; right; by left|done].
      * intros r' ty [Hr'| ->]%elem_of_snoc Hf; [by apply H2|].
        by destruct (valid_not_fails _ _ _ Hval Hf).
      * intros b' [Hb'| ->]%elem_of_snoc.
        -- destruct (H3 b' Hb') as (r' & ? & ? & ?). exists r'.
           split; [apply elem_of_app; by left|done].
        -- exists r. split; [apply elem_of_app; right; by left|done].
      * intros sk Hsk. destruct (H4 sk Hsk) as [? ?].
        split; [apply elem_of_app; by left|done].
      * rewrite !length_app. simpl. lia.
    + destruct Hv as (reason & ty & Hf & Hs2 & Hb2).
      exists bs, (sks ++ [mk_skip r reason ty (source_table r) (target_table r)]).
      split; [by rewrite Hb2|]. split; [by rewrite Hs2, Hs, (assoc_L (++))|].
      split; [|split; [|split; [|split]]].
      * intros r' [Hr'| ->]%elem_of_snoc Hv'; [by apply H1|].
        by destruct (valid_not_fails _ _ _ Hv' Hf).
      * intros r' ty' [Hr'| ->]%elem_of_snoc Hf'.
        -- destruct (H2 r' ty' Hr' Hf') as (sk & ? & ? & ?). exists sk.
           split; [apply elem_of_app; by left|done].
        -- eexists. split; [apply elem_of_app; right; by left|].
           split; [done|]. simpl. by eapply fails_as_unique.
      * intros b' Hb'. destruct (H3 b' Hb') as (r' & ? & ? & ?). exists r'.
        split; [apply elem_of_app; by left|done].
      * intros sk [Hsk| ->]%elem_of_snoc.
        -- destruct (H4 sk Hsk) as [? ?]. split; [apply elem_of_app; by left|done].
        -- split; [apply elem_of_app; right; by left|done].
      * rewrite !length_app. simpl. lia.
Qed.

(** *** Deduplication *)

Lemma dedup_go_distinct (rels : list built) (seen : gset signature) (dedup : list built)
    (st : state) :
  (∀ s, s ∈ seen ↔ s ∈ _create_relationship_signature <$> dedup) →
  NoDup (_create_relationship_signature <$> dedup) →
  let '(res, st') := dedup_go rels seen dedup st in
  NoDup (_create_relationship_signature <$> res)
  ∧ (∀ b, b ∈ dedup ∨ b ∈ rels →
          _create_relationship_signature b ∈ _create_relationship_signature <$> res)
  ∧ length res ≤ length dedup + length rels.
Proof.
  revert seen dedup st. induction rels as [|b rels IH]; intros seen dedup st Hseen Hnd.
  - simpl. split; [done|]. split; [|lia].
    intros b [Hb|Hb]; [by apply list_elem_of_fmap_2|by apply elem_of_nil in Hb].
  - cbn [dedup_go]. case_bool_decide as E.
    + specialize (IH ({[_create_relationship_signature b]} ∪ seen) (dedup ++ [b]) st).
      destruct (dedup_go rels _ (dedup ++ [b]) st) as [res st'].
      destruct IH as (Hnd' & Hin & Hlen).
      * intros s. rewrite fmap_app, elem_of_app, elem_of_union, elem_of_singleton.
        rewrite Hseen. change (_create_relationship_signature <$> [b])
          with [_create_relationship_signature b].
        rewrite list_elem_of_singleton. tauto.
      * rewrite fmap_app. apply NoDup_app. split; [done|]. split; [|apply NoDup_singleton].
        intros s Hs Hs'. change (_create_relationship_signature <$> [b])
          with [_create_relationship_signature b] in Hs'.
        apply list_elem_of_singleton in Hs' as ->. by apply E, Hseen.
      * split; [done|]. split.
        -- intros b' [Hb'|[->|Hb']%elem_of_cons]; apply Hin.
           ++ left. apply elem_of_app. by left.
           ++ left. apply elem_of_app. right. by left.
           ++ by right.
        -- rewrite length_app in Hlen. simpl in *. lia.
    + specialize (IH seen dedup
                    (_generate_warning
                       ("Duplicate relationship " +:+ b_source_table b +:+ " -> " +:+
                        b_target_table b +:+ " removed") st) Hseen Hnd).
      destruct (dedup_go rels seen dedup _) as [res st'].
      destruct IH as (Hnd' & Hin & Hlen). split; [done|]. split.
      * intros b' [Hb'|[->|Hb']%elem_of_cons].
        -- apply Hin. by left.
        -- apply Hseen in E. apply list_elem_of_fmap in E as (b0 & -> & Hb0).
           apply Hin. by left.
        -- apply Hin. by right.
      * simpl. lia.
Qed.

(** What [build_relationships] returns and records. *)
Lemma build_relationships_accounted (relationships : list relationship)
    (tables : list (Table.t Column.t)) (st : state) :
  let '(res, st') := build_relationships relationships tables st in
  ∃ bs, accounted tables relationships bs (skipped_relationships st')
        ∧ NoDup (_create_relationship_signature <$> res)
        ∧ (∀ b, b ∈ res → b ∈ bs)
        ∧ (∀ b, b ∈ bs →
             _create_relationship_signature b ∈ _create_relationship_signature <$> res)
        ∧ length res ≤ length bs.
Proof.
  unfold build_relationships, _deduplicate_relationships.
  destruct (build_steps_accounted tables relationships (mk_state [] [] []))
    as (bs & sks & Hb & Hs & Hacc).
  set (st1 := foldl _ _ relationships) in *. simpl in Hb, Hs.
  pose proof (dedup_go_distinct (built_relationships st1) ∅ [] st1) as Hd.
  pose proof (RelationshipBuilderProps.dedup_go_spec (built_relationships st1) ∅ [] st1) as Hd2.
  destruct (dedup_go (built_relationships st1) ∅ [] st1) as [res st2].
  destruct Hd as (Hnd & Hin & Hlen).
  { intros s. rewrite elem_of_empty. simpl. by rewrite elem_of_nil. }
  { constructor. }
  destruct Hd2 as [Hsub Hsk]. cbn [fst snd built_relationships skipped_relationships].
  exists bs. rewrite Hsk, Hs. split; [done|]. split; [done|]. split.
  - intros b Hb'. destruct (Hsub b Hb') as [H|H]; [by apply elem_of_nil in H|].
    by rewrite <-Hb.
  - split.
    + intros b Hb'. apply Hin. right. by rewrite Hb.
    + rewrite Hb in Hlen. simpl in Hlen. lia.
Qed.

Lemma copies_signature (r : relationship) (b : built) :
  copies r b → _create_relationship_signature b = candidate_signature r.
Proof.
  intros (H1 & H2 & H3 & H4 & _).
  unfold _create_relationship_signature, candidate_signature. congruence.
Qed.

(** X4: the relationships returned by [build_relationships] have pairwise
    different signatures (source table, source columns, target table,
    target columns); each copies a candidate that passes the validation -
    tables, columns, constraint name and actions are the candidate's, the
    composite and self-reference flags and the type are set from it - and
    every candidate that passes the validation has its signature among
    them.  A table name stands for the last table of that name. *)
Theorem returned_relationships_distinct (relationships : list relationship)
    (tables : list (Table.t Column.t)) (st : state) :
  let '(res, st') := build_relationships relationships tables st in
  NoDup (_create_relationship_signature <$> res)
  ∧ (∀ b, b ∈ res → ∃ r, r ∈ relationships ∧ valid tables r ∧ copies r b)
  ∧ (∀ r, r ∈ relationships → valid tables r →
       candidate_signature r ∈ _create_relationship_signature <$> res).
Proof.
  pose proof (build_relationships_accounted relationships tables st) as H.
  destruct (build_relationships relationships tables st) as [res st'].
  destruct H as (bs & (H1 & _ & H3 & _) & Hnd & Hsub & Hin & _).
  split; [done|]. split.
  - intros b Hb. by apply H3, Hsub.
  - intros r Hr Hv. destruct (H1 r Hr Hv) as (b & Hb & Hcp).
    rewrite <-(copies_signature r b Hcp). by apply Hin.
Qed.

(** X5: the skipped list of [build_relationships] holds exactly the
    candidates that fail the validation, each under the type of the first
    check it fails in the order source table, target table, source columns,
    target columns, column count; and the returned and the skipped
    relationships together are at most as many as the candidates. *)
Theorem skipped_relationships_classified (relationships : list relationship)
    (tables : list (Table.t Column.t)) (st : state) :
  let '(res, st') := build_relationships relationships tables st in
  (∀ r ty, r ∈ relationships → fails_as tables r ty → skipped_as st' r ty)
  ∧ (∀ sk, sk ∈ skipped_relationships st' →
       sk_relationship sk ∈ relationships
       ∧ fails_as tables (sk_relationship sk) (sk_skip_type sk))
  ∧ length res + length (skipped_relationships st') ≤ length relationships.
Proof.
  pose proof (build_relationships_accounted relationships tables st) as H.
  destruct (build_relationships relationships tables st) as [res st'].
  destruct H as (bs & (_ & H2 & _ & H4 & Hlen) & _ & _ & _ & Hle).
  split; [|split; [done|lia]].
  intros r ty Hr Hf. by apply H2.
Qed.
End RelationshipMoreProps.

Module CleanerLogProps.
Import PyStr Aux Re SQLCleaner CleanerSpec CleanerLogSpec StrFacts ReFacts CleanerProps.

(** *** Line rules against statement types *)

Lemma removed_classified (line : string) :
  _should_remove_line line = true →
  (_identify_statement_type line, _get_removal_reason (_identify_statement_type line))
    ∈ statement_reasons.
Proof.
  unfold _should_remove_line, _identify_statement_type. cbv zeta.
  destruct (is_empty (strip line) || startswith (strip line) "--"); [done|].
  repeat match goal with
         | |- context [if ?b then true else _] =>
             destruct b; [intros _; apply (bool_decide_unpack _); by vm_compute|]
         end.
  done.
Qed.

(** *** The loop of [clean_dump] *)

Lemma clean_lines_log (lines : list string) (i : nat) (acc : list string) (st : state) :
  (clean_lines lines i acc st).1
  = acc ++ ((λ nl, _clean_line nl.2 nl.1) <$> kept (numbered i lines))
  ∧ removed_statements (clean_lines lines i acc st).2
    = removed_statements st ++ (removal_of <$> dropped (numbered i lines)).
Proof.
  revert i acc st. induction lines as [|line rest IH]; intros i acc st.
  - simpl. by rewrite !List.app_nil_r.
  - cbn [clean_lines numbered]. unfold kept, dropped. cbn [List.filter snd].
    destruct (_should_remove_line line) eqn:E; cbn [negb].
    + destruct (IH (S i) acc (_log_removal line (i + 1) st)) as [-> ->].
      split; [done|]. unfold _log_removal. cbn [removed_statements fmap list_fmap].
      by rewrite <-(assoc_L (++)).
    + destruct (IH (S i) (acc ++ [_clean_line line (i + 1)])
                  (mk_state (removed_statements st)
                     (<[length acc + 1 := i + 1]> (line_mapping st)))) as [-> ->].
      split; [|done]. cbn [fmap list_fmap fst snd]. by rewrite <-(assoc_L (++)).
Qed.

Lemma clean_lines_mapping (lines : list string) (i : nat) (acc : list string) (st : state)
    (k : nat) :
  line_mapping (clean_lines lines i acc st).2 !! (length acc + S k)
  = match kept (numbered i lines) !! k with
    | Some nl => Some nl.1
    | None => line_mapping st !! (length acc + S k)
    end
  ∧ (∀ j, j ≤ length acc →
       line_mapping (clean_lines lines i acc st).2 !! j = line_mapping st !! j).
Proof.
  revert i acc st k. induction lines as [|line rest IH]; intros i acc st k.
  - done.
  - cbn [clean_lines numbered]. unfold kept. cbn [List.filter snd].
    destruct (_should_remove_line line) eqn:E; cbn [negb].
    + destruct (IH (S i) acc (_log_removal line (i + 1) st) k) as [H1 H2]. done.
    + set (st1 := mk_state (removed_statements st)
                    (<[length acc + 1 := i + 1]> (line_mapping st))).
      set (acc1 := acc ++ [_clean_line line (i + 1)]).
      assert (length acc1 = length acc + 1) as Hlen
        by (unfold acc1; rewrite List.length_app; simpl; lia).
      split.
      * destruct k as [|k].
        -- destruct (IH (S i) acc1 st1 0) as [_ H2].
           rewrite H2 by lia. unfold st1. cbn [line_mapping lookup].
           by rewrite lookup_insert_eq.
        -- destruct (IH (S i) acc1 st1 k) as [H1 _].
           replace (length acc + S (S k)) with (length acc1 + S k) by lia.
           rewrite H1. cbn [lookup list_lookup]. fold (kept (numbered (S i) rest)).
           destruct (kept (numbered (S i) rest) !! k); [done|].
           unfold st1. cbn [line_mapping]. rewrite lookup_insert_ne by lia. done.
      * intros j Hj. destruct (IH (S i) acc1 st1 0) as [_ H2].
        rewrite H2 by lia. unfold st1. cbn [line_mapping].
        rewrite lookup_insert_ne by lia. done.
Qed.

Lemma numbered_lookup (lines : list string) (i j : nat) :
  numbered i lines !! j = (λ line, (i + j + 1, line)) <$> lines !! j.
Proof.
  revert i j. induction lines as [|line rest IH]; intros i j; [done|].
  destruct j as [|j]; simpl.
  - by rewrite Nat.add_0_r.
  - rewrite IH. by replace (S i + j + 1) with (i + S j + 1) by lia.
Qed.

Lemma numbered_elem (lines : list string) (i n : nat) (line : string) :
  (n, line) ∈ numbered i lines ↔ i < n ∧ lines !! (n - i - 1) = Some line.
Proof.
  rewrite list_elem_of_lookup. split.
  - intros [j Hj]. rewrite numbered_lookup in Hj.
    destruct (lines !! j) as [l|] eqn:E; [|done]. simpl in Hj.
    injection Hj as <- <-. split; [lia|]. by replace (i + j + 1 - i - 1) with j by lia.
  - intros [Hn Hl]. exists (n - i - 1). rewrite numbered_lookup, Hl. simpl.
    do 2 f_equal. lia.
Qed.

Lemma kept_elem (nls : list (nat * string)) (nl : nat * string) :
  nl ∈ kept nls ↔ nl ∈ nls ∧ _should_remove_line nl.2 = false.
Proof.
  unfold kept. rewrite !list_elem_of_In, filter_In, negb_true_iff. done.
Qed.

Lemma dropped_elem (nls : list (nat * string)) (nl : nat * string) :
  nl ∈ dropped nls ↔ nl ∈ nls ∧ _should_remove_line nl.2 = true.
Proof. unfold dropped. by rewrite !list_elem_of_In, filter_In. Qed.

Lemma kept_dropped_length (nls : list (nat * string)) :
  length (kept nls) + length (dropped nls) = length nls.
Proof.
  induction nls as [|nl nls IH]; [done|]. unfold kept, dropped in *. cbn [List.filter].
  destruct (_should_remove_line nl.2); simpl; lia.
Qed.

Lemma numbered_length (lines : list string) (i : nat) :
  length (numbered i lines) = length lines.
Proof. revert i. induction lines as [|l ls IH]; intros i; [done|]. simpl. by rewrite IH. Qed.

Lemma clean_dump_unfold (sql_content : string) (st : state) :
  clean_dump sql_content st
  = (_remove_multiline_statements
       (join_lines (clean_lines (split_lines sql_content) 0 [] st).1),
     (clean_lines (split_lines sql_content) 0 [] st).2).
Proof.
  unfold clean_dump. by destruct (clean_lines (split_lines sql_content) 0 [] st).
Qed.

(** X6: [clean_dump] appends to the removal log one record for each line that
    the line rules remove, in input order, with the line's number (counted
    from one), the first hundred characters of the stripped line, and a
    statement type with its reason; the type is always one of the nine that
    the rules know, never UNKNOWN.  The removed lines are exactly the lines
    of the input for which [_should_remove_line] answers yes, and the kept
    and the removed lines together are the lines of the input. *)
Theorem removed_lines_logged (sql_content : string) (st : state) :
  let nls := numbered 0 (split_lines sql_content) in
  removed_statements (clean_dump sql_content st).2
  = removed_statements st ++ (removal_of <$> dropped nls)
  ∧ (∀ n line, (n, line) ∈ dropped nls
       ↔ 0 < n ∧ split_lines sql_content !! (n - 1) = Some line
         ∧ _should_remove_line line = true)
  ∧ Forall (λ nl, (_identify_statement_type nl.2,
                   _get_removal_reason (_identify_statement_type nl.2))
                  ∈ statement_reasons) (dropped nls)
  ∧ length (kept nls) + length (dropped nls) = length (split_lines sql_content).
Proof.
  intros nls. rewrite clean_dump_unfold. cbn [snd].
  split; [apply clean_lines_log|]. split; [|split].
  - intros n line. rewrite dropped_elem. unfold nls. rewrite numbered_elem.
    rewrite Nat.sub_0_r. cbn [snd]. tauto.
  - apply Forall_forall. intros nl [_ H]%dropped_elem. by apply removed_classified.
  - rewrite kept_dropped_length. apply numbered_length.
Qed.

(** X7: the text returned by [clean_dump] is the multi-line removal applied
    to the kept lines, each rewritten by [_clean_line], joined by line
    breaks; and [line_mapping] sends the position of each kept line among
    the kept lines (counted from one) to its line number in the input.
    Entries beyond the number of kept lines, and the entry 0, are those the
    cleaner had before: the mapping is not reset. *)
Theorem line_mapping_tracks_kept_lines (sql_content : string) (st : state) :
  let nls := numbered 0 (split_lines sql_content) in
  let st' := (clean_dump sql_content st).2 in
  (clean_dump sql_content st).1
  = _remove_multiline_statements
      (join_lines ((λ nl, _clean_line nl.2 nl.1) <$> kept nls))
  ∧ (∀ k, line_mapping st' !! S k
          = match kept nls !! k with
            | Some nl => Some nl.1
            | None => line_mapping st !! S k
            end)
  ∧ line_mapping st' !! 0 = line_mapping st !! 0
  ∧ (∀ n line, (n, line) ∈ kept nls
       ↔ 0 < n ∧ split_lines sql_content !! (n - 1) = Some line
         ∧ _should_remove_line line = false).
Proof.
  intros nls st'. unfold st'. rewrite clean_dump_unfold. cbn [fst snd].
  split; [|split; [|split]].
  - by rewrite (proj1 (clean_lines_log _ 0 [] st)).
  - intros k. apply (clean_lines_mapping _ 0 [] st k).
  - apply (clean_lines_mapping _ 0 [] st 0). simpl. lia.
  - intros n line. rewrite kept_elem. unfold nls. rewrite numbered_elem.
    rewrite Nat.sub_0_r. cbn [snd]. tauto.
Qed.

(** *** The array rewrite *)

Lemma array_matcher_shape (prev : option ascii) (x rep rest : string) :
  array_matcher prev x = Some (rep, rest) →
  ∃ c word,
    x = String c (word +:+ String "[" (String "]" rest))
    ∧ all_chars is_word (String c word) = true
    ∧ rep = String dq (String c word +:+ " []" +:+ String dq EmptyString).
Proof.
  unfold array_matcher. destruct (at_word_start prev); [|done].
  destruct (span is_word x) as [word r1] eqn:Hspan.
  destruct word as [|c word]; [done|]. cbn [is_empty].
  destruct (strip_prefix "[]" r1) as [r2|] eqn:E; [|done].
  intros [= <- <-]. apply span_spec in Hspan as (-> & Hw & _).
  apply strip_prefix_spec in E as ->. by exists c, word.
Qed.

Lemma array_matcher_nonword (prev : option ascii) (c : ascii) (r : string) :
  is_word c = false → array_matcher prev (String c r) = None.
Proof.
  intros Hc. unfold array_matcher. destruct (at_word_start prev); [|done].
  cbn [span]. by rewrite Hc.
Qed.

Lemma sub_go_skip (m : matcher string) (prev : option ascii) (a : string) (c : ascii)
    (b : string) :
  sub_go m prev (S (String.length a)) (a +:+ String c b) = sub_go m (Some c) 0 b.
Proof.
  revert prev. induction a as [|d a IH]; intros prev; [done|].
  rewrite app_cons. cbn [String.length sub_go]. apply IH.
Qed.

Lemma startswith_brackets (y : ascii) (z : string) :
  startswith (String y z) "[]" = true → y = "["%char.
Proof.
  unfold startswith. cbn [strip_prefix].
  destruct (bool_decide ("["%char = y)) eqn:E.
  - by apply bool_decide_eq_true in E.
  - by intros [? ?]%bool_decide_eq_true.
Qed.

Lemma startswith_brackets_cons (z : string) :
  startswith (String "[" z) "[]" = startswith z "]".
Proof. done. Qed.

Lemma has_bare_array_nonword (c : ascii) (r : string) :
  is_word c = false → has_bare_array (String c r) = has_bare_array r.
Proof. intros Hc. cbn [has_bare_array]. by rewrite Hc. Qed.

Lemma word_run_free (w z : string) :
  all_chars is_word w = true →
  has_bare_array (w +:+ String " " z) = has_bare_array z.
Proof.
  induction w as [|x w IH]; intros Hw.
  - rewrite app_nil_l. by apply has_bare_array_nonword.
  - simpl in Hw. apply andb_true_iff in Hw as [Hx Hw]. rewrite app_cons.
    cbn [has_bare_array]. rewrite IH by done.
    replace (startswith (w +:+ String " " z) "[]") with false;
      [by rewrite andb_false_r|].
    symmetry. apply not_true_is_false. destruct w as [|y w].
    + rewrite app_nil_l. by intros ?%startswith_brackets.
    + rewrite app_cons. intros ->%startswith_brackets.
      by simpl in Hw.
Qed.

Lemma quoted_array_free (w tail : string) :
  all_chars is_word w = true → has_bare_array tail = false →
  has_bare_array (String dq (w +:+ " []" +:+ String dq EmptyString) +:+ tail) = false.
Proof.
  intros Hw Ht. rewrite app_cons, !app_assoc, !app_cons, app_nil_l.
  rewrite (has_bare_array_nonword dq) by done.
  rewrite word_run_free by done.
  rewrite (has_bare_array_nonword "[") by done.
  rewrite (has_bare_array_nonword "]") by done.
  by rewrite (has_bare_array_nonword dq) by done.
Qed.

(** The text after a copied character does not start with the brackets
    unless the input does. *)
Lemma array_sub_head (prev : option ascii) (r : string) :
  startswith r "[]" = false → startswith (sub_go array_matcher prev 0 r) "[]" = false.
Proof.
  intros H. destruct r as [|d r2]; [done|].
  destruct (array_matcher prev (String d r2)) as [[rep rest]|] eqn:E.
  - rewrite (sub_go_match _ _ _ _ _ _ E).
    apply array_matcher_shape in E as (c & word & _ & _ & ->). done.
  - rewrite sub_go_copy by done. apply not_true_is_false.
    intros H'. pose proof (startswith_brackets _ _ H') as ->.
    rewrite startswith_brackets_cons in H, H'.
    destruct r2 as [|e r3]; [done|].
    destruct (array_matcher (Some "["%char) (String e r3)) as [[rep rest]|] eqn:E2.
    + rewrite (sub_go_match _ _ _ _ _ _ E2) in H'.
      apply array_matcher_shape in E2 as (c & word & _ & _ & ->). done.
    + rewrite sub_go_copy in H' by done. unfold startswith in H, H'.
      cbn [strip_prefix] in H, H'. destruct (bool_decide ("]"%char = e)); [|done].
      apply bool_decide_eq_false in H. destruct H. by eexists.
Qed.

Lemma array_sub_free (n : nat) (s : string) (prev : option ascii) :
  String.length s ≤ n →
  (at_word_start prev = false → strip_prefix "[]" (span is_word s).2 = None) →
  has_bare_array (sub_go array_matcher prev 0 s) = false.
Proof.
  revert s prev. induction n as [|n IH]; intros s prev Hlen Hinv.
  - destruct s; [done|simpl in Hlen; lia].
  - destruct s as [|c r]; [done|].
    destruct (array_matcher prev (String c r)) as [[rep rest]|] eqn:E.
    + rewrite (sub_go_match _ _ _ _ _ _ E).
      apply array_matcher_shape in E as (c' & word & Heq & Hw & ->).
      injection Heq as <- ->.
      replace (consumed _ rest - 1) with (S (String.length (word +:+ "[")));
        [|unfold consumed; cbn [String.length]; rewrite !length_app;
          cbn [String.length]; lia].
      replace (word +:+ String "[" (String "]" rest))
        with ((word +:+ "[") +:+ String "]" rest)
        by (by rewrite app_assoc, app_cons, app_nil_l).
      rewrite sub_go_skip. apply quoted_array_free; [done|].
      apply IH; [|by intros ?].
      simpl in Hlen. rewrite !length_app in Hlen. simpl in Hlen. lia.
    + rewrite sub_go_copy by done. cbn [has_bare_array].
      destruct (is_word c) eqn:Hc.
      * assert (strip_prefix "[]" (span is_word r).2 = None) as Hr.
        { destruct (at_word_start prev) eqn:Hp.
          - unfold array_matcher in E. rewrite Hp in E. cbn [span] in E.
            rewrite Hc in E. destruct (span is_word r) as [w r1]. cbn [is_empty snd] in *.
            by destruct (strip_prefix "[]" r1).
          - specialize (Hinv eq_refl). cbn [span] in Hinv. rewrite Hc in Hinv.
            by destruct (span is_word r). }
        apply orb_false_iff. split.
        -- cbn [andb]. apply array_sub_head. destruct r as [|d r2]; [done|].
           apply not_true_is_false. intros H'.
           pose proof (startswith_brackets _ _ H') as ->.
           cbn [span] in Hr. change (is_word "[") with false in Hr. cbn [snd] in Hr.
           unfold startswith in H'. rewrite Hr in H'.
           by apply bool_decide_eq_true in H' as [? ?].
        -- apply IH; [simpl in Hlen; lia|done].
      * cbn [andb orb]. apply IH; [simpl in Hlen; lia|].
        unfold at_word_start. by rewrite Hc.
Qed.


(** *** Text without anything to clean *)

Lemma split_lines_cons (s : string) : ∃ l ls, split_lines s = l :: ls.
Proof.
  induction s as [|c s (l & ls & IH)]; [by eexists _, _|]. cbn [split_lines].
  case_bool_decide; [by eexists _, _|]. rewrite IH. by eexists _, _.
Qed.

Lemma join_split (s : string) : join_lines (split_lines s) = s.
Proof.
  induction s as [|c s IH]; [done|]. cbn [split_lines].
  destruct (split_lines_cons s) as (l & ls & El). rewrite El in *.
  case_bool_decide as E.
  - subst c. rewrite join_lines_cons by done. by rewrite IH.
  - destruct ls as [|l2 ls].
    + simpl in *. by rewrite IH.
    + rewrite join_lines_cons by done. rewrite join_lines_cons in IH by done.
      rewrite <-IH. by rewrite app_cons.
Qed.

Lemma foldl_id {A B} (f : A → B → A) (l : list B) (a : A) :
  (∀ b, b ∈ l → f a b = a) → foldl f a l = a.
Proof.
  induction l as [|b l IH]; intros H; [done|]. cbn [foldl].
  rewrite (H b) by apply list_elem_of_here. apply IH. intros b' Hb'. apply H.
  by apply list_elem_of_further.
Qed.

Lemma untouched_clean_line (line : string) (n : nat) :
  untouched line = true → _clean_line line n = line ∧ _should_remove_line line = false.
Proof.
  unfold untouched. rewrite !andb_true_iff, !negb_true_iff, !bool_decide_eq_true.
  intros ((((Hr & Hn) & Hu) & Hw) & Ha). split; [|done].
  unfold _clean_line. cbv zeta. rewrite (sub_id _ _ Hn), Hu.
  rewrite foldl_id; [by apply sub_id|].
  intros [old_type new_type] Hin. apply sub_id.
  rewrite forallb_forall in Hw. apply list_elem_of_In in Hin.
  specialize (Hw _ Hin). by apply bool_decide_eq_true in Hw.
Qed.

Lemma kept_untouched (lines : list string) (i : nat) :
  forallb untouched lines = true →
  (λ nl : nat * string, _clean_line nl.2 nl.1) <$> kept (numbered i lines) = lines.
Proof.
  revert i. induction lines as [|line rest IH]; intros i; [done|].
  cbn [forallb numbered]. intros [Hl Hrest]%andb_true_iff.
  destruct (untouched_clean_line line (i + 1) Hl) as [Hc Hr].
  unfold kept. cbn [List.filter snd]. rewrite Hr. cbn [negb fmap list_fmap fst snd].
  rewrite Hc. f_equal. by apply IH.
Qed.

(** X9: a text in which no line is removed by the line rules, no line holds
    a negative default, the UUID call, a multi-word type or an array type,
    and none of the three multi-line patterns occurs, is returned by
    [clean_dump] unchanged; nothing is logged as removed. *)
Theorem clean_text_unchanged (sql_content : string) (st : state) :
  forallb untouched (split_lines sql_content) = true →
  no_multiline sql_content →
  (clean_dump sql_content st).1 = sql_content
  ∧ removed_statements (clean_dump sql_content st).2 = removed_statements st.
Proof.
  intros Hl Hm. rewrite clean_dump_unfold. cbn [fst snd].
  destruct (clean_lines_log (split_lines sql_content) 0 [] st) as [-> ->].
  rewrite kept_untouched by done. change ([] ++ split_lines sql_content)
    with (split_lines sql_content).
  rewrite join_split. split; [by apply remove_multiline_id|].
  replace (dropped (numbered 0 (split_lines sql_content))) with (@nil (nat * string)).
  - simpl. by rewrite List.app_nil_r.
  - symmetry. generalize 0.
    induction (split_lines sql_content) as [|line rest IH]; intros i; [done|].
    cbn [forallb] in Hl. apply andb_true_iff in Hl as [Hl1 Hl2].
    destruct (untouched_clean_line line 0 Hl1) as [_ Hr].
    cbn [numbered]. unfold dropped. cbn [List.filter snd]. rewrite Hr. by apply IH.
Qed.

Lemma clean_text_unchanged_witness :
  forallb untouched (split_lines plain_table) = true
  ∧ no_multiline plain_table
  ∧ (clean_dump plain_table init).1 = plain_table
  ∧ removed_statements (clean_dump plain_table init).2 = [].
Proof.
  assert (forallb untouched (split_lines plain_table) = true) as H1 by (by vm_compute).
  assert (no_multiline plain_table) as H2 by (by vm_compute).
  split; [done|]. split; [done|]. exact (clean_text_unchanged plain_table init H1 H2).
Defined.
End CleanerLogProps.

Module TypeMapperMoreProps.
Import PyStr Aux StrFacts TypeMapper TypeMapperSpec TypeMapperProps SharingSpec SharingProps
  TypeLogSpec.

(** *** Fallback to text *)

Lemma dict_get_In (d : list (string * string)) (k v : string) :
  dict_get d k = Some v → (k, v) ∈ d.
Proof.
  induction d as [|[k' v'] d IH]; [done|]. simpl. case_bool_decide as E.
  - intros [= ->]. subst. apply list_elem_of_here.
  - intros H. by apply list_elem_of_further, IH.
Qed.

Lemma text_keys (k : string) :
  dict_get type_map k = Some "text" → dict_get semantic_loss_types k = None → k = "text".
Proof.
  intros Hin%dict_get_In.
  assert (Forall (λ kv : string * string,
                    kv.2 = "text" → dict_get semantic_loss_types kv.1 = None
                    → kv.1 = "text") type_map) as HF.
  { unfold type_map.
    repeat (constructor;
            [cbn [fst snd]; intros H1 H2; first [done | by vm_compute in H2]|]).
    constructor. }
  rewrite Forall_forall in HF. exact (HF _ Hin eq_refl).
Qed.

Lemma keeps_params_not_text (d p : string) :
  keeps_params d = true → d +:+ "(" +:+ p +:+ ")" ≠ "text".
Proof.
  unfold keeps_params. intros H%bool_decide_eq_true.
  repeat (apply elem_of_cons in H as [->|H]; [done|]). by apply elem_of_nil in H.
Qed.

(** X10: the mapper never answers [text] without a warning unless the type
    is [text] itself: when the answer is [text] and no warning comes with
    it, the base name of the type, in lower case, is [text].  Unknown
    types, types listed as losing their meaning, and arrays flattened on
    request all come with a warning. *)
Theorem text_fallback_is_reported (pg_type : string) (decisions : gmap string string)
    (table_name column_name : string) (enum_types : gset string) :
  _transform_single_type pg_type decisions table_name column_name enum_types = ("text", []) →
  lower (_extract_type_components pg_type).1 = "text".
Proof.
  unfold _transform_single_type.
  destruct (_extract_type_components pg_type) as [base params]. cbn [fst].
  case_bool_decide as He; [by intros [= ->]|].
  destruct (_is_array_type pg_type).
  { unfold _handle_array_type, _convert_native_array_type.
    repeat case_bool_decide; intros [=]. }
  destruct (dict_get type_map (lower base)) as [d|] eqn:Ed; [|by intros [=]].
  destruct (dict_get semantic_loss_types (lower base)) eqn:El; [by intros [=]|].
  destruct (truthy params && keeps_params d) eqn:Ek.
  - apply andb_true_iff in Ek as [_ Ek]. intros [= H].
    by apply keeps_params_not_text in H.
  - intros [= ->]. by apply text_keys.
Qed.

Lemma text_fallback_is_reported_witness :
  _transform_single_type "TEXT" ∅ "t" "c" ∅ = ("text", [])
  ∧ lower (_extract_type_components "TEXT").1 = "text".
Proof.
  assert (_transform_single_type "TEXT" ∅ "t" "c" ∅ = ("text", [])) as H by reflexivity.
  split; [exact H|]. exact (text_fallback_is_reported "TEXT" ∅ "t" "c" ∅ H).
Defined.

(** *** Type parameters *)

Lemma keeps_params_values (k d : string) :
  dict_get type_map k = Some d →
  keeps_params d = bool_decide (d = "varchar" ∨ d = "numeric").
Proof.
  intros (_ & _ & _ & _ & _ & Hk)%type_map_values_fixed.
  destruct (keeps_params d) eqn:E.
  - symmetry. apply bool_decide_eq_true. by apply Hk.
  - symmetry. apply bool_decide_eq_false. intros [->| ->]; by vm_compute in E.
Qed.

(** X11: for a type written as a name with parameters in parentheses, not an
    array and not an enum, the parameters are kept exactly when the name
    maps to [varchar] or [numeric]; for every other known name the answer
    is the mapped name without the parameters (so [char(10)] becomes
    [bpchar]), and for an unknown name it is [text].  Whatever follows the
    closing parenthesis is dropped. *)
Theorem parameters_kept_for_varchar_and_numeric (c : ascii) (ident p rest : string)
    (decisions : gmap string string) (table_name column_name : string)
    (enum_types : gset string) :
  is_ident_start c = true → all_chars is_word ident = true →
  p ≠ EmptyString → all_chars not_rparen p = true →
  contains "[]" (String c ident +:+ "(" +:+ p +:+ String ")" rest) = false →
  lower (String c ident) ∉ enum_types →
  (_transform_single_type (String c ident +:+ "(" +:+ p +:+ String ")" rest)
     decisions table_name column_name enum_types).1
  = match dict_get type_map (lower (String c ident)) with
    | Some d =>
        if bool_decide (d = "varchar" ∨ d = "numeric")
        then d +:+ "(" +:+ p +:+ ")" else d
    | None => "text"
    end.
Proof.
  intros Hc Hid Hp Hall Harr Henum.
  rewrite transform_non_array by done. rewrite extract_non_array by done.
  rewrite match_type_params_ident_params by done.
  unfold scalar_result. rewrite bool_decide_eq_false_2 by done.
  destruct (dict_get type_map (lower (String c ident))) as [d|] eqn:Ed; [|done].
  rewrite (keeps_params_values _ _ Ed).
  destruct p as [|a p]; [done|]. done.
Qed.

Lemma parameters_kept_for_varchar_and_numeric_witness :
  (_transform_single_type "char(10)" ∅ "t" "code" ∅).1 = "bpchar"
  ∧ (_transform_single_type "decimal(10,2)" ∅ "t" "price" ∅).1 = "numeric(10,2)".
Proof.
  split.
  - exact (parameters_kept_for_varchar_and_numeric "c" "har" "10" EmptyString ∅ "t" "code" ∅
             eq_refl eq_refl ltac:(done) eq_refl eq_refl ltac:(set_solver)).
  - exact (parameters_kept_for_varchar_and_numeric "d" "ecimal" "10,2" EmptyString ∅ "t"
             "price" ∅ eq_refl eq_refl ltac:(done) eq_refl eq_refl ltac:(set_solver)).
Defined.

(** *** The log of [transform_types] *)

Local Arguments transform_column : simpl never.

Lemma transform_column_some dec enums (n : string) (st : state) (σ : Store.t) (c : loc)
    (column : Column.t) :
  Store.cols σ !! c = Some column →
  transform_column dec enums n (st, σ) c
  = (mk_state
       (transformations_applied st
        ++ (if type_changes dec enums (n, column) then [record_of dec enums (n, column)]
            else []))
       (warnings_generated st ++ (answer dec enums (n, column)).2),
     Store.set_col c (mapped_column dec enums (n, column)) σ).
Proof.
  intros H. unfold transform_column, record_of, mapped_column, type_changes, answer.
  rewrite H. cbn [fst snd].
  destruct (_transform_single_type (Column.data_type column) dec n
              (Column.column_name column) enums) as [t w].
  cbn [fst snd]. destruct column as [nm ty ot nu pk un]. cbn.
  case_bool_decide; cbn; [|by rewrite List.app_nil_r]. done.
Qed.

Lemma omap_agree {A B} (f g : A → option B) (l : list A) :
  (∀ x, x ∈ l → f x = g x) → omap f l = omap g l.
Proof.
  induction l as [|x l IH]; intros H; [done|]. cbn [omap list_omap].
  rewrite (H x) by apply list_elem_of_here. rewrite IH; [done|].
  intros y Hy. apply H. by apply list_elem_of_further.
Qed.

Lemma column_steps_log dec enums (l : list (string * loc)) (st : state) (σ : Store.t) :
  NoDup l.*2 →
  let cols := omap (λ nc : string * loc, (λ col, (nc.1, col)) <$> Store.cols σ !! nc.2) l in
  let r := foldl (column_step dec enums) (st, σ) l in
  transformations_applied r.1
  = transformations_applied st
    ++ (record_of dec enums <$> List.filter (type_changes dec enums) cols)
  ∧ warnings_generated r.1
    = warnings_generated st ++ (cols ≫= λ nc, (answer dec enums nc).2)
  ∧ (∀ n c col, (n, c) ∈ l → Store.cols σ !! c = Some col →
       Store.cols r.2 !! c = Some (mapped_column dec enums (n, col)))
  ∧ (∀ c, c ∉ l.*2 → Store.cols r.2 !! c = Store.cols σ !! c).
Proof.
  revert st σ. induction l as [|[n c] l IH]; intros st σ Hnd.
  - cbn. rewrite !List.app_nil_r. split_and!; [done..| |done].
    intros n c col H. by apply elem_of_nil in H.
  - cbn [fmap list_fmap snd] in Hnd. apply NoDup_cons in Hnd as [Hc Hnd].
    cbv zeta. cbn [foldl]. unfold column_step at 2 4 6 8. cbn [fst snd].
    destruct (Store.cols σ !! c) as [column|] eqn:Ecol.
    + rewrite (transform_column_some _ _ _ _ _ _ _ Ecol).
      set (st1 := mk_state _ _). set (σ1 := Store.set_col _ _ _).
      assert (∀ c', c' ≠ c → Store.cols σ1 !! c' = Store.cols σ !! c') as Hother.
      { intros c' Hne. unfold σ1. cbn. by rewrite lookup_insert_ne. }
      destruct (IH st1 σ1 Hnd) as (H1 & H2 & H3 & H4). cbv zeta in *.
      assert (omap (λ nc : string * loc, (λ col, (nc.1, col)) <$> Store.cols σ1 !! nc.2) l
              = omap (λ nc : string * loc, (λ col, (nc.1, col)) <$> Store.cols σ !! nc.2) l)
        as Hsame.
      { apply omap_agree. intros [n' c'] Hin. cbn [fst snd]. rewrite Hother; [done|].
        intros ->. apply Hc. apply list_elem_of_fmap. by exists (n', c). }
      rewrite Hsame in H1, H2. cbn [omap list_omap fst snd]. rewrite Ecol.
      cbn [fmap option_fmap option_map List.filter].
      split_and!.
      * rewrite H1. unfold st1. cbn [transformations_applied].
        destruct (type_changes dec enums (n, column)).
        -- by rewrite <-(assoc_L (++)).
        -- by rewrite List.app_nil_r.
      * rewrite H2. unfold st1. cbn [warnings_generated]. csimpl.
        by rewrite <-(assoc_L (++)).
      * intros n' c' col [[= -> ->]|Hin]%elem_of_cons Hcol.
        -- rewrite H4 by done. unfold σ1. cbn. rewrite lookup_insert_eq. congruence.
        -- apply H3; [done|]. rewrite Hother; [done|]. intros ->. apply Hc.
           apply list_elem_of_fmap. by exists (n', c).
      * intros c' Hc'. cbn [fmap list_fmap snd] in Hc'.
        apply not_elem_of_cons in Hc' as [Hne Hc']. rewrite H4 by done. by apply Hother.
    + assert (transform_column dec enums n (st, σ) c = (st, σ)) as ->
        by (unfold transform_column; by rewrite Ecol).
      destruct (IH st σ Hnd) as (H1 & H2 & H3 & H4). cbv zeta in *.
      cbn [omap list_omap fst snd]. rewrite Ecol. cbn [fmap option_fmap option_map].
      split_and!; [done|done| |].
      * intros n' c' col [[= -> ->]|Hin]%elem_of_cons Hcol; [congruence|by apply H3].
      * intros c' Hc'. cbn [fmap list_fmap snd] in Hc'.
        apply not_elem_of_cons in Hc' as [Hne Hc']. by apply H4.
Qed.

(** X12: on a schema whose tables share no column dictionary,
    [transform_types] appends one transformation record for each column
    whose type changes, in the order of the tables and their columns, and
    none for a column whose type stays; it appends the warnings of all
    columns in that order; and every column dictionary gets the mapped
    type, the former type under [original_type] exactly when the two
    differ, and keeps its name and flags. *)
Theorem type_changes_logged (schema : SchemaDict.t) (decisions : option (gmap string string))
    (st : state) (σ : Store.t) :
  NoDup (column_refs σ (SchemaDict.tables schema)) →
  let dec := default {[ "ARRAY_TYPE" := "native" ]} decisions in
  let enum_types : gset string := list_to_set (lower <$> SchemaDict.enums schema) in
  let cols := named_columns σ (SchemaDict.tables schema) in
  let '(out, st', σ') := transform_types schema decisions st σ in
  transformations_applied st'
  = transformations_applied st
    ++ (record_of dec enum_types <$> List.filter (type_changes dec enum_types) cols)
  ∧ warnings_generated st'
    = warnings_generated st ++ (cols ≫= λ nc, (answer dec enum_types nc).2)
  ∧ (∀ n c col, (n, c) ∈ named_column_refs σ (SchemaDict.tables schema) →
       Store.cols σ !! c = Some col →
       Store.cols σ' !! c = Some (mapped_column dec enum_types (n, col)))
  ∧ (∀ c, c ∉ column_refs σ (SchemaDict.tables schema) →
       Store.cols σ' !! c = Store.cols σ !! c).
Proof.
  intros Hnd dec enum_types cols. unfold transform_types.
  fold dec. fold enum_types. rewrite transform_tables_flat. cbn [snd].
  rewrite <-named_column_refs_snd in Hnd.
  pose proof (column_steps_log dec enum_types _ st σ Hnd) as H. cbv zeta in H.
  destruct (foldl (column_step dec enum_types) (st, σ) _) as [st' σ'].
  cbn [fst snd] in H. destruct H as (H1 & H2 & H3 & H4).
  split_and!; [done..|]. intros c Hc. apply H4. by rewrite named_column_refs_snd.
Qed.

Lemma type_changes_logged_witness :
  NoDup (column_refs items_store (SchemaDict.tables items_schema))
  ∧ Log.tr_column
    <$> transformations_applied
          (transform_types items_schema None (mk_state [] []) items_store).1.2
    = ["price"].
Proof.
  assert (NoDup (column_refs items_store (SchemaDict.tables items_schema))) as Hnd.
  { apply (bool_decide_unpack _). by vm_compute. }
  split; [exact Hnd|].
  pose proof (type_changes_logged items_schema None (mk_state [] []) items_store Hnd) as H.
  cbv zeta in H.
  destruct (transform_types items_schema None (mk_state [] []) items_store) as [[out st'] σ'].
  destruct H as (H & _). cbn [fst snd]. rewrite H. by vm_compute.
Defined.
End TypeMapperMoreProps.

Module ParserTextProps.
Import PyStr Aux StrFacts ReFacts SQLParserText ParserTextSpec.

(** *** Splitting at top-level commas *)

Lemma split_simple_go_app (a b : string) (parts : list string) (cur : string) (d : Z) :
  split_simple_go (a +:+ b) parts cur d
  = let '(p1, c1, d1) := split_simple_go a parts cur d in split_simple_go b p1 c1 d1.
Proof.
  revert parts cur d. induction a as [|ch a IH]; intros parts cur d; [done|].
  rewrite app_cons. cbn [split_simple_go].
  repeat (match goal with |- context [if ?b then _ else _] => destruct b end); apply IH.
Qed.

Lemma join_snoc (sep : string) (l : list string) (x : string) :
  RelationshipBuilder.join sep (l ++ [x])
  = match l with
    | [] => x
    | _ => RelationshipBuilder.join sep l +:+ sep +:+ x
    end.
Proof.
  induction l as [|a l IH]; [done|].
  change ((a :: l) ++ [x]) with (a :: (l ++ [x])).
  destruct l as [|b l]; [done|].
  change (RelationshipBuilder.join sep (a :: (b :: l) ++ [x]))
    with (a +:+ sep +:+ RelationshipBuilder.join sep ((b :: l) ++ [x])).
  rewrite IH.
  change (RelationshipBuilder.join sep (a :: b :: l))
    with (a +:+ sep +:+ RelationshipBuilder.join sep (b :: l)).
  by rewrite !app_assoc.
Qed.

Lemma comma_join_char (parts : list string) (cur : string) (ch : ascii) :
  comma_join (parts ++ [cur +:+ String ch EmptyString])
  = comma_join (parts ++ [cur]) +:+ String ch EmptyString.
Proof.
  unfold comma_join. rewrite !join_snoc. destruct parts; [done|].
  by rewrite !app_assoc.
Qed.

Lemma app_char (a : string) (ch : ascii) (b : string) :
  (a +:+ String ch EmptyString) +:+ b = a +:+ String ch b.
Proof. by rewrite app_assoc. Qed.

Lemma split_simple_go_join (s : string) (parts : list string) (cur : string) (d : Z) :
  let '(p', c', _) := split_simple_go s parts cur d in
  comma_join (p' ++ [c']) = comma_join (parts ++ [cur]) +:+ s.
Proof.
  revert parts cur d. induction s as [|ch s IH]; intros parts cur d.
  - cbn. by rewrite app_nil_r.
  - cbn [split_simple_go].
    destruct (bool_decide (ch = "("%char)).
    { specialize (IH parts (cur +:+ String ch EmptyString) (d + 1)%Z).
      destruct (split_simple_go s _ _ _) as [[p' c'] d'].
      by rewrite IH, comma_join_char, app_char. }
    destruct (bool_decide (ch = ")"%char)).
    { specialize (IH parts (cur +:+ String ch EmptyString) (d - 1)%Z).
      destruct (split_simple_go s _ _ _) as [[p' c'] d'].
      by rewrite IH, comma_join_char, app_char. }
    destruct (bool_decide (ch = ","%char)) eqn:Ec; cbn [andb].
    + destruct (bool_decide (d = 0%Z)).
      * specialize (IH (parts ++ [cur]) EmptyString d).
        destruct (split_simple_go s _ _ _) as [[p' c'] d'].
        rewrite IH. apply bool_decide_eq_true in Ec as ->.
        unfold comma_join. rewrite (join_snoc _ (parts ++ [cur])).
        destruct (parts ++ [cur]) eqn:E; [by destruct parts|].
        by rewrite !app_assoc.
      * specialize (IH parts (cur +:+ String ch EmptyString) d).
        destruct (split_simple_go s _ _ _) as [[p' c'] d'].
        by rewrite IH, comma_join_char, app_char.
    + specialize (IH parts (cur +:+ String ch EmptyString) d).
      destruct (split_simple_go s _ _ _) as [[p' c'] d'].
      by rewrite IH, comma_join_char, app_char.
Qed.

Lemma whole_char (cur : string) (ch : ascii) (d : Z) :
  whole cur d →
  split_simple_go (String ch EmptyString) [] cur d
  = split_simple_go EmptyString [] (cur +:+ String ch EmptyString)
      (if bool_decide (ch = "("%char) then d + 1
       else if bool_decide (ch = ")"%char) then d - 1 else d)%Z →
  whole (cur +:+ String ch EmptyString)
    (if bool_decide (ch = "("%char) then d + 1
     else if bool_decide (ch = ")"%char) then d - 1 else d)%Z.
Proof.
  intros Hw Hstep. unfold whole. rewrite split_simple_go_app, Hw. by rewrite Hstep.
Qed.

Lemma split_simple_go_whole (s : string) (parts : list string) (cur : string) (d : Z) :
  whole cur d → Forall (λ p, whole p 0) parts →
  let '(p', c', d') := split_simple_go s parts cur d in
  whole c' d' ∧ Forall (λ p, whole p 0) p'.
Proof.
  revert parts cur d. induction s as [|ch s IH]; intros parts cur d Hcur Hparts; [done|].
  cbn [split_simple_go].
  pose proof (whole_char cur ch d Hcur) as Hch. cbn [split_simple_go] in Hch.
  destruct (bool_decide (ch = "("%char)); [by apply IH; [apply Hch|]|].
  destruct (bool_decide (ch = ")"%char)); [by apply IH; [apply Hch|]|].
  destruct (bool_decide (ch = ","%char)); cbn [andb] in *.
  - destruct (bool_decide (d = 0%Z)) eqn:Ed.
    + apply bool_decide_eq_true in Ed as ->. apply IH; [done|].
      apply Forall_app. split; [done|]. by constructor.
    + by apply IH; [apply Hch|].
  - by apply IH; [apply Hch|].
Qed.

Lemma whole_split (p : string) (d : Z) :
  whole p d → _split_column_definitions_simple p = if blank p then [] else [p].
Proof.
  unfold whole, _split_column_definitions_simple, blank. intros ->.
  by destruct (is_empty (strip p)).
Qed.


(** *** Column definitions *)

Lemma split_blank_go_tokens (s cur : string) :
  all_chars not_space cur = true →
  Forall (λ t, t ≠ EmptyString ∧ all_chars not_space t = true) (split_blank_go s cur).
Proof.
  revert cur. induction s as [|c s IH]; intros cur Hcur.
  - cbn. destruct cur; [constructor|]. by repeat constructor.
  - cbn [split_blank_go]. destruct (is_space c) eqn:Ec.
    + destruct cur as [|a cur]; cbn [is_empty]; [by apply IH|].
      constructor; [done|]. by apply IH.
    + apply IH. rewrite CleanerProps.all_chars_app, Hcur. cbn. unfold not_space.
      by rewrite Ec.
Qed.

Lemma all_chars_app_l (q : ascii → bool) (a b : string) :
  all_chars q (a +:+ b) = true → all_chars q a = true.
Proof. rewrite CleanerProps.all_chars_app. by intros [? ?]%andb_true_iff. Qed.

Lemma all_chars_app_r (q : ascii → bool) (a b : string) :
  all_chars q (a +:+ b) = true → all_chars q b = true.
Proof. rewrite CleanerProps.all_chars_app. by intros [? ?]%andb_true_iff. Qed.

Lemma match_type_call_blank_free (s base params : string) :
  match_type_call s = Some (base, params) → all_chars not_space s = true →
  all_chars not_space (base +:+ "(" +:+ params +:+ ")") = true.
Proof.
  unfold match_type_call. destruct (span is_word s) as [b r1] eqn:E1.
  destruct (is_empty b); [done|]. destruct r1 as [|c r2]; [done|].
  destruct c as [[] [] [] [] [] [] [] []]; try done.
  destruct (span not_rparen r2) as [p r3] eqn:E2.
  destruct p as [|p0 p]; [done|]. destruct r3 as [|c3 r3]; [done|].
  destruct c3 as [[] [] [] [] [] [] [] []]; try done.
  intros [= <- <-] Hs.
  apply span_spec in E1 as (-> & _ & _). apply span_spec in E2 as (-> & _ & _).
  rewrite !CleanerProps.all_chars_app in *. cbn in *.
  rewrite !CleanerProps.all_chars_app in Hs. cbn in Hs.
  repeat (apply andb_true_iff in Hs as [? Hs]).
  by rewrite H, H0, H1, H2.
Qed.

Lemma split_lines_no_nl (s line : string) :
  line ∈ SQLCleaner.split_lines s → contains nl_str line = false.
Proof.
  revert line. induction s as [|c s IH]; intros line.
  - cbn. by intros ->%list_elem_of_singleton.
  - cbn [SQLCleaner.split_lines]. case_bool_decide as Ec.
    + intros [->|H]%elem_of_cons; [done|by apply IH].
    + destruct (SQLCleaner.split_lines s) as [|l ls].
      * intros ->%list_elem_of_singleton. cbn.
        unfold startswith. cbn. rewrite bool_decide_eq_false_2; [done|].
        unfold SQLCleaner.nl in Ec. case_bool_decide; [congruence|]. by intros [? ?].
      * intros [->|H]%elem_of_cons.
        -- cbn [contains]. rewrite (IH l) by apply list_elem_of_here.
           unfold startswith, nl_str. cbn [strip_prefix].
           unfold SQLCleaner.nl in Ec.
           rewrite (bool_decide_eq_false_2 ("010"%char = c)) by congruence.
           rewrite bool_decide_eq_false_2; [done|]. by intros [? ?].
        -- apply IH. by apply list_elem_of_further.
Qed.

Lemma actual_column_line_spec (lines : list string) (x : string) :
  actual_column_line lines = Some x →
  ∃ line, line ∈ lines ∧ x = strip line ∧ x ≠ EmptyString.
Proof.
  induction lines as [|line rest IH]; [done|]. cbn [actual_column_line].
  destruct (negb (is_empty (strip line)) && _ && _ && _ && _) eqn:E.
  - intros [= <-]. exists line. split; [apply list_elem_of_here|]. split; [done|].
    repeat (apply andb_true_iff in E as [E _]). by destruct (strip line).
  - intros (l & Hl & H)%IH. exists l. split; [by apply list_elem_of_further|done].
Qed.

Lemma not_contains_strip (sub s : string) :
  contains sub s = false → contains sub (strip s) = false.
Proof.
  intros H. apply not_true_is_false. intros H'%contains_strip. congruence.
Qed.

Lemma strip_stops (s : string) : stops is_space (strip s) = true.
Proof. unfold strip. apply rstrip_stops, lstrip_stops. Qed.

Lemma find_quote_spec (r name after : string) :
  find_quote r = Some (name, after) →
  r = name +:+ String dq after ∧ contains dq_str name = false.
Proof.
  revert name. induction r as [|c r IH]; intros name; [done|]. cbn [find_quote].
  case_bool_decide as Ec.
  - intros [= <- <-]. by subst.
  - destruct (find_quote r) as [[a b]|]; [|done]. intros [= <- <-].
    destruct (IH a eq_refl) as [-> Ha]. split; [done|].
    cbn [contains]. rewrite Ha. unfold startswith, dq_str. cbn [strip_prefix].
    rewrite (bool_decide_eq_false_2 (dq = c)) by congruence.
    rewrite bool_decide_eq_false_2; [done|]. by intros [? ?].
Qed.

Lemma name_and_remaining_spec (cd name remaining : string) :
  stops is_space cd = true →
  name_and_remaining cd = Some (name, remaining) →
  if startswith cd dq_str
  then (∃ after, cd = String dq (name +:+ String dq after))
       ∧ contains dq_str name = false
  else name ≠ EmptyString ∧ blank_free name = true ∧ startswith cd name = true.
Proof.
  intros Hcd. unfold name_and_remaining. fold dq_str.
  destruct (startswith cd dq_str) eqn:Eq.
  - destruct cd as [|c r]; [done|].
    destruct (find_quote r) as [[a b]|] eqn:Ef; [|done]. intros [= <- <-].
    apply find_quote_spec in Ef as [-> Ha]. split; [|done].
    exists b. f_equal. unfold startswith, dq_str in Eq. cbn [strip_prefix] in Eq.
    destruct (bool_decide (dq = c)) eqn:Ec.
    + by apply bool_decide_eq_true in Ec.
    + by apply bool_decide_eq_true in Eq as [? ?].
  - unfold split_blank_1. rewrite lstrip_id by done.
    destruct cd as [|c r]; [done|]. cbn [is_empty].
    destruct (span not_space (String c r)) as [first rest] eqn:Es.
    destruct (is_empty (lstrip rest)); [done|]. intros [= <- <-].
    pose proof Es as (Heq & Hall & _)%span_spec. split; [|split].
    + cbn [span] in Es. unfold not_space in Es at 1. cbn [stops] in Hcd. rewrite Hcd in Es.
      destruct (span not_space r). by injection Es as <- <-.
    + done.
    + rewrite Heq. apply startswith_spec. by exists rest.
Qed.



(** *** Added columns *)

Lemma add_to_table_spec {C} (tables : list (table_info C)) (tn : string)
    (col : column_info) :
  add_to_table tables tn col = tables
  ∨ ∃ pre table post,
      tables = pre ++ table :: post
      ∧ add_to_table tables tn col = pre ++ with_column table col :: post
      ∧ table_name table = tn
      ∧ Forall (λ t, table_name t ≠ tn) pre
      ∧ column_name col ∉ column_name <$> columns table.
Proof.
  induction tables as [|t rest IH]; [by left|]. cbn [add_to_table].
  case_bool_decide as Et.
  - case_bool_decide as Ec; [|by left].
    right. exists [], t, rest. by split_and!.
  - destruct IH as [->|(pre & table & post & -> & -> & Hn & Hpre & Hc)]; [by left|].
    right. exists (t :: pre), table, post. split_and!; [done..| |done].
    by constructor.
Qed.

Lemma parse_add_column_spec {C} (statement tn : string)
    (tables : list (table_info C)) :
  let tables' := _parse_add_column statement tn tables in
  (tables' = tables
   ∨ ∃ pre table post col,
       tables = pre ++ table :: post
       ∧ tables' = pre ++ with_column table col :: post
       ∧ table_name table = tn
       ∧ Forall (λ t, table_name t ≠ tn) pre
       ∧ (column_name col ∉ column_name <$> columns table)
       ∧ ∃ column_def, _parse_column_definition column_def = Some col)
  ∧ Forall2 (λ t t', table_name t' = table_name t
                     ∧ (NoDup (column_name <$> columns t)
                        → NoDup (column_name <$> columns t')))
      tables tables'.
Proof.
  cbv zeta. unfold _parse_add_column.
  assert (Forall2 (λ t t' : table_info C,
                     table_name t' = table_name t
                     ∧ (NoDup (column_name <$> columns t)
                        → NoDup (column_name <$> columns t'))) tables tables) as Hrefl.
  { apply Forall2_same_length_lookup_2; [done|]. intros i t t' H1 H2.
    assert (t = t') as -> by congruence. done. }
  destruct (Re.search add_column_matcher statement) as [group|]; [|by split; [left|]].
  destruct (_parse_column_definition (strip group)) as [col|] eqn:Ep; [|by split; [left|]].
  destruct (add_to_table_spec tables tn col)
    as [->|(pre & table & post & -> & -> & Hn & Hpre & Hc)]; [by split; [left|]|].
  split.
  - right. exists pre, table, post, col. split_and!; [done..|]. by exists (strip group).
  - apply Forall2_app_inv_l in Hrefl as (l1 & l2 & H1 & H2 & ?).
    apply Forall2_app.
    + apply Forall2_same_length_lookup_2; [done|]. intros i t t' Ht Ht'.
      assert (t = t') as -> by congruence. done.
    + constructor.
      * split; [done|]. intros Hnd. cbn [with_column columns].
        rewrite fmap_app. apply NoDup_app. split; [done|]. split.
        -- intros x Hx ->%list_elem_of_singleton. done.
        -- apply NoDup_singleton.
      * apply Forall2_same_length_lookup_2; [done|]. intros i t t' Ht Ht'.
        assert (t = t') as -> by congruence. done.
Qed.

(** X15: [_parse_add_column] leaves the table list as it is, or appends one
    parsed column to the first table of the given name, which had no column
    of that name; the other tables, the order of the tables and the columns
    already there are untouched.  So the column names of a table stay
    distinct if they were. *)
Theorem add_column_extends_first_table {C} (statement tn : string)
    (tables : list (table_info C)) :
  let tables' := _parse_add_column statement tn tables in
  (tables' = tables
   ∨ ∃ pre table post col,
       tables = pre ++ table :: post
       ∧ tables' = pre ++ with_column table col :: post
       ∧ table_name table = tn
       ∧ Forall (λ t, table_name t ≠ tn) pre
       ∧ (column_name col ∉ column_name <$> columns table)
       ∧ ∃ column_def, _parse_column_definition column_def = Some col)
  ∧ Forall2 (λ t t', table_name t' = table_name t
                     ∧ (NoDup (column_name <$> columns t)
                        → NoDup (column_name <$> columns t')))
      tables tables'.
Proof. apply parse_add_column_spec. Qed.
End ParserTextProps.

Module ParserConstraintProps.
Import PyStr Aux StrFacts ReFacts SQLParserConstraints ParserConstraintSpec.

(** *** Constraint bodies *)

Lemma parsed_type_p : Some "p" ∈ parsed_types.
Proof. apply list_elem_of_here. Qed.
Lemma parsed_type_u : Some "u" ∈ parsed_types.
Proof. apply list_elem_of_further, list_elem_of_here. Qed.
Lemma parsed_type_c : Some "c" ∈ parsed_types.
Proof. do 2 apply list_elem_of_further. apply list_elem_of_here. Qed.
Lemma parsed_type_f : Some "f" ∈ parsed_types.
Proof. do 3 apply list_elem_of_further. apply list_elem_of_here. Qed.

Lemma foreign_key_outcome (body tn : string) (name : option string)
    (rels : list relationship) :
  let '(res, rels') := _parse_foreign_key_constraint body tn name rels in
  match res with
  | Some k =>
      built_for tn rels k rels'
      ∧ Constraint.constraint_name k = Some name
      ∧ Constraint.definition k = Some body
  | None => rels' = rels
  end.
Proof.
  unfold _parse_foreign_key_constraint.
  destruct (Re.search foreign_key_matcher body) as [[[g1 g2] g3]|]; [|done].
  split; [|done]. split; [apply parsed_type_f|]. split; [done|].
  cbn [Constraint.constraint_type]. rewrite bool_decide_eq_true_2 by done.
  eexists. split; [done|]. by repeat split.
Qed.

Lemma startswith_first (s p : string) (a b : ascii) (q r : string) :
  s = String a q → p = String b r → a ≠ b → startswith s p = false.
Proof.
  intros -> -> Hne. unfold startswith. cbn [strip_prefix].
  rewrite (bool_decide_eq_false_2 (b = a)) by congruence.
  apply bool_decide_eq_false. by intros [? ?].
Qed.

Lemma parse_constraint_body_outcome (body tn : string) (name : option string)
    (rels : list relationship) :
  let '(res, rels') := _parse_constraint_body body tn name rels in
  body_outcome body tn name rels res rels'
  ∧ (startswith (upper (strip body)) "EXCLUDE" = true → res = None).
Proof.
  unfold _parse_constraint_body. cbv zeta.
  destruct (startswith (upper (strip body)) "PRIMARY KEY") eqn:Ep.
  { split.
    - split; [|done]. split; [apply parsed_type_p|]. split; [done|].
      cbn [Constraint.constraint_type]. by rewrite bool_decide_eq_false_2.
    - apply startswith_spec in Ep as [r Hr]. rewrite Hr. intros H.
      by apply startswith_spec in H as [r' ?]. }
  destruct (startswith (upper (strip body)) "FOREIGN KEY") eqn:Ef.
  { pose proof (foreign_key_outcome (strip body) tn name rels) as H.
    destruct (_parse_foreign_key_constraint (strip body) tn name rels) as [res rels'].
    split; [by destruct res|].
    apply startswith_spec in Ef as [r Hr]. rewrite Hr. intros H'.
    by apply startswith_spec in H' as [r' ?]. }
  destruct (startswith (upper (strip body)) "UNIQUE") eqn:Eu.
  { split.
    - split; [|done]. split; [apply parsed_type_u|]. split; [done|].
      cbn [Constraint.constraint_type]. by rewrite bool_decide_eq_false_2.
    - apply startswith_spec in Eu as [r Hr]. rewrite Hr. intros H.
      by apply startswith_spec in H as [r' ?]. }
  destruct (startswith (upper (strip body)) "CHECK") eqn:Ec.
  { split.
    - split; [|done]. split; [apply parsed_type_c|]. split; [done|].
      cbn [Constraint.constraint_type]. by rewrite bool_decide_eq_false_2.
    - apply startswith_spec in Ec as [r Hr]. rewrite Hr. intros H.
      by apply startswith_spec in H as [r' ?]. }
  done.
Qed.

(** X16: every constraint that [_parse_constraint_body] builds has type p,
    u, c or f, the given table name and constraint name, and the stripped
    body as its definition; a body that starts with EXCLUDE gives no
    constraint.  A foreign key, and nothing else, appends one relationship
    to the parser's list: it has the constraint's table as source, the same
    columns, referenced table and columns, actions and name, and the type
    many-to-one. *)
Theorem constraint_body_outcome (constraint_body table_name : string)
    (constraint_name : option string) (relationships : list relationship) :
  let '(res, relationships') :=
    _parse_constraint_body constraint_body table_name constraint_name relationships in
  body_outcome constraint_body table_name constraint_name relationships res relationships'
  ∧ (startswith (upper (strip constraint_body)) "EXCLUDE" = true → res = None).
Proof. apply parse_constraint_body_outcome. Qed.

Lemma parse_add_constraint_spec (statement table_name : string)
    (constraints : list Constraint.t) (relationships : list relationship) :
  let '(constraints', relationships') :=
    _parse_add_constraint statement table_name constraints relationships in
  (constraints' = constraints ∧ relationships' = relationships)
  ∨ ∃ k name, constraints' = constraints ++ [k]
              ∧ built_for table_name relationships k relationships'
              ∧ Constraint.constraint_name k = Some (Some name).
Proof.
  unfold _parse_add_constraint.
  destruct (Re.search add_constraint_matcher statement) as [[g1 g2]|]; [|by left].
  cbv zeta.
  pose proof (parse_constraint_body_outcome g2 table_name (Some (strip_quotes g1))
                relationships) as H.
  destruct (_parse_constraint_body g2 table_name (Some (strip_quotes g1)) relationships)
    as [[k|] rels'].
  - destruct H as [(Hb & Hn & _) _]. right. by exists k, (strip_quotes g1).
  - destruct H as [-> _]. by left.
Qed.

(** X17: [_parse_add_constraint] appends at most one constraint to the
    standalone list, and [_parse_table_constraint] returns at most one: a
    constraint of type p, u, c or f with the given table name and a
    constraint name; the relationship list grows by the one relationship
    that repeats the constraint exactly when it is a foreign key.  Without
    a constraint, both lists stay as they are. *)
Theorem added_constraints_typed (statement table_name : string)
    (constraints : list Constraint.t) (relationships : list relationship) :
  (let '(constraints', relationships') :=
     _parse_add_constraint statement table_name constraints relationships in
   (constraints' = constraints ∧ relationships' = relationships)
   ∨ ∃ k name, constraints' = constraints ++ [k]
               ∧ built_for table_name relationships k relationships'
               ∧ Constraint.constraint_name k = Some (Some name))
  ∧ (let '(res, relationships') :=
       _parse_table_constraint statement table_name relationships in
     match res with
     | Some k => built_for table_name relationships k relationships'
                 ∧ ∃ name, Constraint.constraint_name k = Some (Some name)
     | None => relationships' = relationships
     end).
Proof.
  split; [apply parse_add_constraint_spec|].
  - unfold _parse_table_constraint. cbv zeta.
    destruct (match_named_constraint (strip statement)) as [[g1 g2]|]; [|done].
    pose proof (parse_constraint_body_outcome (strip g2) table_name
                  (Some (strip_quotes g1)) relationships) as H.
    destruct (_parse_constraint_body (strip g2) table_name (Some (strip_quotes g1))
                relationships) as [[k|] rels'].
    + destruct H as [(Hb & Hn & _) _]. split; [done|]. by exists (strip_quotes g1).
    + by destruct H as [-> _].
Qed.

(** *** Table names *)

Lemma split_char_cons (sep : ascii) (s : string) : ∃ l ls, split_char sep s = l :: ls.
Proof.
  induction s as [|c s (l & ls & IH)]; [by eexists _, _|]. cbn [split_char].
  case_bool_decide; [by eexists _, _|]. rewrite IH. by eexists _, _.
Qed.

Lemma split_char_free (sep : ascii) (s x : string) :
  x ∈ split_char sep s → contains (String sep EmptyString) x = false.
Proof.
  revert x. induction s as [|c s IH]; intros x.
  - cbn. by intros ->%list_elem_of_singleton.
  - cbn [split_char]. case_bool_decide as Ec.
    + intros [->|H]%elem_of_cons; [done|by apply IH].
    + destruct (split_char_cons sep s) as (l & ls & El). rewrite El in *.
      intros [->|H]%elem_of_cons.
      * cbn [contains]. rewrite (IH l) by apply list_elem_of_here.
        unfold startswith. cbn [strip_prefix].
        rewrite (bool_decide_eq_false_2 (sep = c)) by congruence.
        rewrite bool_decide_eq_false_2; [done|]. by intros [? ?].
      * apply IH. by apply list_elem_of_further.
Qed.

Lemma last_segment_free (s : string) : contains "." (last_segment s) = false.
Proof.
  unfold last_segment. destruct (last (split_char "." s)) as [x|] eqn:E; [|done].
  apply (split_char_free "." s). cbn [default]. by apply last_Some_elem_of.
Qed.

Lemma split_char_whole (sep : ascii) (s : string) :
  all_chars (λ c, bool_decide (c ≠ sep)) s = true → split_char sep s = [s].
Proof.
  induction s as [|c s IH]; [done|]. cbn [all_chars split_char].
  intros [Hc Hs]%andb_true_iff. apply bool_decide_eq_true in Hc.
  rewrite bool_decide_eq_false_2 by done. by rewrite IH.
Qed.

Lemma split_char_suffix (sep : ascii) (s id : string) :
  all_chars (λ c, bool_decide (c ≠ sep)) id = true →
  ∃ l ls, split_char sep (s +:+ String sep id) = l :: ls ++ [id].
Proof.
  intros Hid. induction s as [|c s (l & ls & IH)].
  - rewrite app_nil_l. cbn [split_char]. rewrite bool_decide_eq_true_2 by done.
    rewrite split_char_whole by done. by exists EmptyString, [].
  - rewrite app_cons. cbn [split_char]. rewrite IH. case_bool_decide.
    + by exists EmptyString, (l :: ls).
    + by exists (String c l), ls.
Qed.

Lemma last_segment_suffix (s id : string) :
  all_chars is_word id = true → last_segment (s +:+ String "." id) = id.
Proof.
  intros Hid. unfold last_segment.
  destruct (split_char_suffix "." s id) as (l & ls & ->).
  - eapply all_chars_impl; [|done]. intros c Hc. apply bool_decide_eq_true.
    intros ->. by vm_compute in Hc.
  - change (l :: ls ++ [id]) with ((l :: ls) ++ [id]). by rewrite last_snoc.
Qed.

Lemma dotted_not_space (c : ascii) : is_dotted_char c = true → is_space c = false.
Proof. destruct c as [[] [] [] [] [] [] [] []]; by vm_compute. Qed.

Lemma dotted_not_quote (c : ascii) : is_dotted_char c = true → c ≠ dq.
Proof. intros H ->. by vm_compute in H. Qed.

Lemma if_not_exists_short (a b d : ascii) (r : string) :
  is_space d = false → if_not_exists (String a (String b (String d r))) = None.
Proof.
  intros Hd.
  assert (blanks1 (String d r) = None) as Hb
    by (unfold blanks1; cbn [span]; by rewrite Hd).
  unfold if_not_exists. rewrite !CleanerProps.strip_prefix_ci_cons.
  destruct (bool_decide ("i"%char = lower_char a)); [|done].
  destruct (bool_decide ("f"%char = lower_char b)); [|done].
  change (strip_prefix_ci EmptyString (String d r)) with (Some (String d r)).
  cbn [mbind option_bind]. by rewrite Hb.
Qed.

Lemma blanks1_space (x : string) :
  stops is_space x = true → blanks1 (String " " x) = Some x.
Proof.
  intros H. unfold blanks1.
  change (String " " x) with (String " " EmptyString +:+ x).
  by rewrite (span_app is_space (String " " EmptyString) x eq_refl H).
Qed.

Lemma search_at_start {A} (m : Re.matcher A) (c : ascii) (r : string) (v : A)
    (rest : string) :
  m None (String c r) = Some (v, rest) → Re.search m (String c r) = Some v.
Proof. intros H. unfold Re.search, Re.finditer. cbn [Re.finditer_go]. by rewrite H. Qed.

Lemma create_table_run (run : string) (a : ascii) (run' : string) (c : ascii)
    (rest : string) :
  run = String a run' → all_chars is_dotted_char run = true →
  is_dotted_char c = false →
  if_not_exists (run +:+ String c rest) = None →
  create_table_name_matcher None ("CREATE TABLE " +:+ run +:+ String c rest)
  = Some (run, String c rest).
Proof.
  intros Hrun Hall Hc Hif. unfold create_table_name_matcher.
  assert (is_dotted_char a = true) as Ha.
  { rewrite Hrun in Hall. cbn in Hall. by apply andb_true_iff in Hall as [? _]. }
  rewrite !app_cons, app_nil_l.
  change (strip_prefix_ci "create" (String "C" (String "R" (String "E" (String "A"
            (String "T" (String "E" (String " " (String "T" (String "A" (String "B"
            (String "L" (String "E" (String " " (run +:+ String c rest)))))))))))))))
    with (Some (String " " (String "T" (String "A" (String "B" (String "L"
            (String "E" (String " " (run +:+ String c rest))))))))).
  cbn [mbind option_bind]. rewrite blanks1_space by done.
  cbn [mbind option_bind].
  change (strip_prefix_ci "table" (String "T" (String "A" (String "B" (String "L"
            (String "E" (String " " (run +:+ String c rest))))))))
    with (Some (String " " (run +:+ String c rest))).
  cbn [mbind option_bind]. rewrite blanks1_space.
  2:{ rewrite Hrun, app_cons. cbn [stops]. by rewrite dotted_not_space. }
  cbn [mbind option_bind]. rewrite Hif. cbn [mbind option_bind].
  unfold table_name_group. rewrite Hrun at 1. rewrite app_cons.
  rewrite bool_decide_eq_false_2 by by apply dotted_not_quote.
  rewrite (span_app is_dotted_char run (String c rest)); [|done|by cbn; rewrite Hc].
  by rewrite Hrun.
Qed.

Lemma dotted_run_no_option (schema id : string) (c : ascii) (rest : string) :
  all_chars is_dotted_char schema = true → id ≠ EmptyString →
  all_chars is_word id = true →
  if_not_exists ((schema +:+ String "." id) +:+ String c rest) = None.
Proof.
  intros Hs Hne Hid. destruct schema as [|a [|b schema]].
  - done.
  - rewrite !app_cons, app_nil_l. unfold if_not_exists. cbn [strip_prefix_ci].
    by destruct (bool_decide ("i"%char = lower_char a)).
  - rewrite !app_cons. cbn in Hs. apply andb_true_iff in Hs as [_ Hs].
    apply andb_true_iff in Hs as [_ Hs]. destruct schema as [|d schema].
    + rewrite app_nil_l, app_cons. by apply if_not_exists_short.
    + rewrite !app_cons. apply if_not_exists_short. apply dotted_not_space.
      cbn in Hs. by apply andb_true_iff in Hs as [? _].
Qed.

Lemma word_dotted (c : ascii) : is_word c = true → is_dotted_char c = true.
Proof. unfold is_dotted_char. by intros ->. Qed.


End ParserConstraintProps.

Module CleanerReportProps.
Import PyStr SQLCleaner SQLCleanerReport CleanerSpec CleanerLogSpec CleanerReportSpec
  CleanerLogProps.

Lemma group_of_add (k : string) (acc : list (string * list removal)) (x : removal) :
  group_of k (add_statement acc x)
  = if bool_decide (rm_statement_type x = k)
    then Some (default [] (group_of k acc) ++ [x])
    else group_of k acc.
Proof.
  induction acc as [|[k' v] acc IH].
  - cbn. by case_bool_decide.
  - cbn [add_statement group_of].
    destruct (bool_decide (k' = rm_statement_type x)) eqn:E1.
    + apply bool_decide_eq_true in E1 as ->. cbn [group_of].
      by destruct (bool_decide (rm_statement_type x = k)).
    + apply bool_decide_eq_false in E1. cbn [group_of]. rewrite IH.
      destruct (bool_decide (k' = k)) eqn:E2; [|done].
      apply bool_decide_eq_true in E2 as ->.
      by rewrite bool_decide_eq_false_2 by congruence.
Qed.

Lemma keys_add (acc : list (string * list removal)) (x : removal) :
  (add_statement acc x).*1
  = if bool_decide (rm_statement_type x ∈ acc.*1) then acc.*1
    else acc.*1 ++ [rm_statement_type x].
Proof.
  induction acc as [|[k' v] acc IH].
  - cbn. rewrite bool_decide_eq_false_2; [done|]. by intros ?%elem_of_nil.
  - cbn [add_statement]. destruct (bool_decide (k' = rm_statement_type x)) eqn:E1.
    + apply bool_decide_eq_true in E1 as ->. cbn.
      rewrite bool_decide_eq_true_2; [done|]. apply list_elem_of_here.
    + apply bool_decide_eq_false in E1. cbn [fmap list_fmap fst]. rewrite IH.
      destruct (bool_decide (rm_statement_type x ∈ acc.*1)) eqn:E2.
      * apply bool_decide_eq_true in E2. rewrite bool_decide_eq_true_2; [done|].
        by apply list_elem_of_further.
      * apply bool_decide_eq_false in E2. rewrite bool_decide_eq_false_2; [done|].
        intros [?|?]%elem_of_cons; [congruence|done].
Qed.

Lemma groups_spec (log : list removal) :
  NoDup (foldl add_statement [] log).*1
  ∧ ∀ k, group_of k (foldl add_statement [] log)
         = match of_type k log with
           | [] => None
           | stmts => Some stmts
           end.
Proof.
  induction log as [|x log [IH1 IH2]] using rev_ind.
  - split; [constructor|done].
  - rewrite foldl_snoc. split.
    + rewrite keys_add. case_bool_decide as E; [done|].
      apply NoDup_app. split; [done|]. split; [|apply NoDup_singleton].
      by intros k Hk ->%list_elem_of_singleton.
    + intros k. rewrite group_of_add, IH2. unfold of_type.
      rewrite List.filter_app. cbn [List.filter].
      destruct (bool_decide (rm_statement_type x = k)).
      * by destruct (List.filter _ log).
      * rewrite List.app_nil_r. done.
Qed.

Lemma group_of_key (k : string) (l : list (string * list removal)) :
  k ∈ l.*1 → is_Some (group_of k l).
Proof.
  induction l as [|[k' v] l IH]; [by intros ?%elem_of_nil|].
  cbn. intros [->|H]%elem_of_cons.
  - rewrite bool_decide_eq_true_2 by done. by eexists.
  - case_bool_decide; [by eexists|by apply IH].
Qed.

Lemma of_type_elem (k : string) (log : list removal) (r : removal) :
  r ∈ of_type k log → r ∈ log ∧ rm_statement_type r = k.
Proof.
  unfold of_type. rewrite !list_elem_of_In, filter_In.
  intros [? H]. by apply bool_decide_eq_true in H.
Qed.

(** X19: [get_removal_report] counts the removal records, hands on the line
    mapping, and groups the records by statement type: the keys of
    [by_type] are distinct, and under each statement type stand exactly the
    records of that type, in the order of the log; a type without record
    is no key.  After [clean_dump] on a cleaner without records, every key
    is one of the nine statement types of the line rules: there is no group
    UNKNOWN. *)
Theorem removal_report_groups (st : state) :
  let report := get_removal_report st in
  total_removed report = length (removed_statements st)
  ∧ report_line_mapping report = line_mapping st
  ∧ NoDup (by_type report).*1
  ∧ (∀ k, group_of k (by_type report)
          = match of_type k (removed_statements st) with
            | [] => None
            | stmts => Some stmts
            end)
  ∧ (∀ sql_content k,
       k ∈ (by_type (get_removal_report (clean_dump sql_content init).2)).*1 →
       k ∈ statement_reasons.*1).
Proof.
  cbv zeta. unfold get_removal_report. cbn [total_removed report_line_mapping by_type].
  destruct (groups_spec (removed_statements st)) as [H1 H2].
  split_and!; [done..|].
  intros sql_content k Hk. apply group_of_key in Hk as [stmts Hs].
  destruct (groups_spec (removed_statements (clean_dump sql_content init).2)) as [_ H3].
  rewrite H3 in Hs.
  destruct (of_type k _) as [|r stmts'] eqn:Eo; [done|].
  assert (r ∈ of_type k (removed_statements (clean_dump sql_content init).2)) as Hr
    by (rewrite Eo; apply list_elem_of_here).
  apply of_type_elem in Hr as [Hr <-].
  rewrite clean_dump_unfold in Hr. cbn [snd] in Hr.
  rewrite (proj2 (clean_lines_log _ 0 [] init)) in Hr. cbn [removed_statements init] in Hr.
  rewrite app_nil_l in Hr.
  apply list_elem_of_fmap in Hr as (nl & -> & Hnl).
  apply dropped_elem in Hnl as [_ Hnl]. apply removed_classified in Hnl.
  apply list_elem_of_fmap. by eexists (_, _).
Qed.
End CleanerReportProps.

Module ParserAlterProps.
Import PyStr SQLParserText SQLParserConstraints SQLParserAlter ParserTextSpec
  ParserConstraintSpec ParserAlterSpec.

Lemma grown_refl {C} (t : table_info C) : grown t t.
Proof.
  repeat split. exists []. split; [by rewrite List.app_nil_r|simpl; lia].
Qed.

Lemma grown_all {C} (tables : list (table_info C)) : Forall2 grown tables tables.
Proof. induction tables; constructor; [apply grown_refl|done]. Qed.

Lemma add_column_grown {C} (statement tn : string) (tables : list (table_info C)) :
  Forall2 grown tables (_parse_add_column statement tn tables).
Proof.
  destruct (ParserTextProps.parse_add_column_spec statement tn tables) as [H _].
  cbv zeta in H.
  destruct H as [->|(pre & table & post & col & -> & -> & _)]; [apply grown_all|].
  apply Forall2_app; [apply grown_all|]. constructor; [|apply grown_all].
  repeat split. exists [col]. split; [done|simpl; lia].
Qed.

(** X20: an ALTER TABLE statement only adds: after [_parse_alter_table]
    every table is the one it was, with at most one more column at the end;
    the standalone constraint list has grown by at most one constraint, of
    type p, u, c or f; and the relationship list has grown by at most one
    relationship, and only together with a constraint. *)
Theorem alter_table_only_adds {C} (statement_str : string)
    (tables : list (table_info C)) (constraints : list Constraint.t)
    (relationships : list relationship) :
  let '(tables', constraints', relationships') :=
    _parse_alter_table statement_str tables constraints relationships in
  Forall2 grown tables tables'
  ∧ ∃ ks rs, constraints' = constraints ++ ks ∧ relationships' = relationships ++ rs
             ∧ length rs ≤ length ks ∧ length ks ≤ 1
             ∧ Forall (λ k, Constraint.constraint_type k ∈ parsed_types) ks.
Proof.
  unfold _parse_alter_table.
  assert (∃ ks rs : list _, constraints = constraints ++ ks
                   ∧ relationships = relationships ++ rs
                   ∧ length rs ≤ length ks ∧ length ks ≤ 1
                   ∧ Forall (λ k, Constraint.constraint_type k ∈ parsed_types) ks)
    as Hsame.
  { exists [], []. rewrite !List.app_nil_r. split_and!; [done|done|done|simpl; lia|done]. }
  destruct (Re.search alter_table_matcher statement_str) as [group|];
    [|split; [apply grown_all|done]].
  cbv zeta. set (tn := if contains "." _ then _ else _).
  destruct (contains "ADD CONSTRAINT" (upper statement_str)).
  - pose proof (ParserConstraintProps.parse_add_constraint_spec statement_str tn
                  constraints relationships) as H.
    destruct (_parse_add_constraint statement_str tn constraints relationships)
      as [constraints' relationships'].
    split.
    { destruct (contains "ADD COLUMN" (upper statement_str));
        [apply add_column_grown|apply grown_all]. }
    destruct H as [[-> ->]|(k & nm & -> & (Hty & _ & Hrel) & _)]; [done|].
    exists [k]. destruct (bool_decide (Constraint.constraint_type k = Some "f")).
    + destruct Hrel as (r & -> & _). exists [r]. split_and!; [done..|].
      by constructor.
    + subst relationships'. exists []. rewrite List.app_nil_r.
      split_and!; [done|done|simpl; lia|done|]. by constructor.
  - split; [|done].
    destruct (contains "ADD COLUMN" (upper statement_str));
      [apply add_column_grown|apply grown_all].
Qed.
End ParserAlterProps.
